(** * Workbench fragments: mode service, debug hover, CLI installer, JS mode

    A shallow embedding of pieces of the editor workbench:

    - [Objects]      : option bags ([clone], [mixin], [equals]) used by the
                       mode service configuration;
    - [ModeService]  : [ModeServiceImpl], the registry of lazily
                       instantiated modes;
    - [DebugHover]   : [DebugHoverWidget], the debug hover content widget;
    - [CLI]          : [InstallAction], the "Install in PATH" action;
    - [JSMode]       : the declarative rich-edit table of [JSMode].

    JavaScript objects used as dictionaries are finite maps, objects with
    identity (modes, promises) live in explicit stores and are referred to
    by index, and promise chains over the file system are programs of a
    small free monad whose commands are answered by the environment. *)

From Stdlib Require Import ZArith Lia List Bool String Ascii.
From stdpp Require Import base gmap strings list.

Local Open Scope string_scope.
Local Open Scope list_scope.
Local Open Scope Z_scope.

(* ===================================================================== *)
(** * Part I: definitions                                                 *)
(* ===================================================================== *)

(** ** JavaScript string primitives *)

Module JSString.

(** [s.indexOf(search)], scanning from position [i]: the first position at
    which [search] occurs, [-1] when there is none. *)
Fixpoint indexOf_from (s search : string) (i : Z) : Z :=
  if String.prefix search s then i
  else match s with
       | EmptyString => -1
       | String _ rest => indexOf_from rest search (i + 1)
       end.

Definition indexOf (s search : string) : Z := indexOf_from s search 0.

(** [s.lastIndexOf(search)]: the last position at which [search] occurs. *)
Fixpoint lastIndexOf_from (s search : string) (i : Z) (found : Z) : Z :=
  let found' := if String.prefix search s then i else found in
  match s with
  | EmptyString => found'
  | String _ rest => lastIndexOf_from rest search (i + 1) found'
  end.

Definition lastIndexOf (s search : string) : Z := lastIndexOf_from s search 0 (-1).

(** [s.substring(start, end)]: negative indices count as [0] and the two
    bounds are swapped when [start > end]. *)
Definition substring (s : string) (start stop : Z) : string :=
  let a := Z.max 0 start in
  let b := Z.max 0 stop in
  let lo := Z.min a b in
  let hi := Z.max a b in
  String.substring (Z.to_nat lo) (Z.to_nat (hi - lo)) s.

(** [s.substring(start)] *)
Definition substring_from (s : string) (start : Z) : string :=
  substring s start (Z.of_nat (String.length s)).

Definition isWhitespace (c : ascii) : bool :=
  match c with
  | " "%char | "009"%char | "010"%char | "011"%char | "012"%char | "013"%char => true
  | _ => false
  end.

Fixpoint trimStart (s : string) : string :=
  match s with
  | String c rest => if isWhitespace c then trimStart rest else s
  | EmptyString => EmptyString
  end.

Fixpoint rev_string (s acc : string) : string :=
  match s with
  | EmptyString => acc
  | String c rest => rev_string rest (String c acc)
  end.

(** [s.trim()] *)
Definition trim (s : string) : string :=
  rev_string (trimStart (rev_string (trimStart s) EmptyString)) EmptyString.

(** [s.split(sep)] for a one-character separator. *)
Fixpoint split_go (sep : ascii) (s : string) (cur : string) : list string :=
  match s with
  | EmptyString => [rev_string cur EmptyString]
  | String c rest =>
      if Ascii.eqb c sep then rev_string cur EmptyString :: split_go sep rest EmptyString
      else split_go sep rest (String c cur)
  end.

Definition split (s : string) (sep : ascii) : list string := split_go sep s EmptyString.

(** [l.join(sep)] *)
Fixpoint join (l : list string) (sep : string) : string :=
  match l with
  | [] => ""
  | [x] => x
  | x :: rest => x +:+ sep +:+ join rest sep
  end.

(** Truthiness of a string: only the empty string is falsy. *)
Definition truthy (s : string) : bool :=
  match s with EmptyString => false | _ => true end.

(** The property that [indexOf] decides: [search] occurs in [s] at [i]. *)
Definition occurs_at (s search : string) (i : nat) : Prop :=
  exists before after : string,
    s = before +:+ search +:+ after /\ String.length before = i.

Definition contains (s search : string) : Prop :=
  exists i, occurs_at s search i.

End JSString.

(** ** Option bags: [vs/base/common/objects] *)

Module Objects.

(** Plain data as it travels through configuration: the JSON fragment of
    JavaScript values.  Numeric leaves are integers; an object is its list
    of own properties in insertion order. *)
Inductive any : Type :=
| undefined
| null
| boolean (b : bool)
| number (n : Z)
| str (s : string)
| array (items : list any)
| object (properties : list (string * any)).

Definition isObject (v : any) : bool :=
  match v with object _ => true | _ => false end.

(** JavaScript truthiness, as used by [x || y]. *)
Definition truthy (v : any) : bool :=
  match v with
  | undefined | null => false
  | boolean b => b
  | number n => negb (n =? 0)
  | str s => JSString.truthy s
  | array _ | object _ => true
  end.

(** [a || b] *)
Definition or_else (a b : any) : any := if truthy a then a else b.

(** [obj[key]] on a property list. *)
Fixpoint get (key : string) (props : list (string * any)) : option any :=
  match props with
  | [] => None
  | (k, v) :: rest => if String.eqb k key then Some v else get key rest
  end.

(** [obj[key] = value] for a key that [obj] already has: the property keeps
    its place. *)
Fixpoint set (key : string) (value : any) (props : list (string * any))
  : list (string * any) :=
  match props with
  | [] => []
  | (k, v) :: rest =>
      if String.eqb k key then (k, value) :: rest else (k, v) :: set key value rest
  end.

Definition keys (props : list (string * any)) : list string := map fst props.

(** Modelled from the spec: [Objects.clone] (vs/base/common/objects is not
    under src/); a deep copy of an option bag. *)
Fixpoint clone (obj : any) : any :=
  match obj with
  | array items => array (map clone items)
  | object props =>
      object ((fix clone_props (ps : list (string * any)) : list (string * any) :=
                 match ps with
                 | [] => []
                 | (k, v) :: rest => (k, clone v) :: clone_props rest
                 end) props)
  | _ => obj
  end.

(** One iteration of the [Object.keys(source).forEach] loop of [mixin];
    [into dv] is the recursive merge of [value] into an existing object
    property [dv]. *)
Definition mixin_step (into : any -> any) (destination : list (string * any))
  (key : string) (value : any) : list (string * any) :=
  match get key destination with
  | Some dv =>
      if isObject dv && isObject value
      then set key (into dv) destination
      else set key value destination
  | None => destination ++ [(key, value)]
  end.

(** Modelled from the spec: [Objects.mixin(destination, source)]
    (vs/base/common/objects is not under src/); merges the properties of
    [source] over those of [destination], descending into properties that are
    objects on both sides. *)
Fixpoint mixin (destination source : any) {struct source} : any :=
  match destination with
  | object dprops =>
      match source with
      | object sprops =>
          object ((fix each (ps : list (string * any)) (acc : list (string * any))
                     : list (string * any) :=
                     match ps with
                     | [] => acc
                     | (k, v) :: rest =>
                         each rest (mixin_step (fun dv => mixin dv v) acc k v)
                     end) sprops dprops)
      | _ => destination
      end
  | _ => source
  end.

Fixpoint insert_sorted (k : string) (l : list string) : list string :=
  match l with
  | [] => [k]
  | x :: rest => if String.leb k x then k :: l else x :: insert_sorted k rest
  end.

(** [keys.sort()] *)
Definition sort (l : list string) : list string := fold_right insert_sorted [] l.

Definition strings_eqb (a b : list string) : bool :=
  bool_decide (a = b).

(** Modelled from the spec: [Objects.equals(one, other)]
    (vs/base/common/objects is not under src/); deep structural equality:
    leaves by [===], arrays element by element, objects by comparing the
    sorted key lists and then the values key by key.  The per-key
    comparisons form a conjunction, so they are taken here in the order of
    [one]'s own properties. *)
Fixpoint equals (one other : any) {struct one} : bool :=
  match one, other with
  | undefined, undefined => true
  | null, null => true
  | boolean a, boolean b => Bool.eqb a b
  | number a, number b => a =? b
  | str a, str b => String.eqb a b
  | array xs, array ys =>
      (fix all2 (xs ys : list any) : bool :=
         match xs, ys with
         | [], [] => true
         | x :: xs', y :: ys' => equals x y && all2 xs' ys'
         | _, _ => false
         end) xs ys
  | object ps, object qs =>
      strings_eqb (sort (keys ps)) (sort (keys qs))
      && (fix every (l : list (string * any)) : bool :=
            match l with
            | [] => true
            | (k, v) :: rest =>
                match get k qs with
                | Some v' => equals v v'
                | None => false
                end && every rest
            end) ps
  | _, _ => false
  end.





End Objects.

(** ** The mode service: [ModeServiceImpl] *)

Module ModeService.
Import Objects.

(** *** The language registry and the objects the service handles *)

Record CompatModeData : Type := { moduleId : string; ctorName : string }.

(** [LanguageExtensions] (vs/editor/common/modes/languageExtensionPoint) is
    not under src/: the service only queries it, so its answers are taken
    as given. *)
Record LanguageExtensions : Type := {
  extractModeIds : string -> list string;
  getModeIdsFromLanguageName : string -> list string;
  getModeIdsFromFilenameOrFirstLine : string -> option string -> list string;
  getCompatMode : string -> option CompatModeData
}.

(** Modes and promises are objects with identity: they live in stores and
    are named by their index there. *)
Abbreviation ModeRef := nat (only parsing).
Abbreviation PromiseRef := nat (only parsing).

(** A support implementation, or the callback that builds it, named by a
    number. *)
Abbreviation Support := nat (only parsing).

Inductive ModeClass : Type :=
| FrankensteinMode
| CompatMode (data : CompatModeData).

Record IMode : Type := {
  getId : string;
  class : ModeClass;
  has_registerSupport : bool;            (* [mode.registerSupport] is defined *)
  has_configSupport : bool;              (* [mode.configSupport] is defined *)
  supports : list (string * Support);    (* fragments attached so far *)
  configured : list any                  (* arguments of [configSupport.configure] *)
}.

Inductive PromiseState : Type :=
| Pending
| Complete (mode : ModeRef)
| Failed (err : string).

(** A promise made by [new TPromise(...)], with the [then] callbacks of
    [registerModeSupport] that wait for it: (mode id, support, callback). *)
Record PromiseCell : Type := {
  state : PromiseState;
  waiters : list (string * string * Support)
}.

Inductive Request : Type :=
| ByMimetypesOrIds (commaSeparatedMimetypesOrCommaSeparatedIds : string)
| ByLanguageName (languageName : string)
| ByFilenameOrFirstLine (filename : string) (firstLine : option string).

(** The promises the service hands out. *)
Inductive TPromise : Type :=
| TPromise_as (mode : ModeRef)          (* [TPromise.as(mode)] *)
| TPromise_new (p : PromiseRef)         (* a promise of the store *)
| TPromise_onReady (n : nat).           (* [onReady().then(...)], not yet run *)

Inductive IDisposable : Type :=
| EmptyDisposable
| SupportDisposable (mode : ModeRef) (support : string) (impl : Support).

(** The promise of a disposable held by what [registerModeSupport] returns. *)
Inductive Registration : Type :=
| Registered (d : IDisposable)
| Waiting (p : PromiseRef)
| Rejected (err : string)
| NotStarted.

Record World : Type := {
  languageExtensions : LanguageExtensions;
  (* the fields of [ModeServiceImpl] *)
  _activationPromises : gmap string PromiseRef;
  _instantiatedModes : gmap string ModeRef;
  _frankensteinModes : gmap string ModeRef;
  _config : gmap string any;
  (* the stores *)
  modes : list IMode;
  promises : list PromiseCell;
  (* the plugin service and the console *)
  pluginsReady : bool;
  deferred : list Request;
  activationEvents : list string;
  warnings : list string
}.

(** The constructor. *)
Definition new_ModeServiceImpl (registry : LanguageExtensions) (ready : bool) : World :=
  {| languageExtensions := registry;
     _activationPromises := ∅; _instantiatedModes := ∅;
     _frankensteinModes := ∅; _config := ∅;
     modes := []; promises := [];
     pluginsReady := ready; deferred := [];
     activationEvents := []; warnings := [] |}.

Definition with_activationPromises (f : gmap string PromiseRef -> gmap string PromiseRef)
  (w : World) : World :=
  {| languageExtensions := languageExtensions w;
     _activationPromises := f (_activationPromises w);
     _instantiatedModes := _instantiatedModes w;
     _frankensteinModes := _frankensteinModes w; _config := _config w;
     modes := modes w; promises := promises w;
     pluginsReady := pluginsReady w; deferred := deferred w;
     activationEvents := activationEvents w; warnings := warnings w |}.

Definition with_instantiatedModes (f : gmap string ModeRef -> gmap string ModeRef)
  (w : World) : World :=
  {| languageExtensions := languageExtensions w;
     _activationPromises := _activationPromises w;
     _instantiatedModes := f (_instantiatedModes w);
     _frankensteinModes := _frankensteinModes w; _config := _config w;
     modes := modes w; promises := promises w;
     pluginsReady := pluginsReady w; deferred := deferred w;
     activationEvents := activationEvents w; warnings := warnings w |}.

Definition with_frankensteinModes (f : gmap string ModeRef -> gmap string ModeRef)
  (w : World) : World :=
  {| languageExtensions := languageExtensions w;
     _activationPromises := _activationPromises w;
     _instantiatedModes := _instantiatedModes w;
     _frankensteinModes := f (_frankensteinModes w); _config := _config w;
     modes := modes w; promises := promises w;
     pluginsReady := pluginsReady w; deferred := deferred w;
     activationEvents := activationEvents w; warnings := warnings w |}.

Definition with_config (f : gmap string any -> gmap string any) (w : World) : World :=
  {| languageExtensions := languageExtensions w;
     _activationPromises := _activationPromises w;
     _instantiatedModes := _instantiatedModes w;
     _frankensteinModes := _frankensteinModes w; _config := f (_config w);
     modes := modes w; promises := promises w;
     pluginsReady := pluginsReady w; deferred := deferred w;
     activationEvents := activationEvents w; warnings := warnings w |}.

Definition with_modes (f : list IMode -> list IMode) (w : World) : World :=
  {| languageExtensions := languageExtensions w;
     _activationPromises := _activationPromises w;
     _instantiatedModes := _instantiatedModes w;
     _frankensteinModes := _frankensteinModes w; _config := _config w;
     modes := f (modes w); promises := promises w;
     pluginsReady := pluginsReady w; deferred := deferred w;
     activationEvents := activationEvents w; warnings := warnings w |}.

Definition with_promises (f : list PromiseCell -> list PromiseCell) (w : World) : World :=
  {| languageExtensions := languageExtensions w;
     _activationPromises := _activationPromises w;
     _instantiatedModes := _instantiatedModes w;
     _frankensteinModes := _frankensteinModes w; _config := _config w;
     modes := modes w; promises := f (promises w);
     pluginsReady := pluginsReady w; deferred := deferred w;
     activationEvents := activationEvents w; warnings := warnings w |}.

Definition with_plugins (ready : bool) (queue : list Request) (w : World) : World :=
  {| languageExtensions := languageExtensions w;
     _activationPromises := _activationPromises w;
     _instantiatedModes := _instantiatedModes w;
     _frankensteinModes := _frankensteinModes w; _config := _config w;
     modes := modes w; promises := promises w;
     pluginsReady := ready; deferred := queue;
     activationEvents := activationEvents w; warnings := warnings w |}.

Definition with_activationEvents (f : list string -> list string) (w : World) : World :=
  {| languageExtensions := languageExtensions w;
     _activationPromises := _activationPromises w;
     _instantiatedModes := _instantiatedModes w;
     _frankensteinModes := _frankensteinModes w; _config := _config w;
     modes := modes w; promises := promises w;
     pluginsReady := pluginsReady w; deferred := deferred w;
     activationEvents := f (activationEvents w); warnings := warnings w |}.

Definition with_warnings (f : list string -> list string) (w : World) : World :=
  {| languageExtensions := languageExtensions w;
     _activationPromises := _activationPromises w;
     _instantiatedModes := _instantiatedModes w;
     _frankensteinModes := _frankensteinModes w; _config := _config w;
     modes := modes w; promises := promises w;
     pluginsReady := pluginsReady w; deferred := deferred w;
     activationEvents := activationEvents w; warnings := f (warnings w) |}.

(** *** Operations on mode objects *)

Definition attach (support : string) (impl : Support) (m : IMode) : IMode :=
  {| getId := getId m; class := class m;
     has_registerSupport := has_registerSupport m;
     has_configSupport := has_configSupport m;
     supports := supports m ++ [(support, impl)];
     configured := configured m |}.

Definition record_configure (options : any) (m : IMode) : IMode :=
  {| getId := getId m; class := class m;
     has_registerSupport := has_registerSupport m;
     has_configSupport := has_configSupport m;
     supports := supports m;
     configured := configured m ++ [options] |}.

(** Modelled from the spec: [FrankensteinMode] (vs/editor/common/modes/abstractMode
    is not under src/), a mode assembled incrementally from independently
    registered support fragments: it starts with no fragment and offers
    [registerSupport]. *)
Definition new_FrankensteinMode (modeId : string) : IMode :=
  {| getId := modeId; class := FrankensteinMode;
     has_registerSupport := true; has_configSupport := false;
     supports := []; configured := [] |}.

(** Modelled from the spec: [mode.registerSupport(support, callback)]
    (abstractMode is not under src/): the fragment built by [callback] is
    attached to the mode under the name [support]; the disposable returned
    stands for that one fragment. *)
Definition registerSupport (mode : ModeRef) (support : string) (callback : Support)
  (w : World) : World * IDisposable :=
  (with_modes (alter (attach support callback) mode) w,
   SupportDisposable mode support callback).

(** [mode.configSupport.configure(options)] *)
Definition configure (mode : ModeRef) (options : any) (w : World) : World :=
  with_modes (alter (record_configure options) mode) w.

(** *** [ModeServiceImpl] *)

(** [this._config[modeId] || {}] *)
Definition getConfigurationForMode (modeId : string) (w : World) : any :=
  match _config w !! modeId with
  | Some options => or_else options (object [])
  | None => object []
  end.

Definition getModeId (commaSeparatedMimetypesOrCommaSeparatedIds : string) (w : World)
  : option string :=
  head (extractModeIds (languageExtensions w) commaSeparatedMimetypesOrCommaSeparatedIds).

Definition getModeIdByLanguageName (languageName : string) (w : World) : option string :=
  head (getModeIdsFromLanguageName (languageExtensions w) languageName).

Definition getModeIdByFilenameOrFirstLine (filename : string) (firstLine : option string)
  (w : World) : option string :=
  head (getModeIdsFromFilenameOrFirstLine (languageExtensions w) filename firstLine).

(** [modeId || 'plaintext'] *)
Definition orPlaintext (modeId : option string) : string :=
  match modeId with
  | Some id => if JSString.truthy id then id else "plaintext"
  | None => "plaintext"
  end.

Definition _createModeDescriptor (modeId : string) : string := modeId.

Definition _getOrCreateFrankensteinMode (modeId : string) (w : World) : World * ModeRef :=
  match _frankensteinModes w !! modeId with
  | Some mode => (w, mode)
  | None =>
      let mode := length (modes w) in
      let w := with_modes (fun ms => ms ++ [new_FrankensteinMode (_createModeDescriptor modeId)]) w in
      (with_frankensteinModes <[modeId := mode]> w, mode)
  end.

(** [_createMode] answers with a promise: for a mode without compat data it
    is [TPromise.as(frankensteinMode)] ([Some mode] here), for a compat mode
    it is the chain that waits for the plugin host ([None] here; it is
    resumed by [compatModeCreated] or [compatModeFailed] below). *)
Definition _createMode (modeId : string) (w : World) : World * option ModeRef :=
  let activationEvent := "onLanguage:" +:+ modeId in
  match getCompatMode (languageExtensions w) modeId with
  | Some compatModeData =>
      (with_activationEvents (fun l => l ++ [activationEvent]) w, None)
  | None =>
      let '(w, frankensteinMode) := _getOrCreateFrankensteinMode modeId w in
      (with_activationEvents (fun l => l ++ [activationEvent]) w, Some frankensteinMode)
  end.

(** The [then] callback of [registerModeSupport]. *)
Definition registerModeSupport_then (modeId support : string) (callback : Support)
  (mode : ModeRef) (w : World) : World * IDisposable :=
  match modes w !! mode with
  | Some m =>
      if has_registerSupport m then registerSupport mode support callback w
      else (with_warnings (fun l => l ++ ["Cannot register support " +:+ support
                                           +:+ " on mode " +:+ modeId
                                           +:+ " because it is not a Frankenstein mode"]) w,
            EmptyDisposable)
  | None => (w, EmptyDisposable)
  end.

(** Completing a promise of the store runs the callbacks that wait for it. *)
Definition complete (p : PromiseRef) (mode : ModeRef) (w : World) : World :=
  match promises w !! p with
  | Some cell =>
      let w := with_promises <[p := {| state := Complete mode; waiters := [] |}]> w in
      fold_left (fun w '(modeId, support, callback) =>
                   fst (registerModeSupport_then modeId support callback mode w))
                (waiters cell) w
  | None => w
  end.

Definition fail (p : PromiseRef) (err : string) (w : World) : World :=
  with_promises (alter (fun _ => {| state := Failed err; waiters := [] |}) p) w.

(** The first [then] callback of [_getOrCreateMode]. *)
Definition _getOrCreateMode_then (modeId : string) (mode : ModeRef) (w : World) : World :=
  let w := with_instantiatedModes <[modeId := mode]> w in
  with_activationPromises (delete modeId) w.

Definition _getOrCreateMode (modeId : string) (w : World) : World * TPromise :=
  match _instantiatedModes w !! modeId with
  | Some mode => (w, TPromise_as mode)
  | None =>
      match _activationPromises w !! modeId with
      | Some p => (w, TPromise_new p)
      | None =>
          let promise := length (promises w) in
          let w := with_promises (fun ps => ps ++ [{| state := Pending; waiters := [] |}]) w in
          let w := with_activationPromises <[modeId := promise]> w in
          let '(w, created) := _createMode modeId w in
          match created with
          | Some mode =>
              let w := _getOrCreateMode_then modeId mode w in
              (complete promise mode w, TPromise_new promise)
          | None => (w, TPromise_new promise)
          end
      end
  end.

(** The plugin host answers a pending compat-mode creation:
    [createInstance] has produced [compatMode], the second callback of
    [_createMode] configures it, and [_getOrCreateMode] records it. *)
Definition compatModeCreated (modeId : string) (withRegisterSupport withConfigSupport : bool)
  (w : World) : World :=
  match _activationPromises w !! modeId, getCompatMode (languageExtensions w) modeId with
  | Some p, Some compatModeData =>
      match state <$> promises w !! p with
      | Some Pending =>
          let compatMode := length (modes w) in
          let w := with_modes (fun ms => ms ++ [{| getId := _createModeDescriptor modeId;
                                                   class := CompatMode compatModeData;
                                                   has_registerSupport := withRegisterSupport;
                                                   has_configSupport := withConfigSupport;
                                                   supports := []; configured := [] |}]) w in
          let w := if withConfigSupport
                   then configure compatMode (getConfigurationForMode modeId w) w
                   else w in
          let w := _getOrCreateMode_then modeId compatMode w in
          complete p compatMode w
      | _ => w
      end
  | _, _ => w
  end.

(** The plugin host fails a pending compat-mode creation. *)
Definition compatModeFailed (modeId : string) (err : string) (w : World) : World :=
  match _activationPromises w !! modeId with
  | Some p =>
      match state <$> promises w !! p with
      | Some Pending => fail p err w
      | _ => w
      end
  | None => w
  end.

(** [this._pluginService.onReady().then(body)]: [body] runs at once when
    the plugin service is ready and is queued otherwise. *)
Definition onReady_then (request : Request) (body : World -> World * TPromise)
  (w : World) : World * TPromise :=
  if pluginsReady w then body w
  else (with_plugins false (deferred w ++ [request]) w,
        TPromise_onReady (length (deferred w))).

Definition getOrCreateMode (commaSeparatedMimetypesOrCommaSeparatedIds : string)
  (w : World) : World * TPromise :=
  onReady_then (ByMimetypesOrIds commaSeparatedMimetypesOrCommaSeparatedIds)
    (fun w =>
       let modeId := getModeId commaSeparatedMimetypesOrCommaSeparatedIds w in
       _getOrCreateMode (orPlaintext modeId) w) w.

Definition getOrCreateModeByLanguageName (languageName : string) (w : World)
  : World * TPromise :=
  onReady_then (ByLanguageName languageName)
    (fun w =>
       let modeId := getModeIdByLanguageName languageName w in
       _getOrCreateMode (orPlaintext modeId) w) w.

Definition getOrCreateModeByFilenameOrFirstLine (filename : string)
  (firstLine : option string) (w : World) : World * TPromise :=
  onReady_then (ByFilenameOrFirstLine filename firstLine)
    (fun w =>
       let modeId := getModeIdByFilenameOrFirstLine filename firstLine w in
       _getOrCreateMode (orPlaintext modeId) w) w.

(** The value a promise holds right now, if it is complete. *)
Definition value_now (promise : TPromise) (w : World) : option ModeRef :=
  match promise with
  | TPromise_as mode => Some mode
  | TPromise_new p =>
      match state <$> promises w !! p with
      | Some (Complete mode) => Some mode
      | _ => None
      end
  | TPromise_onReady _ => None
  end.

(** The loop of [getMode]: the first instantiated mode among [modeIds], or
    else whether ['plaintext'] was among them. *)
Fixpoint getMode_loop (modeIds : list string) (instantiated : gmap string ModeRef)
  (isPlainText : bool) : ModeRef + bool :=
  match modeIds with
  | [] => inr isPlainText
  | modeId :: rest =>
      match instantiated !! modeId with
      | Some mode => inl mode
      | None => getMode_loop rest instantiated
                  (isPlainText || bool_decide (modeId = "plaintext"))
      end
  end.

Definition getMode (commaSeparatedMimetypesOrCommaSeparatedIds : string) (w : World)
  : World * option ModeRef :=
  let modeIds := extractModeIds (languageExtensions w)
                   commaSeparatedMimetypesOrCommaSeparatedIds in
  match getMode_loop modeIds (_instantiatedModes w) false with
  | inl mode => (w, Some mode)
  | inr true =>
      let '(w, promise) := getOrCreateMode commaSeparatedMimetypesOrCommaSeparatedIds w in
      (w, value_now promise w)
  | inr false => (w, None)
  end.

Definition configureModeById (modeId : string) (options : any) (w : World) : World :=
  let previousOptions := match _config w !! modeId with
                         | Some o => or_else o (object [])
                         | None => object []
                         end in
  let newOptions := mixin (clone previousOptions) options in
  if equals previousOptions newOptions then w
  else
    let w := with_config <[modeId := newOptions]> w in
    let '(w, mode) := getMode modeId w in
    match mode with
    | Some m =>
        match modes w !! m with
        | Some o => if has_configSupport o
                    then configure m (getConfigurationForMode modeId w) w
                    else w
        | None => w
        end
    | None => w
    end.

Definition configureMode (mimetype : string) (options : any) (w : World) : World :=
  match getModeId mimetype w with
  | Some modeId => if JSString.truthy modeId then configureModeById modeId options w else w
  | None => w
  end.

Definition registerModeSupport (modeId support : string) (callback : Support)
  (w : World) : World * Registration :=
  let '(w, promise) := _getOrCreateMode modeId w in
  match promise with
  | TPromise_as mode =>
      let '(w, d) := registerModeSupport_then modeId support callback mode w in
      (w, Registered d)
  | TPromise_new p =>
      match promises w !! p with
      | Some {| state := Complete mode |} =>
          let '(w, d) := registerModeSupport_then modeId support callback mode w in
          (w, Registered d)
      | Some {| state := Pending; waiters := ws |} =>
          (with_promises <[p := {| state := Pending;
                                    waiters := ws ++ [(modeId, support, callback)] |}]> w,
           Waiting p)
      | Some {| state := Failed err |} => (w, Rejected err)
      | None => (w, NotStarted)
      end
  | TPromise_onReady _ => (w, NotStarted)
  end.

Definition registerCodeLensSupport (modeId : string) (support : Support) :=
  registerModeSupport modeId "codeLensSupport" support.
Definition registerRichEditSupport (modeId : string) (support : Support) :=
  registerModeSupport modeId "richEditSupport" support.
Definition registerDeclarativeDeclarationSupport (modeId : string) (contribution : Support) :=
  registerModeSupport modeId "declarationSupport" contribution.
Definition registerExtraInfoSupport (modeId : string) (support : Support) :=
  registerModeSupport modeId "extraInfoSupport" support.
Definition registerFormattingSupport (modeId : string) (support : Support) :=
  registerModeSupport modeId "formattingSupport" support.
Definition registerInplaceReplaceSupport (modeId : string) (support : Support) :=
  registerModeSupport modeId "inplaceReplaceSupport" support.
Definition registerOccurrencesSupport (modeId : string) (support : Support) :=
  registerModeSupport modeId "occurrencesSupport" support.
Definition registerOutlineSupport (modeId : string) (support : Support) :=
  registerModeSupport modeId "outlineSupport" support.
Definition registerDeclarativeParameterHintsSupport (modeId : string) (support : Support) :=
  registerModeSupport modeId "parameterHintsSupport" support.
Definition registerQuickFixSupport (modeId : string) (support : Support) :=
  registerModeSupport modeId "quickFixSupport" support.
Definition registerDeclarativeReferenceSupport (modeId : string) (contribution : Support) :=
  registerModeSupport modeId "referenceSupport" contribution.
Definition registerRenameSupport (modeId : string) (support : Support) :=
  registerModeSupport modeId "renameSupport" support.
Definition registerDeclarativeSuggestSupport (modeId : string) (declaration : Support) :=
  registerModeSupport modeId "suggestSupport" declaration.
Definition registerTokenizationSupport (modeId : string) (callback : Support) :=
  registerModeSupport modeId "tokenizationSupport" callback.

(** *** Histories of the service *)

(** What can happen to a service: calls of its methods by clients, and
    answers of the plugin host. *)
Inductive Call : Type :=
| call_getOrCreateMode (s : string)
| call_getOrCreateModeByLanguageName (languageName : string)
| call_getOrCreateModeByFilenameOrFirstLine (filename : string) (firstLine : option string)
| call_getMode (s : string)
| call_configureModeById (modeId : string) (options : any)
| call_configureMode (mimetype : string) (options : any)
| call_registerModeSupport (modeId support : string) (callback : Support)
| plugins_ready
| compat_mode_created (modeId : string) (withRegisterSupport withConfigSupport : bool)
| compat_mode_failed (modeId : string) (err : string).

Definition run_request (request : Request) (w : World) : World :=
  match request with
  | ByMimetypesOrIds s => fst (getOrCreateMode s w)
  | ByLanguageName n => fst (getOrCreateModeByLanguageName n w)
  | ByFilenameOrFirstLine f l => fst (getOrCreateModeByFilenameOrFirstLine f l w)
  end.

(** [onReady] completes: the queued continuations run in order. *)
Definition pluginsBecomeReady (w : World) : World :=
  if pluginsReady w then w
  else fold_left (fun w request => run_request request w) (deferred w)
         (with_plugins true [] w).

Definition exec (c : Call) (w : World) : World :=
  match c with
  | call_getOrCreateMode s => fst (getOrCreateMode s w)
  | call_getOrCreateModeByLanguageName n => fst (getOrCreateModeByLanguageName n w)
  | call_getOrCreateModeByFilenameOrFirstLine f l =>
      fst (getOrCreateModeByFilenameOrFirstLine f l w)
  | call_getMode s => fst (getMode s w)
  | call_configureModeById modeId options => configureModeById modeId options w
  | call_configureMode mimetype options => configureMode mimetype options w
  | call_registerModeSupport modeId support callback =>
      fst (registerModeSupport modeId support callback w)
  | plugins_ready => pluginsBecomeReady w
  | compat_mode_created modeId r c => compatModeCreated modeId r c w
  | compat_mode_failed modeId err => compatModeFailed modeId err w
  end.

Definition run (history : list Call) (w : World) : World :=
  fold_left (fun w c => exec c w) history w.

(** The worlds a service can be in. *)
Definition reachable (w : World) : Prop :=
  exists registry ready history, w = run history (new_ModeServiceImpl registry ready).


Definition getOrCreate (request : Request) (w : World) : World * TPromise :=
  match request with
  | ByMimetypesOrIds s => getOrCreateMode s w
  | ByLanguageName n => getOrCreateModeByLanguageName n w
  | ByFilenameOrFirstLine f l => getOrCreateModeByFilenameOrFirstLine f l w
  end.


(** A mode id is served when its mode is instantiated or its creation is
    registered with the plugin host. *)
Definition served (modeId : string) (w : World) : Prop :=
  (exists mode, _instantiatedModes w !! modeId = Some mode)
  \/ (exists p, _activationPromises w !! modeId = Some p).

(** The mode a request asks for. *)
Definition target (request : Request) (w : World) : string :=
  orPlaintext match request with
              | ByMimetypesOrIds s => getModeId s w
              | ByLanguageName n => getModeIdByLanguageName n w
              | ByFilenameOrFirstLine f l => getModeIdByFilenameOrFirstLine f l w
              end.

(** The mode ids a step asks for, directly or through [getMode], or whose
    pending creation it completes. *)
Definition concerns (c : Call) (w : World) (modeId : string) : Prop :=
  match c with
  | call_getOrCreateMode s | call_getMode s => target (ByMimetypesOrIds s) w = modeId
  | call_getOrCreateModeByLanguageName n => target (ByLanguageName n) w = modeId
  | call_getOrCreateModeByFilenameOrFirstLine f l =>
      target (ByFilenameOrFirstLine f l) w = modeId
  | call_configureModeById id _ => target (ByMimetypesOrIds id) w = modeId
  | call_configureMode mimetype _ =>
      exists id, getModeId mimetype w = Some id /\ target (ByMimetypesOrIds id) w = modeId
  | call_registerModeSupport id _ _ => id = modeId
  | plugins_ready => exists request, request ∈ deferred w /\ target request w = modeId
  | compat_mode_created id _ _ => id = modeId
  | compat_mode_failed _ _ => False
  end.

(** The part of a mode object that never changes. *)
Definition static (m : IMode) : string * ModeClass * bool * bool :=
  (getId m, class m, has_registerSupport m, has_configSupport m).

Definition settled (w : World) (p : PromiseRef) : option ModeRef :=
  match state <$> promises w !! p with
  | Some (Complete mode) => Some mode
  | _ => None
  end.

(** The invariant of the service: the store of modes and the map of
    instantiated modes are inverse to each other, a Frankenstein mode is the
    instantiated mode of its id, and an activation promise is registered
    only for a compat mode that is not instantiated, under one id. *)
Record Inv (w : World) : Prop := {
  inv_modes_inst : forall i m,
    modes w !! i = Some m -> _instantiatedModes w !! getId m = Some i;
  inv_inst_modes : forall id i,
    _instantiatedModes w !! id = Some i ->
    exists m, modes w !! i = Some m /\ getId m = id;
  inv_frank_inst : forall id i,
    _frankensteinModes w !! id = Some i -> _instantiatedModes w !! id = Some i;
  inv_frank_obj : forall id i,
    _frankensteinModes w !! id = Some i ->
    exists m, modes w !! i = Some m /\ class m = FrankensteinMode
              /\ has_registerSupport m = true;
  inv_inst_frank : forall id i,
    getCompatMode (languageExtensions w) id = None ->
    _instantiatedModes w !! id = Some i -> _frankensteinModes w !! id = Some i;
  inv_act_inst : forall id p,
    _activationPromises w !! id = Some p -> _instantiatedModes w !! id = None;
  inv_act_compat : forall id p,
    _activationPromises w !! id = Some p ->
    getCompatMode (languageExtensions w) id <> None;
  inv_act_cell : forall id p,
    _activationPromises w !! id = Some p ->
    exists cell, promises w !! p = Some cell /\ forall mode, state cell <> Complete mode;
  inv_act_inj : forall id id' p,
    _activationPromises w !! id = Some p -> _activationPromises w !! id' = Some p ->
    id = id';
  inv_ready : pluginsReady w = true -> deferred w = []
}.

(** How a later world relates to an earlier one. *)
Record extends (w w' : World) : Prop := {
  ext_registry : languageExtensions w' = languageExtensions w;
  ext_inst : forall id i,
    _instantiatedModes w !! id = Some i -> _instantiatedModes w' !! id = Some i;
  ext_frank : forall id i,
    _frankensteinModes w !! id = Some i -> _frankensteinModes w' !! id = Some i;
  ext_act : forall id p,
    _activationPromises w !! id = Some p ->
    _activationPromises w' !! id = Some p
    \/ exists mode, settled w' p = Some mode /\ _instantiatedModes w' !! id = Some mode;
  ext_settled : forall p mode, settled w p = Some mode -> settled w' p = Some mode;
  ext_modes : forall i m,
    modes w !! i = Some m -> exists m', modes w' !! i = Some m' /\ static m' = static m;
  ext_new : forall i m',
    modes w' !! i = Some m' -> (length (modes w) <= i)%nat ->
    _instantiatedModes w !! getId m' = None
}.

(** The modes created between [w] and [w'] all have an id in [ids]. *)
Definition created_only (ids : string -> Prop) (w w' : World) : Prop :=
  forall i m', modes w' !! i = Some m' -> (length (modes w) <= i)%nat -> ids (getId m').

(** The part of a world that the invariant reads: everything except the
    configuration, the logs and the fragments attached to modes. *)
Definition core (w : World) :=
  (languageExtensions w, _activationPromises w, _instantiatedModes w,
   _frankensteinModes w, promises w, pluginsReady w, deferred w,
   map static (modes w)).

(** *** A small service, for concrete runs *)

Definition example_registry : LanguageExtensions :=
  {| extractModeIds := fun s => List.filter JSString.truthy (JSString.split s ","%char);
     getModeIdsFromLanguageName := fun name => [name];
     getModeIdsFromFilenameOrFirstLine := fun _ _ => [];
     getCompatMode := fun id =>
       if bool_decide (id = "html")
       then Some {| moduleId := "vs/languages/html/common/html"; ctorName := "HTMLMode" |}
       else None |}.

Definition example_history : list Call :=
  [ call_registerModeSupport "ini" "tokenizationSupport" 7%nat;
    call_getOrCreateMode "html,plaintext";
    call_getMode "ini";
    call_configureModeById "ini" (object [("tabSize", number 4)]) ].

Definition example_world : World :=
  run example_history (new_ModeServiceImpl example_registry true).

End ModeService.

(** ** The debug hover: [DebugHoverWidget] *)

Module DebugHover.

Record Position : Type := { lineNumber : Z; column : Z }.

Record Range : Type := {
  startLineNumber : Z; startColumn : Z; endLineNumber : Z; endColumn : Z
}.

(** [range.getStartPosition()] *)
Definition getStartPosition (range : Range) : Position :=
  {| lineNumber := startLineNumber range; column := startColumn range |}.

(** A decoration handed to [deltaDecorations]: a range and
    [options.className]. *)
Record Decoration : Type := { range : Range; className : string }.

Record Expression : Type := { name : string; available : bool; reference : Z }.

(** A stack frame, by [source.uri.toString()]. *)
Record StackFrame : Type := { source_uri : string }.

(** The editor model, by [getAssociatedResource().toString()] and its lines
    (line numbers start at 1). *)
Record Model : Type := { associatedResource : string; lineContents : list string }.

(** Modelled from the spec: [model.getLineContent(lineNumber)] (the editor
    model is not under src/), for the line numbers the editor hands out; the
    empty string stands for a line that does not exist. *)
Definition getLineContent (model : Model) (lineNumber : Z) : string :=
  if lineNumber <=? 0 then ""
  else default "" (lineContents model !! Z.to_nat (lineNumber - 1)).

Inductive ContentWidgetPositionPreference : Type := EXACT | ABOVE | BELOW.

Record IContentWidgetPosition : Type := {
  position : option Position;
  preference : list ContentWidgetPositionPreference
}.

(** The widget's fields, the part of the editor and of the debug service it
    talks to, and the tree it owns. *)
Record World : Type := {
  (* DebugHoverWidget *)
  isVisible : bool;
  showAtPosition : option Position;
  highlightDecorations : list nat;
  treeContainer_hidden : bool;
  treeContainer_height : Z;
  valueContainer_hidden : bool;
  valueContainer_rendered : option Expression;
  (* the tree *)
  tree_input : option Expression;
  tree_layouts : nat;
  (* the editor *)
  model : Model;
  decorations : gmap nat Decoration;
  nextDecorationId : nat;
  layoutContentWidget_calls : nat;
  (* the debug service *)
  focusedStackFrame : option StackFrame
}.

(** The constructor, in an editor showing [m]. *)
Definition new_DebugHoverWidget (m : Model) (frame : option StackFrame) : World :=
  {| isVisible := false; showAtPosition := None; highlightDecorations := [];
     treeContainer_hidden := false; treeContainer_height := 0;
     valueContainer_hidden := false; valueContainer_rendered := None;
     tree_input := None; tree_layouts := 0;
     model := m; decorations := ∅; nextDecorationId := 0;
     layoutContentWidget_calls := 0;
     focusedStackFrame := frame |}.

Definition MAX_ELEMENTS_SHOWN : Z := 18.

(** Modelled from the spec: [editor.deltaDecorations(oldDecorations,
    newDecorations)] (the editor is not under src/): the decorations named
    by [oldDecorations] are removed, the new ones are added under fresh
    ids, and these ids are returned. *)
Fixpoint add_decorations (newDecorations : list Decoration) (next : nat)
  (ds : gmap nat Decoration) : gmap nat Decoration * list nat * nat :=
  match newDecorations with
  | [] => (ds, [], next)
  | d :: rest =>
      let '(ds', ids, next') := add_decorations rest (S next) (<[next := d]> ds) in
      (ds', next :: ids, next')
  end.

Definition remove_decorations (oldDecorations : list nat) (ds : gmap nat Decoration)
  : gmap nat Decoration :=
  fold_left (fun ds id => delete id ds) oldDecorations ds.

Definition deltaDecorations (oldDecorations : list nat) (newDecorations : list Decoration)
  (w : World) : World * list nat :=
  let '(ds, ids, next) :=
    add_decorations newDecorations (nextDecorationId w)
      (remove_decorations oldDecorations (decorations w)) in
  ({| isVisible := isVisible w; showAtPosition := showAtPosition w;
      highlightDecorations := highlightDecorations w;
      treeContainer_hidden := treeContainer_hidden w;
      treeContainer_height := treeContainer_height w;
      valueContainer_hidden := valueContainer_hidden w;
      valueContainer_rendered := valueContainer_rendered w;
      tree_input := tree_input w; tree_layouts := tree_layouts w;
      model := model w; decorations := ds; nextDecorationId := next;
      layoutContentWidget_calls := layoutContentWidget_calls w;
      focusedStackFrame := focusedStackFrame w |}, ids).

(** [editor.layoutContentWidget(this)] *)
Definition layoutContentWidget (w : World) : World :=
  {| isVisible := isVisible w; showAtPosition := showAtPosition w;
     highlightDecorations := highlightDecorations w;
     treeContainer_hidden := treeContainer_hidden w;
     treeContainer_height := treeContainer_height w;
     valueContainer_hidden := valueContainer_hidden w;
     valueContainer_rendered := valueContainer_rendered w;
     tree_input := tree_input w; tree_layouts := tree_layouts w;
     model := model w; decorations := decorations w;
     nextDecorationId := nextDecorationId w;
     layoutContentWidget_calls := S (layoutContentWidget_calls w);
     focusedStackFrame := focusedStackFrame w |}.

(** Assignments to the widget's own fields. *)
Definition set_shown (visible : bool) (pos : option Position) (w : World) : World :=
  {| isVisible := visible; showAtPosition := pos;
     highlightDecorations := highlightDecorations w;
     treeContainer_hidden := treeContainer_hidden w;
     treeContainer_height := treeContainer_height w;
     valueContainer_hidden := valueContainer_hidden w;
     valueContainer_rendered := valueContainer_rendered w;
     tree_input := tree_input w; tree_layouts := tree_layouts w;
     model := model w; decorations := decorations w;
     nextDecorationId := nextDecorationId w;
     layoutContentWidget_calls := layoutContentWidget_calls w;
     focusedStackFrame := focusedStackFrame w |}.

Definition set_highlightDecorations (ids : list nat) (w : World) : World :=
  {| isVisible := isVisible w; showAtPosition := showAtPosition w;
     highlightDecorations := ids;
     treeContainer_hidden := treeContainer_hidden w;
     treeContainer_height := treeContainer_height w;
     valueContainer_hidden := valueContainer_hidden w;
     valueContainer_rendered := valueContainer_rendered w;
     tree_input := tree_input w; tree_layouts := tree_layouts w;
     model := model w; decorations := decorations w;
     nextDecorationId := nextDecorationId w;
     layoutContentWidget_calls := layoutContentWidget_calls w;
     focusedStackFrame := focusedStackFrame w |}.

(** The containers and the tree: which one is hidden, what the value
    container renders, the tree's input, height and layout count. *)
Definition set_containers (treeHidden valueHidden : bool) (rendered : option Expression)
  (input : option Expression) (height : Z) (layouts : nat) (w : World) : World :=
  {| isVisible := isVisible w; showAtPosition := showAtPosition w;
     highlightDecorations := highlightDecorations w;
     treeContainer_hidden := treeHidden;
     treeContainer_height := height;
     valueContainer_hidden := valueHidden;
     valueContainer_rendered := rendered;
     tree_input := input; tree_layouts := layouts;
     model := model w; decorations := decorations w;
     nextDecorationId := nextDecorationId w;
     layoutContentWidget_calls := layoutContentWidget_calls w;
     focusedStackFrame := focusedStackFrame w |}.

(** The debugger focuses another frame, or the editor shows another model. *)
Definition set_environment (m : Model) (frame : option StackFrame) (w : World)
  : World :=
  {| isVisible := isVisible w; showAtPosition := showAtPosition w;
     highlightDecorations := highlightDecorations w;
     treeContainer_hidden := treeContainer_hidden w;
     treeContainer_height := treeContainer_height w;
     valueContainer_hidden := valueContainer_hidden w;
     valueContainer_rendered := valueContainer_rendered w;
     tree_input := tree_input w; tree_layouts := tree_layouts w;
     model := m; decorations := decorations w;
     nextDecorationId := nextDecorationId w;
     layoutContentWidget_calls := layoutContentWidget_calls w;
     focusedStackFrame := frame |}.

(** [doShow]: with [expression.reference > 0] and no [forceValueHover] the
    tree is given the expression as input ([tree.setInput], whose promise
    is resumed by [tree_input_set] below); otherwise the value is rendered
    and the widget laid out at once. *)
Definition doShow (pos : option Position) (expression : Expression)
  (forceValueHover : bool) (w : World) : World :=
  let w := set_shown true pos w in
  if (0 <? reference expression) && negb forceValueHover
  then set_containers false true (valueContainer_rendered w) (Some expression)
         (treeContainer_height w) (tree_layouts w) w
  else layoutContentWidget
         (set_containers true false (Some expression) (tree_input w)
            (treeContainer_height w) (tree_layouts w) w).

(** [layoutTree], given the number of elements the tree navigator visits. *)
Definition layoutTree (visibleElementsCount : Z) (w : World) : World :=
  if visibleElementsCount =? 0
  then match tree_input w with
       | Some input => doShow (showAtPosition w) input true w
       | None => set_shown true (showAtPosition w) w
                 (* [doShow] fails at [expression.reference] on the missing
                    input, after its two assignments *)
       end
  else
    let height := Z.min visibleElementsCount MAX_ELEMENTS_SHOWN * 18 in
    if treeContainer_height w =? height then w
    else set_containers (treeContainer_hidden w) (valueContainer_hidden w)
           (valueContainer_rendered w) (tree_input w) height (S (tree_layouts w)) w.

(** The continuation of [tree.setInput(expression)] in [doShow]. *)
Definition tree_input_set (visibleElementsCount : Z) (w : World) : World :=
  layoutContentWidget (layoutTree visibleElementsCount w).

Definition hide (w : World) : World :=
  if negb (isVisible w) then w
  else
    let w := set_shown false (showAtPosition w) w in
    let '(w, _) := deltaDecorations (highlightDecorations w) [] w in
    let w := set_highlightDecorations [] w in
    layoutContentWidget w.

Definition getPosition (w : World) : option IContentWidgetPosition :=
  if isVisible w
  then Some {| position := showAtPosition w; preference := [ABOVE; BELOW] |}
  else None.

(** The "string magic" of [showAt]: the parents of the hovered variable
    ([a] and [b] for [a.b.foo]), then the variable. *)
Definition namesToFind (lineContent hoveringOver : string) : list string :=
  let names :=
    List.filter JSString.truthy
      (map JSString.trim
         (JSString.split
            (JSString.substring lineContent 0
               (JSString.indexOf lineContent ("." +:+ hoveringOver)))
            "."%char))
    ++ [hoveringOver] in
  match names with
  | first :: rest =>
      JSString.substring_from first (JSString.lastIndexOf first " " + 1) :: rest
  | [] => []
  end.

(** What [showAt] leaves pending when it goes on: the call of
    [getExpression] and what its callback has captured. *)
Record PendingHover : Type := {
  pos : Position;
  lineContent : string;
  hoveringOver : string;
  names : list string
}.

(** [showAt], up to the call of [getExpression]: [None] when it returns at
    the guard. *)
Definition showAt (range : Range) (hoveringOver : string) (w : World)
  : World * option PendingHover :=
  let pos := getStartPosition range in
  let model := model w in
  let focusedStackFrame := focusedStackFrame w in
  if negb (JSString.truthy hoveringOver)
     || match focusedStackFrame with
        | None => true
        | Some frame => negb (String.eqb (source_uri frame) (associatedResource model))
        end
  then (w, None)
  else
    let lineContent := getLineContent model (lineNumber pos) in
    (w, Some {| pos := pos; lineContent := lineContent; hoveringOver := hoveringOver;
                names := namesToFind lineContent hoveringOver |}).

(** The decoration [showAt] asks for. *)
Definition hoverHighlight (h : PendingHover) : Decoration :=
  {| range := {| startLineNumber := lineNumber (pos h);
                 endLineNumber := lineNumber (pos h);
                 startColumn := JSString.indexOf (lineContent h) (hoveringOver h) + 1;
                 endColumn := JSString.indexOf (lineContent h) (hoveringOver h) + 1
                              + Z.of_nat (String.length (hoveringOver h)) |};
     className := "hoverHighlight" |}.

(** The callback of [getExpression(namesToFind).done(...)]: [expression] is
    what the debug session resolved, [None] for a missing one. *)
Definition showAt_done (h : PendingHover) (expression : option Expression) (w : World)
  : World :=
  match expression with
  | Some e =>
      if negb (available e) then hide w
      else
        let '(w, ids) := deltaDecorations (highlightDecorations w) [hoverHighlight h] w in
        let w := set_highlightDecorations ids w in
        doShow (Some (pos h)) e false w
  | None => hide w
  end.

(** *** Histories of the widget *)

Inductive Event : Type :=
| call_showAt (range : Range) (hoveringOver : string)
| expression_resolved (h : PendingHover) (expression : option Expression)
| call_hide
| tree_setInput_done (visibleElementsCount : Z)
| tree_item_expanded_or_collapsed (visibleElementsCount : Z)
| environment_changed (m : Model) (frame : option StackFrame).

Definition exec (e : Event) (w : World) : World :=
  match e with
  | call_showAt range hoveringOver => (showAt range hoveringOver w).1
  | expression_resolved h expression => showAt_done h expression w
  | call_hide => hide w
  | tree_setInput_done n => tree_input_set n w
  | tree_item_expanded_or_collapsed n => layoutTree n w
  | environment_changed m frame => set_environment m frame w
  end.

Definition run (history : list Event) (w : World) : World :=
  fold_left (fun w e => exec e w) history w.

Definition reachable (w : World) : Prop :=
  exists m frame history, w = run history (new_DebugHoverWidget m frame).

(** The position of the last hover that was shown. *)
Definition last_shown (history : list Event) : option Position :=
  fold_left (fun shown e =>
               match e with
               | expression_resolved h (Some expr) =>
                   if available expr then Some (pos h) else shown
               | _ => shown
               end) history None.

(** [i] is the first index at which [word] occurs in [line]. *)
Definition first_index (line word : string) (i : nat) : Prop :=
  JSString.occurs_at line word i
  /\ forall j, JSString.occurs_at line word j -> (i <= j)%nat.

(** The invariant of the widget: a hidden widget holds no highlight, it
    never holds more than one, and the ids it holds were handed out by the
    editor. *)
Definition hover_inv (w : World) : Prop :=
  (isVisible w = false -> highlightDecorations w = [])
  /\ (length (highlightDecorations w) <= 1)%nat
  /\ (forall id, id ∈ highlightDecorations w -> (id < nextDecorationId w)%nat).

Definition example_model : Model :=
  {| associatedResource := "file:///app.js";
     lineContents := ["var a = load();"; "return a.b.foo;"] |}.

Definition example_range : Range :=
  {| startLineNumber := 2; startColumn := 12; endLineNumber := 2; endColumn := 15 |}.

Definition example_hover : PendingHover :=
  {| pos := {| lineNumber := 2; column := 12 |};
     lineContent := "return a.b.foo;"; hoveringOver := "foo";
     names := ["a"; "b"; "foo"] |}.

Definition example_history : list Event :=
  [ call_showAt example_range "foo";
    expression_resolved example_hover
      (Some {| name := "foo"; available := true; reference := 0 |}) ].

Definition example_world : World :=
  run example_history
    (new_DebugHoverWidget example_model (Some {| source_uri := "file:///app.js" |})).

End DebugHover.

(** ** The command line installer: [InstallAction] *)

Module CLI.

(** *** Promises over the file system *)

(** What a promise is rejected with: a system error with its [code], an
    [Error] made by the action itself, or the collected errors of
    [TPromise.join]. *)
Inductive Error : Type :=
| SystemError (code : string)
| PlainError (message : string)
| JoinError (errors : list (option Error)).

(** [err.code] *)
Definition code_of (err : Error) : option string :=
  match err with
  | SystemError code => Some code
  | _ => None
  end.

Inductive Outcome (A : Type) : Type :=
| Ok (value : A)
| Err (err : Error).
Arguments Ok {A} value.
Arguments Err {A} err.

Inductive Severity : Type := Info | Warning.

(** A message with the ids of the actions it offers. *)
Record Message : Type := { text : string; actions : list string }.

Record Stats : Type := { isSymbolicLink : bool }.

(** The calls that leave the action: the file system ([pfs]), the shell
    ([cp.exec]) and the message service. *)
Inductive Command : Type -> Type :=
| pfs_unlink (path : string) : Command unit
| pfs_symlink (target path : string) : Command unit
| pfs_lstat (path : string) : Command Stats
| pfs_readlink (path : string) : Command string
| pfs_readFile (path encoding : string) : Command string
| cp_exec (command : string) : Command unit
| messageService_show (severity : Severity) (message : Message) : Command unit.

(** A promise chain: settled, or waiting for the answer to a call. *)
Inductive Promise (A : Type) : Type :=
| resolved (value : A)
| rejected (err : Error)
| call {X : Type} (c : Command X) (k : Outcome X -> Promise A).
Arguments resolved {A} value.
Arguments rejected {A} err.
Arguments call {A X} c k.

(** [p.then(onComplete, onError)] *)
Fixpoint then_ {A B : Type} (p : Promise A) (onComplete : A -> Promise B)
  (onError : Error -> Promise B) : Promise B :=
  match p with
  | resolved value => onComplete value
  | rejected err => onError err
  | call c k => call c (fun o => then_ (k o) onComplete onError)
  end.

(** [p.then(onComplete)] *)
Definition bind {A B : Type} (p : Promise A) (onComplete : A -> Promise B) : Promise B :=
  then_ p onComplete rejected.

(** [p.then(null, onError)] *)
Definition catch {A : Type} (p : Promise A) (onError : Error -> Promise A) : Promise A :=
  then_ p resolved onError.

Notation "x <- p ;; k" := (bind p (fun x => k))
  (at level 100, p at next level, right associativity).
Notation "p ;;; k" := (bind p (fun _ => k))
  (at level 100, right associativity).

(** A call as a promise of its answer. *)
Definition perform {X : Type} (c : Command X) : Promise X :=
  call c (fun o => match o with Ok value => resolved value | Err err => rejected err end).

(** [TPromise.join(promises)]: every promise runs; the join completes with
    all the values, or is rejected with the collected errors when one of
    them is. *)
Definition settle {A : Type} (p : Promise A) : Promise (Outcome A) :=
  then_ p (fun value => resolved (Ok value)) (fun err => resolved (Err err)).

Fixpoint settle_all {A : Type} (promises : list (Promise A)) : Promise (list (Outcome A)) :=
  match promises with
  | [] => resolved []
  | p :: rest =>
      o <- settle p ;;
      os <- settle_all rest ;;
      resolved (o :: os)
  end.

Fixpoint values {A : Type} (outcomes : list (Outcome A)) : option (list A) :=
  match outcomes with
  | [] => Some []
  | Ok value :: rest => option_map (cons value) (values rest)
  | Err _ :: _ => None
  end.

Definition error_of {A : Type} (o : Outcome A) : option Error :=
  match o with Ok _ => None | Err err => Some err end.

Definition join {A : Type} (promises : list (Promise A)) : Promise (list A) :=
  outcomes <- settle_all promises ;;
  match values outcomes with
  | Some result => resolved result
  | None => rejected (JoinError (map error_of outcomes))
  end.

(** *** Running a promise chain against an environment *)

Inductive Event : Type :=
| event {X : Type} (c : Command X) (o : Outcome X).

(** An environment answers every call and moves on. *)
Definition Handler (W : Type) : Type := forall X : Type, Command X -> W -> Outcome X * W.

Fixpoint interp {W A : Type} (h : Handler W) (p : Promise A) (w : W)
  : Outcome A * W * list Event :=
  match p with
  | resolved value => (Ok value, w, [])
  | rejected err => (Err err, w, [])
  | call c k =>
      let '(o, w) := h _ c w in
      let '(r, w, trace) := interp h (k o) w in
      (r, w, event c o :: trace)
  end.

Definition is_symlink (e : Event) : bool :=
  match e with
  | event c _ => match c with pfs_symlink _ _ => true | _ => false end
  end.

Definition is_unlink (e : Event) : bool :=
  match e with
  | event c _ => match c with pfs_unlink _ => true | _ => false end
  end.


Definition is_readFile (e : Event) : bool :=
  match e with
  | event c _ => match c with pfs_readFile _ _ => true | _ => false end
  end.

(** The events that touch the file system or the shell. *)
Definition touches_system (e : Event) : bool :=
  match e with
  | event c _ => match c with messageService_show _ _ => false | _ => true end
  end.

(** *** [InstallAction] *)

(** The configuration and the module constants the action reads. *)
Record Env : Type := {
  applicationName : string;
  darwinBundleIdentifier : string;
  homedir : string;
  source : string;          (* [path.resolve(root, '..', 'bin', 'code')] *)
  isAvailable : bool        (* [fs.existsSync(source)] *)
}.

(** [ignore(code, value)] *)
Definition ignore {T : Type} (code : string) (value : T) : Error -> Promise T :=
  fun err => if bool_decide (code_of err = Some code)
             then resolved value
             else rejected err.

(** [path.join(dir, name)] *)
Definition path_join (dir name : string) : string := dir +:+ "/" +:+ name.

Definition target (env : Env) : string := "/usr/local/bin/" +:+ applicationName env.

Definition isInstalled (env : Env) : Promise bool :=
  catch (stat <- perform (pfs_lstat (target env)) ;;
         let _ := isSymbolicLink stat in
         link <- perform (pfs_readlink (target env)) ;;
         resolved (String.eqb link (source env)))
        (ignore "ENOENT" false).

(** The double quote, as a string. *)
Definition dq : string := String "034"%char EmptyString.

Definition createBinFolder_command : string :=
  "osascript -e " +:+ dq +:+ "do shell script \" +:+ dq
  +:+ "mkdir -p /usr/local/bin && chown \" +:+ dq
  +:+ " & (do shell script (\" +:+ dq +:+ "whoami\" +:+ dq +:+ ")) & \" +:+ dq
  +:+ " /usr/local/bin\" +:+ dq +:+ " with administrator privileges" +:+ dq.

Definition createBinFolder : Promise unit :=
  catch (perform (cp_exec createBinFolder_command))
        (fun _ => rejected (PlainError "Unable to create '/usr/local/bin'.")).

Definition legacy_files (env : Env) : list string :=
  [ path_join (homedir env) ".bash_profile";
    path_join (homedir env) ".bashrc";
    path_join (homedir env) ".zshrc" ].

(** The [reduce] callback of [checkLegacy], with its running index. *)
Definition checkLegacy_reduce (env : Env) (files : list string)
  (acc : list string * nat) (contents : string) : list string * nat :=
  let '(result, index) := acc in
  (if -1 <? JSString.indexOf contents (darwinBundleIdentifier env)
   then result ++ [default "" (files !! index)]
   else result,
   S index).

(** [readOrEmpty] of [checkLegacy] *)
Definition readOrEmpty (name : string) : Promise string :=
  catch (perform (pfs_readFile name "utf8")) (ignore "ENOENT" "").

Definition checkLegacy (env : Env) : Promise (list string) :=
  let files := legacy_files env in
  result <- join (map (fun f => readOrEmpty f) files) ;;
  resolved (fold_left (checkLegacy_reduce env files) result ([], 0%nat)).1.

(** [createSymlink] of [run] *)
Definition createSymlink (env : Env) : Promise unit :=
  catch (perform (pfs_unlink (target env))) (ignore "ENOENT" tt) ;;;
  perform (pfs_symlink (source env) (target env)).

(** The installation branch of [run]: [createSymlink().then(null, err => ...)] *)
Definition install (env : Env) : Promise unit :=
  catch (createSymlink env)
        (fun err =>
           if bool_decide (code_of err = Some "EACCES")
              || bool_decide (code_of err = Some "ENOENT")
           then createBinFolder ;;; createSymlink env
           else rejected err).

Definition legacy_warning (file : string) : Message :=
  {| text := "Please remove the 'code' alias in '" +:+ file +:+ "' and retry this action.";
     actions := ["inlineEdit"] |}.

Definition success_message (env : Env) : Message :=
  {| text := "Shortcut '" +:+ applicationName env +:+ "' successfully installed in PATH.";
     actions := [] |}.

Definition run (env : Env) : Promise unit :=
  files <- checkLegacy env ;;
  if (0 <? length files)%nat
  then
    let file := default "" (head files) in
    perform (messageService_show Warning (legacy_warning file)) ;;;
    resolved tt
  else
    (isInstalled <- isInstalled env ;;
     if negb (isAvailable env) || isInstalled
     then resolved tt
     else install env) ;;;
    perform (messageService_show Info (success_message env)).

(** What [readOrEmpty] makes of the answer to a read: a missing file reads
    as the empty string. *)
Definition readOrEmpty_outcome (o : Outcome string) : Outcome string :=
  match o with
  | Ok contents => Ok contents
  | Err err => if bool_decide (code_of err = Some "ENOENT") then Ok "" else Err err
  end.

(** The answers to [unlink] that let [createSymlink] go on. *)
Definition unlinked (o : Outcome unit) : bool :=
  match o with
  | Ok _ => true
  | Err err => bool_decide (code_of err = Some "ENOENT")
  end.


(** *** A small file system, for concrete runs *)

Record FS : Type := {
  binFolder : bool;                       (* /usr/local/bin exists and is writable *)
  link : option string;                   (* what /usr/local/bin/<app> points to *)
  profiles : list (string * string)       (* shell profiles and their contents *)
}.

Definition example_env : Env :=
  {| applicationName := "code"; darwinBundleIdentifier := "com.microsoft.VSCode";
     homedir := "/Users/me"; source := "/Applications/Code.app/bin/code";
     isAvailable := true |}.

Definition example_handler : Handler FS :=
  fun X c =>
    match c in Command X return FS -> Outcome X * FS with
    | pfs_unlink _ => fun fs =>
        if negb (binFolder fs) then (Err (SystemError "ENOENT"), fs)
        else match link fs with
             | Some _ => (Ok tt, {| binFolder := true; link := None;
                                    profiles := profiles fs |})
             | None => (Err (SystemError "ENOENT"), fs)
             end
    | pfs_symlink to _ => fun fs =>
        if negb (binFolder fs) then (Err (SystemError "ENOENT"), fs)
        else (Ok tt, {| binFolder := true; link := Some to; profiles := profiles fs |})
    | pfs_lstat _ => fun fs =>
        match link fs with
        | Some _ => (Ok {| isSymbolicLink := true |}, fs)
        | None => (Err (SystemError "ENOENT"), fs)
        end
    | pfs_readlink _ => fun fs =>
        match link fs with
        | Some to => (Ok to, fs)
        | None => (Err (SystemError "ENOENT"), fs)
        end
    | pfs_readFile path _ => fun fs =>
        match list_find (fun kv => kv.1 = path) (profiles fs) with
        | Some (_, (_, contents)) => (Ok contents, fs)
        | None => (Err (SystemError "ENOENT"), fs)
        end
    | cp_exec _ => fun fs =>
        (Ok tt, {| binFolder := true; link := link fs; profiles := profiles fs |})
    | messageService_show _ _ => fun fs => (Ok tt, fs)
    end.

Definition example_fs : FS :=
  {| binFolder := false; link := None;
     profiles := [("/Users/me/.bashrc", "export PATH=$PATH:/opt/bin")] |}.

Definition example_legacy_fs : FS :=
  {| binFolder := true; link := None;
     profiles := [("/Users/me/.zshrc",
                   "alias code='open -b com.microsoft.VSCode'")] |}.

End CLI.

(** ** The JavaScript mode: [JSMode] *)

Module JSMode.

(** [Modes.IndentAction] *)
Inductive IndentAction : Type := IndentAction_None | Indent | IndentOutdent | Outdent.

Record EnterAction : Type := {
  indentAction : IndentAction;
  appendText : option string;
  removeText : option Z
}.

(** An on-enter rule; regular expressions are kept as their source text. *)
Record OnEnterRule : Type := {
  beforeText : string;
  afterText : option string;
  action : EnterAction
}.

Record CommentRule : Type := {
  lineComment : string;
  blockComment : string * string
}.

Record ElectricBracket : Type := {
  tokenType : string; bracket_open : string; bracket_close : string; isElectric : bool
}.

Record DocComment : Type := {
  scope : string; doc_open : string; lineStart : string; doc_close : string
}.

Record AutoClosingPair : Type := {
  open : string; close : string; notIn : list string
}.

Record IRichEditConfiguration : Type := {
  wordPattern_allowInWords : string;     (* the argument of [createWordRegExp] *)
  comments : CommentRule;
  brackets : list (string * string);
  onEnterRules : list OnEnterRule;
  electricBrackets : list ElectricBracket;
  docComment : DocComment;
  autoClosingPairs : list AutoClosingPair
}.

Definition doubleQuote : string := String "034"%char EmptyString.

(** The configuration handed to [new RichEditSupport(this.getId(), ...)] in
    the constructor of [JSMode]. *)
Definition richEditSupport : IRichEditConfiguration :=
  {| wordPattern_allowInWords := "$";
     comments := {| lineComment := "//"; blockComment := ("/*", "*/") |};
     brackets := [ ("{", "}"); ("[", "]"); ("(", ")") ];
     onEnterRules :=
       [ {| beforeText := "^\s*\/\*\*(?!\/)([^\*]|\*(?!\/))*$";
            afterText := Some "^\s*\*\/$";
            action := {| indentAction := IndentOutdent; appendText := Some " * ";
                         removeText := None |} |};
         {| beforeText := "^\s*\/\*\*(?!\/)([^\*]|\*(?!\/))*$";
            afterText := None;
            action := {| indentAction := IndentAction_None; appendText := Some " * ";
                         removeText := None |} |};
         {| beforeText := "^(\t|(\ \ ))*\ \*(\ ([^\*]|\*(?!\/))*" +:+ ")?$";
            afterText := None;
            action := {| indentAction := IndentAction_None; appendText := Some "* ";
                         removeText := None |} |};
         {| beforeText := "^(\t|(\ \ ))*\ \*\/\s*$";
            afterText := None;
            action := {| indentAction := IndentAction_None; appendText := None;
                         removeText := Some 1 |} |} ];
     electricBrackets :=
       [ {| tokenType := "delimiter.bracket.js"; bracket_open := "{";
            bracket_close := "}"; isElectric := true |};
         {| tokenType := "delimiter.array.js"; bracket_open := "[";
            bracket_close := "]"; isElectric := true |};
         {| tokenType := "delimiter.parenthesis.js"; bracket_open := "(";
            bracket_close := ")"; isElectric := true |} ];
     docComment := {| scope := "comment.doc"; doc_open := "/**"; lineStart := " * ";
                      doc_close := " */" |};
     autoClosingPairs :=
       [ {| open := "{"; close := "}"; notIn := [] |};
         {| open := "["; close := "]"; notIn := [] |};
         {| open := "("; close := ")"; notIn := [] |};
         {| open := doubleQuote; close := doubleQuote; notIn := ["string"] |};
         {| open := "'"; close := "'"; notIn := ["string"; "comment"] |} ] |}.

(** An on-enter rule continues a JSDoc comment when it fires inside one:
    after the opening [/**] or on a [ * ] line. *)
Definition continues_doc_comment (rule : OnEnterRule) : bool :=
  (-1 <? JSString.indexOf (beforeText rule) "\/\*\*")
  || (-1 <? JSString.indexOf (beforeText rule) "\ \*").

End JSMode.

(** ** The remaining operations of [ModeServiceImpl] *)

Module ModeServiceOps.
Import Objects ModeService.





(** The closures built from the compiled lexer of a Monarch language. *)
Record MonarchSupports : Type := {
  createTokenizationSupport : Support;
  createRichEditSupport : Support;
  createSuggestSupport : Support
}.

Definition doRegisterMonarchDefinition (modeId : string) (lexer : MonarchSupports)
  (w : World) : World * list Registration :=
  let '(w, r1) := registerTokenizationSupport modeId (createTokenizationSupport lexer) w in
  let '(w, r2) := registerRichEditSupport modeId (createRichEditSupport lexer) w in
  (w, [r1; r2]).

(** [registerMonarchDefinition]; [lexer] stands for
    [compile(Objects.clone(language))]. *)
Definition registerMonarchDefinition (modeId : string) (language : nat)
  (lexer : MonarchSupports) (w : World) : World * list Registration :=
  doRegisterMonarchDefinition modeId lexer w.

(** What [configureModeById] does to the stored options. *)
Definition config_step (modeId : string) (options : any) (config : gmap string any)
  : gmap string any :=
  let previousOptions := match config !! modeId with
                         | Some o => or_else o (object [])
                         | None => object []
                         end in
  let newOptions := mixin (clone previousOptions) options in
  if equals previousOptions newOptions then config
  else <[modeId := newOptions]> config.





(** A step that stores no options and configures no mode that existed; the
    modes it creates are configured with the options stored for their id. *)
Record quiet (w w' : World) : Prop := {
  quiet_config : _config w' = _config w;
  quiet_modes : forall i m,
    modes w !! i = Some m ->
    exists m', modes w' !! i = Some m' /\ configured m' = configured m
               /\ static m' = static m;
  quiet_new : forall i m',
    modes w' !! i = Some m' -> (length (modes w) <= i)%nat ->
    has_configSupport m' = true ->
    last (configured m') = Some (getConfigurationForMode (getId m') w')
}.




(** *** Small services, for concrete runs *)



Definition configuring_history : list Call :=
  [ call_configureModeById "html" (object [("tabSize", number 4)]);
    call_getOrCreateMode "html";
    compat_mode_created "html" true true;
    call_configureMode "html" (object [("tabSize", number 2)]) ].

End ModeServiceOps.

(** ** [MainThreadModeServiceImpl] *)

Module MainThreadModeService.
Import Objects ModeService.

(** The calls the main thread makes on the remote [ModeServiceWorkerHelper]. *)
Inductive WorkerCall : Type :=
| helper_initialize
| helper_instantiateMode (modeId : string)
| helper_configureModeById (modeId : string) (options : any)
| helper_registerMonarchDefinition (modeId : string) (language : nat).

(** The service on the main thread: the fields it inherits, its own flag,
    and what it has sent to the worker so far. *)
Record MainWorld : Type := {
  base : World;
  _hasInitialized : bool;
  worker : list WorkerCall
}.

(** The constructor. *)
Definition new_MainThreadModeServiceImpl (registry : LanguageExtensions) (ready : bool)
  : MainWorld :=
  {| base := new_ModeServiceImpl registry ready; _hasInitialized := false; worker := [] |}.

Definition on_base (f : World -> World) (mw : MainWorld) : MainWorld :=
  {| base := f (base mw); _hasInitialized := _hasInitialized mw; worker := worker mw |}.

Definition send (c : WorkerCall) (mw : MainWorld) : MainWorld :=
  {| base := base mw; _hasInitialized := _hasInitialized mw; worker := worker mw ++ [c] |}.

Definition _getModeServiceWorkerHelper (mw : MainWorld) : MainWorld :=
  if negb (_hasInitialized mw)
  then send helper_initialize
         {| base := base mw; _hasInitialized := true; worker := worker mw |}
  else mw.

Definition _createMode (modeId : string) (mw : MainWorld) : MainWorld * option ModeRef :=
  let mw := send (helper_instantiateMode modeId) (_getModeServiceWorkerHelper mw) in
  let '(w, created) := ModeService._createMode modeId (base mw) in
  (on_base (fun _ => w) mw, created).

(** The inherited [_getOrCreateMode], which calls the [_createMode] above. *)
Definition _getOrCreateMode (modeId : string) (mw : MainWorld) : MainWorld * TPromise :=
  match _instantiatedModes (base mw) !! modeId with
  | Some mode => (mw, TPromise_as mode)
  | None =>
      match _activationPromises (base mw) !! modeId with
      | Some p => (mw, TPromise_new p)
      | None =>
          let promise := length (promises (base mw)) in
          let mw := on_base (with_promises
                               (fun ps => ps ++ [{| state := Pending; waiters := [] |}])) mw in
          let mw := on_base (with_activationPromises <[modeId := promise]>) mw in
          let '(mw, created) := _createMode modeId mw in
          match created with
          | Some mode =>
              (on_base (fun w => complete promise mode (_getOrCreateMode_then modeId mode w)) mw,
               TPromise_new promise)
          | None => (mw, TPromise_new promise)
          end
      end
  end.

(** The inherited [getOrCreateMode], [getOrCreateModeByLanguageName] and
    [getOrCreateModeByFilenameOrFirstLine]. *)
Definition getOrCreate (request : Request) (mw : MainWorld) : MainWorld * TPromise :=
  if pluginsReady (base mw)
  then _getOrCreateMode (target request (base mw)) mw
  else (on_base (fun w => with_plugins false (deferred w ++ [request]) w) mw,
        TPromise_onReady (length (deferred (base mw)))).

(** The inherited [getMode]. *)
Definition getMode (commaSeparatedMimetypesOrCommaSeparatedIds : string) (mw : MainWorld)
  : MainWorld * option ModeRef :=
  let modeIds := extractModeIds (languageExtensions (base mw))
                   commaSeparatedMimetypesOrCommaSeparatedIds in
  match getMode_loop modeIds (_instantiatedModes (base mw)) false with
  | inl mode => (mw, Some mode)
  | inr true =>
      let '(mw, promise) :=
        getOrCreate (ByMimetypesOrIds commaSeparatedMimetypesOrCommaSeparatedIds) mw in
      (mw, value_now promise (base mw))
  | inr false => (mw, None)
  end.

Definition configureModeById (modeId : string) (options : any) (mw : MainWorld)
  : MainWorld :=
  let mw := send (helper_configureModeById modeId options)
              (_getModeServiceWorkerHelper mw) in
  (* super.configureModeById(modeId, options) *)
  let previousOptions := getConfigurationForMode modeId (base mw) in
  let newOptions := mixin (clone previousOptions) options in
  if equals previousOptions newOptions then mw
  else
    let mw := on_base (with_config <[modeId := newOptions]>) mw in
    let '(mw, mode) := getMode modeId mw in
    match mode with
    | Some m =>
        match modes (base mw) !! m with
        | Some o => if has_configSupport o
                    then on_base (fun w => configure m (getConfigurationForMode modeId w) w) mw
                    else mw
        | None => mw
        end
    | None => mw
    end.

(** The inherited [configureMode]. *)
Definition configureMode (mimetype : string) (options : any) (mw : MainWorld) : MainWorld :=
  match getModeId mimetype (base mw) with
  | Some modeId => if JSString.truthy modeId then configureModeById modeId options mw else mw
  | None => mw
  end.

Definition registerModeSupport (modeId support : string) (callback : Support)
  (mw : MainWorld) : MainWorld * Registration :=
  let mw := send (helper_instantiateMode modeId) (_getModeServiceWorkerHelper mw) in
  (* super.registerModeSupport(modeId, support, callback) *)
  let '(mw, promise) := _getOrCreateMode modeId mw in
  match promise with
  | TPromise_as mode =>
      let '(w, d) := registerModeSupport_then modeId support callback mode (base mw) in
      (on_base (fun _ => w) mw, Registered d)
  | TPromise_new p =>
      match promises (base mw) !! p with
      | Some {| state := Complete mode |} =>
          let '(w, d) := registerModeSupport_then modeId support callback mode (base mw) in
          (on_base (fun _ => w) mw, Registered d)
      | Some {| state := Pending; waiters := ws |} =>
          (on_base (with_promises
                      <[p := {| state := Pending;
                                waiters := ws ++ [(modeId, support, callback)] |}]>) mw,
           Waiting p)
      | Some {| state := Failed err |} => (mw, Rejected err)
      | None => (mw, NotStarted)
      end
  | TPromise_onReady _ => (mw, NotStarted)
  end.

(** [registerMonarchDefinition]; [lexer] stands for
    [compile(Objects.clone(language))]. *)
Definition registerMonarchDefinition (modeId : string) (language : nat)
  (lexer : ModeServiceOps.MonarchSupports) (mw : MainWorld) : MainWorld * list Registration :=
  let mw := send (helper_registerMonarchDefinition modeId language)
              (_getModeServiceWorkerHelper mw) in
  (* super.doRegisterMonarchDefinition(modeId, lexer) *)
  let '(mw, r1) := registerModeSupport modeId "tokenizationSupport"
                     (ModeServiceOps.createTokenizationSupport lexer) mw in
  let '(mw, r2) := registerModeSupport modeId "richEditSupport"
                     (ModeServiceOps.createRichEditSupport lexer) mw in
  let '(mw, r3) := registerModeSupport modeId "suggestSupport"
                     (ModeServiceOps.createSuggestSupport lexer) mw in
  (mw, [r1; r2; r3]).

(** *** Histories of the main thread service *)

Inductive MainCall : Type :=
| service_call (c : Call)
| call_registerMonarchDefinition (modeId : string) (language : nat)
    (lexer : ModeServiceOps.MonarchSupports).

Definition pluginsBecomeReady (mw : MainWorld) : MainWorld :=
  if pluginsReady (base mw) then mw
  else fold_left (fun mw request => (getOrCreate request mw).1) (deferred (base mw))
         (on_base (with_plugins true []) mw).

Definition exec (c : MainCall) (mw : MainWorld) : MainWorld :=
  match c with
  | service_call (call_getOrCreateMode s) => (getOrCreate (ByMimetypesOrIds s) mw).1
  | service_call (call_getOrCreateModeByLanguageName n) =>
      (getOrCreate (ByLanguageName n) mw).1
  | service_call (call_getOrCreateModeByFilenameOrFirstLine f l) =>
      (getOrCreate (ByFilenameOrFirstLine f l) mw).1
  | service_call (call_getMode s) => (getMode s mw).1
  | service_call (call_configureModeById modeId options) =>
      configureModeById modeId options mw
  | service_call (call_configureMode mimetype options) => configureMode mimetype options mw
  | service_call (call_registerModeSupport modeId support callback) =>
      (registerModeSupport modeId support callback mw).1
  | service_call plugins_ready => pluginsBecomeReady mw
  | service_call (compat_mode_created modeId r c) =>
      on_base (compatModeCreated modeId r c) mw
  | service_call (compat_mode_failed modeId err) => on_base (compatModeFailed modeId err) mw
  | call_registerMonarchDefinition modeId language lexer =>
      (registerMonarchDefinition modeId language lexer mw).1
  end.

Definition run (history : list MainCall) (mw : MainWorld) : MainWorld :=
  fold_left (fun mw c => exec c mw) history mw.

Definition reachable (mw : MainWorld) : Prop :=
  exists registry ready history,
    mw = run history (new_MainThreadModeServiceImpl registry ready).

(** What a call of the main thread service is for the inherited service. *)
Definition inherited (c : MainCall) : list Call :=
  match c with
  | service_call c => [c]
  | call_registerMonarchDefinition modeId _ lexer =>
      [ call_registerModeSupport modeId "tokenizationSupport" (ModeServiceOps.createTokenizationSupport lexer);
        call_registerModeSupport modeId "richEditSupport" (ModeServiceOps.createRichEditSupport lexer);
        call_registerModeSupport modeId "suggestSupport" (ModeServiceOps.createSuggestSupport lexer) ]
  end.

(** The worker has been told about everything the main thread serves, and
    [initialize] came first and once. *)
Record mirrored (mw : MainWorld) : Prop := {
  mirror_none : _hasInitialized mw = false -> worker mw = [];
  mirror_first : _hasInitialized mw = true ->
    exists rest, worker mw = helper_initialize :: rest /\ helper_initialize ∉ rest;
  mirror_served : forall modeId,
    served modeId (base mw) -> helper_instantiateMode modeId ∈ worker mw
}.

Definition example_main_history : list MainCall :=
  [ service_call (call_configureModeById "ini" (object [("tabSize", number 4)]));
    call_registerMonarchDefinition "ini" 0%nat
      {| ModeServiceOps.createTokenizationSupport := 1%nat; ModeServiceOps.createRichEditSupport := 2%nat;
         ModeServiceOps.createSuggestSupport := 3%nat |};
    service_call (call_getOrCreateMode "html") ].

End MainThreadModeService.

(** ** [ModeServiceWorkerHelper]: the calls as they arrive in the worker *)

Module ModeServiceWorkerHelper.
Import Objects ModeService MainThreadModeService.

(** [initialize] hands the worker participants to the modes registry, which
    the service consults only for the mode descriptors. *)
Definition initialize (w : World) : World := w.

Definition instantiateMode (modeId : string) (w : World) : World :=
  (ModeService.getOrCreateMode modeId w).1.

Definition configureModeById (modeId : string) (options : any) (w : World) : World :=
  ModeService.configureMode modeId options w.

Definition registerMonarchDefinition (modeId : string) (language : nat)
  (lexer : ModeServiceOps.MonarchSupports) (w : World) : World :=
  (ModeServiceOps.registerMonarchDefinition modeId language lexer w).1.

(** The worker's service receives the calls of the main thread in the order
    in which they were made; [compile] stands for the compilation of a
    language in the worker. *)
Definition deliver (compile : nat -> ModeServiceOps.MonarchSupports) (c : WorkerCall)
  (w : World) : World :=
  match c with
  | helper_initialize => initialize w
  | helper_instantiateMode modeId => instantiateMode modeId w
  | helper_configureModeById modeId options => configureModeById modeId options w
  | helper_registerMonarchDefinition modeId language =>
      registerMonarchDefinition modeId language (compile language) w
  end.

Definition deliver_all (compile : nat -> ModeServiceOps.MonarchSupports)
  (calls : list WorkerCall) (w : World) : World :=
  fold_left (fun w c => deliver compile c w) calls w.

(** The options the main thread has sent. *)
Definition options_sent (calls : list WorkerCall) : list (string * any) :=
  omap (fun c => match c with
                 | helper_configureModeById modeId options => Some (modeId, options)
                 | _ => None
                 end) calls.

(** A mode id that the registry maps to itself. *)
Definition resolvable (registry : LanguageExtensions) (modeId : string) : Prop :=
  JSString.truthy modeId = true /\ extractModeIds registry modeId = [modeId].

(** The calls of the main thread that configure a mode name a resolvable
    id, or a mimetype of one. *)
Definition configures_resolvable (registry : LanguageExtensions) (c : MainCall) : Prop :=
  match c with
  | service_call (call_configureModeById modeId _) => resolvable registry modeId
  | service_call (call_configureMode mimetype _) =>
      forall modeId, head (extractModeIds registry mimetype) = Some modeId ->
                     JSString.truthy modeId = true -> resolvable registry modeId
  | _ => True
  end.

(** The stored options of the main thread are those of its messages. *)
Record in_step (registry : LanguageExtensions) (mw : MainWorld) : Prop := {
  step_Inv : Inv (base mw);
  step_registry : languageExtensions (base mw) = registry;
  step_config :
    _config (base mw)
    = fold_left (fun config sent => ModeServiceOps.config_step sent.1 sent.2 config)
        (options_sent (worker mw)) ∅;
  step_resolvable :
    Forall (fun sent => resolvable registry sent.1) (options_sent (worker mw))
}.

End ModeServiceWorkerHelper.

(** ** The hover widget: the editor's decorations, and the expression looked
    up in the scopes *)

Module DebugHoverTree.
Import DebugHover.

(** The editor holds exactly the decorations whose ids the widget holds. *)
Definition owned (w : World) : Prop :=
  forall id, is_Some (decorations w !! id) <-> id ∈ highlightDecorations w.

(** *** [getExpression] *)

(** A variable of the debug model ([debug.IExpression]): the expression the hover shows, and
    what [getChildren] has at hand when it is asked, [None] when its promise
    is not complete yet (or fails), so that [done] has not run its callback
    when the loop goes on. *)
Inductive IExpression : Type :=
| iexpression (expression : Expression) (getChildren : option (list IExpression)).

Definition expression_of (v : IExpression) : Expression :=
  match v with iexpression expression _ => expression end.

Definition getChildren_of (v : IExpression) : option (list IExpression) :=
  match v with iexpression _ getChildren => getChildren end.

Record Scope : Type := {
  expensive : bool;
  scope_getChildren : option (list IExpression)
}.

(** What [getScopes] resolves to is flattened by one level. *)
Inductive ScopeItem : Type :=
| one (scope : Scope)
| several (scopes : list Scope).

Definition flatten (scopes : list ScopeItem) : list Scope :=
  fold_left (fun accum item =>
               accum ++ match item with one scope => [scope] | several l => l end)
    scopes [].

(** The test of [children.filter]: the name, or its last word. *)
Definition matches (wanted : string) (v : IExpression) : bool :=
  let name := name (expression_of v) in
  String.eqb wanted name
  || String.eqb wanted (JSString.substring_from name (JSString.lastIndexOf name " " + 1)).

(** The loop over [namesToFind], from index [i] on ([namesToFind] is what is
    left of the names): what it pushes on [variables]. *)
Fixpoint lookFor (namesToFind : list string) (children : list IExpression) : list IExpression :=
  match namesToFind with
  | [] => []
  | wanted :: rest =>
      match List.filter (matches wanted) children with
      | [found] =>
          match rest with
          | [] => [found]
          | _ :: _ =>
              match getChildren_of found with
              | Some c => lookFor rest c
              | None => []
              end
          end
      | _ => []
      end
  end.

(** What the callbacks of the scopes have pushed on [variables] when the
    last [then] looks at it. *)
Definition variables (namesToFind : list string) (scopes : list ScopeItem) : list IExpression :=
  concat (map (fun scope => match scope_getChildren scope with
                            | Some children => lookFor namesToFind children
                            | None => []
                            end)
              (List.filter (fun scope => negb (expensive scope)) (flatten scopes))).

(** [getExpression]: [evaluateExpression] stands for the session's
    evaluation of a name in the focused frame. *)
Definition getExpression (supportsEvaluateForHovers : bool)
  (evaluateExpression : string -> Expression) (scopes : list ScopeItem)
  (namesToFind : list string) : option Expression :=
  if supportsEvaluateForHovers
  then Some (evaluateExpression (JSString.join namesToFind "."))
  else match variables namesToFind scopes with
       | [v] => Some (expression_of v)
       | _ => None
       end.

(** [path] leads from [children] down to the wanted variable: at each level
    exactly one of the children at hand bears the wanted name. *)
Fixpoint leads (namesToFind : list string) (children : list IExpression)
  (path : list IExpression) : Prop :=
  match namesToFind, path with
  | wanted :: rest, v :: below =>
      List.filter (matches wanted) children = [v]
      /\ match rest with
         | [] => below = []
         | _ :: _ => exists c, getChildren_of v = Some c /\ leads rest c below
         end
  | _, _ => False
  end.

Definition example_scopes : list ScopeItem :=
  let foo := iexpression {| name := "foo"; available := true; reference := 0 |} None in
  let b := iexpression {| name := "b"; available := true; reference := 7 |} (Some [foo]) in
  let a := iexpression {| name := "Object a"; available := true; reference := 6 |} (Some [b]) in
  let b' := iexpression {| name := "b"; available := true; reference := 8 |} (Some []) in
  [ several [ {| expensive := false; scope_getChildren := Some [a; b'] |};
              {| expensive := true; scope_getChildren := Some [a] |} ];
    one {| expensive := false; scope_getChildren := None |} ].

End DebugHoverTree.

(** ** The other command line actions: [UninstallAction], [DarwinCLIHelper] *)

Module UninstallAction.
Import CLI.

Definition success_message (env : Env) : Message :=
  {| text := "Shortcut '" +:+ applicationName env
             +:+ "' successfully uninstalled from PATH.";
     actions := [] |}.

Definition run (env : Env) : Promise unit :=
  catch (perform (pfs_unlink (target env))) (ignore "ENOENT" tt) ;;;
  perform (messageService_show Info (success_message env)).

End UninstallAction.

Module DarwinCLIHelper.
Import CLI.

Definition update_message : Message :=
  {| text := "Code needs to update the command line launcher. Would you like to do this now?";
     actions := ["later"; "now"] |}.

(** The constructor: [installAction.checkLegacy().done(files => ...)] *)
Definition constructor (env : Env) : Promise unit :=
  files <- checkLegacy env ;;
  if (0 <? length files)%nat
  then perform (messageService_show Info update_message)
  else resolved tt.

End DarwinCLIHelper.

Module CLITraces.
Import CLI.

(** The events that change the system: removing or making the link, and the
    privileged shell command. *)
Definition modifies (e : Event) : bool :=
  match e with
  | event c _ =>
      match c with
      | pfs_unlink _ | pfs_symlink _ _ | cp_exec _ => true
      | _ => false
      end
  end.

Definition is_show (e : Event) : bool :=
  match e with
  | event c _ => match c with messageService_show _ _ => true | _ => false end
  end.

(** The three reads of [checkLegacy], as answered from [w]. *)
Definition legacy_reads {W : Type} (h : Handler W) (env : Env) (w : W) : list Event :=
  let f1 := path_join (homedir env) ".bash_profile" in
  let f2 := path_join (homedir env) ".bashrc" in
  let f3 := path_join (homedir env) ".zshrc" in
  let a1 := h _ (pfs_readFile f1 "utf8") w in
  let a2 := h _ (pfs_readFile f2 "utf8") a1.2 in
  let a3 := h _ (pfs_readFile f3 "utf8") a2.2 in
  [event (pfs_readFile f1 "utf8") a1.1; event (pfs_readFile f2 "utf8") a2.1;
   event (pfs_readFile f3 "utf8") a3.1].

(** What the three reads answer. *)
Definition legacy_answers {W : Type} (h : Handler W) (env : Env) (w : W)
  : list (Outcome string) :=
  let f1 := path_join (homedir env) ".bash_profile" in
  let f2 := path_join (homedir env) ".bashrc" in
  let f3 := path_join (homedir env) ".zshrc" in
  let a1 := h _ (pfs_readFile f1 "utf8") w in
  let a2 := h _ (pfs_readFile f2 "utf8") a1.2 in
  let a3 := h _ (pfs_readFile f3 "utf8") a2.2 in
  [a1.1; a2.1; a3.1].

(** A file system whose [~/.bashrc] may not be read. *)
Definition locked_handler : Handler FS :=
  fun X c =>
    match c in Command X return FS -> Outcome X * FS with
    | pfs_readFile path _ => fun fs =>
        if String.eqb path "/Users/me/.bashrc"
        then (Err (SystemError "EACCES"), fs)
        else example_handler _ (pfs_readFile path "utf8") fs
    | c => example_handler _ c
    end.

(** A file system with the link in place. *)
Definition installed_fs : FS :=
  {| binFolder := true; link := Some "/Applications/Code.app/bin/code"; profiles := [] |}.

End CLITraces.

(* ===================================================================== *)
(** * Part II: properties                                                 *)
(* ===================================================================== *)

(** ** Strings *)

Section JSStringFacts.
Import JSString.

Lemma append_String c s t : String c s +:+ t = String c (s +:+ t).
Proof. reflexivity. Qed.

Lemma prefix_occurs search : forall s,
  String.prefix search s = true <-> exists after, s = search +:+ after.
Proof.
  induction search as [|c search IH]; intros s.
  - split; [intros _; by exists s | intros _; by destruct s].
  - destruct s as [|c' s]; simpl.
    + split; [discriminate | intros [after H]; rewrite append_String in H; discriminate].
    + destruct (Ascii.ascii_dec c c') as [<-|Hne].
      * rewrite IH. split; intros [after H]; exists after;
          rewrite append_String in *; congruence.
      * split; [discriminate | intros [after H]; rewrite append_String in H; congruence].
Qed.

Lemma occurs_at_0 s search : occurs_at s search 0 <-> String.prefix search s = true.
Proof.
  rewrite prefix_occurs. unfold occurs_at. split.
  - intros (before & after & -> & Hlen). destruct before; [|discriminate].
    by exists after.
  - intros [after ->]. by exists "", after.
Qed.

Lemma occurs_at_S c s search i :
  occurs_at (String c s) search (S i) <-> occurs_at s search i.
Proof.
  unfold occurs_at. split.
  - intros (before & after & Heq & Hlen). destruct before as [|c' before]; [discriminate|].
    rewrite append_String in Heq. simpl in Hlen. exists before, after. split; congruence.
  - intros (before & after & -> & Hlen). exists (String c before), after.
    split; [reflexivity | simpl; congruence].
Qed.

Lemma occurs_at_empty search i : occurs_at "" search i -> i = 0%nat.
Proof.
  intros (before & after & Heq & Hlen). destruct before; [by symmetry | discriminate].
Qed.

Lemma indexOf_from_unfold s search i :
  indexOf_from s search i
  = if String.prefix search s then i
    else match s with
         | EmptyString => -1
         | String _ rest => indexOf_from rest search (i + 1)
         end.
Proof. by destruct s. Qed.

(** [indexOf] finds the first occurrence, and answers [-1] only when there
    is none. *)
Lemma indexOf_from_spec search : forall s i,
  0 <= i ->
  (indexOf_from s search i = -1 /\ forall j, ~ occurs_at s search j)
  \/ (exists k, indexOf_from s search i = i + Z.of_nat k
                /\ occurs_at s search k
                /\ forall j, occurs_at s search j -> (k <= j)%nat).
Proof.
  induction s as [|c s IH]; intros i Hi; rewrite indexOf_from_unfold.
  - destruct (String.prefix search "") eqn:E.
    + right. exists 0%nat. split; [lia|]. split; [by apply occurs_at_0 | intros; lia].
    + left. split; [reflexivity|]. intros j Hj.
      pose proof (occurs_at_empty _ _ Hj). subst j. apply occurs_at_0 in Hj. congruence.
  - destruct (String.prefix search (String c s)) eqn:E.
    + right. exists 0%nat. split; [lia|]. split; [by apply occurs_at_0 | intros; lia].
    + assert (H0 : ~ occurs_at (String c s) search 0)
        by (rewrite occurs_at_0; congruence).
      destruct (IH (i + 1) ltac:(lia)) as [[Hr Hnone]|(k & Hr & Hk & Hmin)].
      * left. split; [exact Hr|]. intros [|j] Hj; [by apply H0|].
        apply occurs_at_S in Hj. by apply (Hnone j).
      * right. exists (S k). split; [lia|]. split; [by apply occurs_at_S|].
        intros [|j] Hj; [by destruct H0|]. apply occurs_at_S in Hj.
        apply Hmin in Hj. lia.
Qed.

Lemma indexOf_first s search k :
  occurs_at s search k ->
  (forall j, occurs_at s search j -> (k <= j)%nat) ->
  indexOf s search = Z.of_nat k.
Proof.
  intros Hk Hmin. unfold indexOf.
  destruct (indexOf_from_spec search s 0 ltac:(lia)) as [[_ Hnone]|(k' & Hr & Hk' & Hmin')].
  - by destruct (Hnone k).
  - rewrite Hr. pose proof (Hmin k' Hk'). pose proof (Hmin' k Hk). lia.
Qed.

Lemma indexOf_contains s search : indexOf s search > -1 <-> contains s search.
Proof.
  unfold indexOf, contains.
  destruct (indexOf_from_spec search s 0 ltac:(lia)) as [[Hr Hnone]|(k & Hr & Hk & _)].
  - rewrite Hr. split; [lia | intros [i Hi]; by destruct (Hnone i)].
  - rewrite Hr. split; [intros _; by exists k | lia].
Qed.

Example indexOf_examples :
  indexOf "return a.b.foo;" "foo" = 11
  /\ indexOf "return a.b.foo;" ".foo" = 10
  /\ indexOf "return a.b.foo;" "bar" = -1
  /\ indexOf "" "" = 0
  /\ lastIndexOf "return a" " " = 6
  /\ split "return a.b" "."%char = ["return a"; "b"]
  /\ trim "  a b " = "a b"
  /\ substring "return a.b.foo;" 0 (-1) = "".
Proof. by repeat split. Qed.

End JSStringFacts.

(** ** Option bags *)

Section ObjectsFacts.
Import Objects.



Example mixin_example :
  mixin (object [("tabSize", number 4); ("format", object [("enable", boolean true)])])
        (object [("format", object [("indent", number 2)]); ("validate", boolean false)])
  = object [("tabSize", number 4);
            ("format", object [("enable", boolean true); ("indent", number 2)]);
            ("validate", boolean false)].
Proof. reflexivity. Qed.

Example equals_example :
  equals (object [("a", number 1); ("b", array [str "x"])])
         (object [("b", array [str "x"]); ("a", number 1)]) = true
  /\ equals (object [("a", number 1)]) (object [("a", number 1); ("b", null)]) = false
  /\ equals (array []) (object []) = false.
Proof. by repeat split. Qed.























End ObjectsFacts.

(** ** The mode service *)

Section ModeServiceFacts.
Import Objects ModeService.

Lemma statics_lookup (ms ms' : list IMode) i m :
  map static ms = map static ms' -> ms !! i = Some m ->
  exists m', ms' !! i = Some m' /\ static m' = static m.
Proof.
  intros Heq Hm.
  assert (H : map static ms' !! i = Some (static m))
    by (rewrite <- Heq, list_lookup_fmap, Hm; reflexivity).
  rewrite list_lookup_fmap in H. destruct (ms' !! i) as [m'|]; [|discriminate].
  exists m'. split; [reflexivity|]. simpl in H. congruence.
Qed.

Lemma static_getId m m' : static m' = static m -> getId m' = getId m.
Proof. unfold static. congruence. Qed.

Lemma Inv_core w w' : core w = core w' -> Inv w -> Inv w'.
Proof.
  unfold core. intros Hc [H1 H2 H3 H4 H5 H6 H7 H8 H9 H10].
  injection Hc as Hr Ha Hi Hf Hp Hy Hd Hs.
  split; rewrite <- ?Hr, <- ?Ha, <- ?Hi, <- ?Hf, <- ?Hp, <- ?Hy, <- ?Hd; eauto.
  - intros i m' Hm'. destruct (statics_lookup _ _ i m' (eq_sym Hs) Hm') as (m & Hm & Hst).
    rewrite <- (static_getId _ _ Hst). eauto.
  - intros id i Hi'. destruct (H2 id i Hi') as (m & Hm & Hid).
    destruct (statics_lookup _ _ i m Hs Hm) as (m' & Hm' & Hst).
    exists m'. split; [exact Hm'|]. rewrite (static_getId _ _ Hst). exact Hid.
  - intros id i Hf'. destruct (H4 id i Hf') as (m & Hm & Hc & Hreg).
    destruct (statics_lookup _ _ i m Hs Hm) as (m' & Hm' & Hst).
    exists m'. unfold static in Hst. split; [exact Hm'|]. split; congruence.
Qed.

Lemma extends_core w w' : core w = core w' -> Inv w -> extends w w'.
Proof.
  unfold core. intros Hc HI. injection Hc as Hr Ha Hi Hf Hp Hy Hd Hs.
  split; unfold settled; rewrite <- ?Hr, <- ?Ha, <- ?Hi, <- ?Hf, <- ?Hp; eauto.
  - intros i m Hm. eapply statics_lookup; eauto.
  - intros i m' Hm' Hlen. apply lookup_lt_Some in Hm'.
    assert (length (modes w') = length (modes w)).
    { rewrite <- (length_map static (modes w')), <- Hs, length_map. reflexivity. }
    lia.
Qed.

Lemma extends_refl w : extends w w.
Proof.
  split; eauto.
  intros i m' Hm' Hlen. apply lookup_lt_Some in Hm'. lia.
Qed.

Lemma extends_trans w1 w2 w3 : extends w1 w2 -> extends w2 w3 -> extends w1 w3.
Proof.
  intros [A1 A2 A3 A4 A5 A6 A7] [B1 B2 B3 B4 B5 B6 B7]. split; eauto.
  - congruence.
  - intros id p Hp. destruct (A4 id p Hp) as [H|(mode & H & H')]; [eauto|].
    right. exists mode. split; eauto.
  - intros i m Hm. destruct (A6 i m Hm) as (m' & Hm' & Hs).
    destruct (B6 i m' Hm') as (m'' & Hm'' & Hs'). exists m''. split; congruence.
  - intros i m'' Hm'' Hlen.
    destruct (decide (length (modes w2) <= i)%nat) as [Hge|Hlt].
    + specialize (B7 i m'' Hm'' Hge).
      destruct (_instantiatedModes w1 !! getId m'') as [j|] eqn:E; [|reflexivity].
      apply A2 in E. congruence.
    + destruct (lookup_lt_is_Some_2 (modes w2) i ltac:(lia)) as [m' Hm'].
      destruct (B6 i m' Hm') as (m2 & Hm2 & Hs).
      assert (m2 = m'') by congruence. subst m2.
      rewrite (static_getId _ _ Hs). eauto.
Qed.

(** *** The callbacks of [registerModeSupport] and the completion of a promise *)

Lemma static_attach support impl m : static (attach support impl m) = static m.
Proof. reflexivity. Qed.

Lemma static_record_configure options m : static (record_configure options m) = static m.
Proof. reflexivity. Qed.

Lemma statics_alter (f : IMode -> IMode) i (ms : list IMode) :
  (forall m, static (f m) = static m) ->
  map static (alter f i ms) = map static ms.
Proof.
  intros Hf. apply list_eq. intros j. rewrite !list_lookup_fmap.
  destruct (decide (i = j)) as [->|Hne].
  - rewrite list_lookup_alter_eq. destruct (ms !! j); simpl; [|reflexivity].
    by rewrite Hf.
  - by rewrite list_lookup_alter_ne.
Qed.

Lemma core_registerModeSupport_then modeId support callback mode w :
  core (registerModeSupport_then modeId support callback mode w).1 = core w.
Proof.
  unfold registerModeSupport_then, registerSupport, core.
  destruct (modes w !! mode) as [m|]; [|reflexivity].
  destruct (has_registerSupport m); simpl; [|reflexivity].
  rewrite statics_alter by apply static_attach. reflexivity.
Qed.

Lemma core_configure mode options w : core (configure mode options w) = core w.
Proof.
  unfold configure, core. simpl.
  rewrite statics_alter by apply static_record_configure. reflexivity.
Qed.

Lemma core_waiters mode (ws : list (string * string * Support)) : forall w,
  core (fold_left (fun w '(modeId, support, callback) =>
                     (registerModeSupport_then modeId support callback mode w).1) ws w)
  = core w.
Proof.
  induction ws as [|[[modeId support] callback] ws IH]; intros w; simpl; [reflexivity|].
  rewrite IH. apply core_registerModeSupport_then.
Qed.

Lemma core_complete p mode w cell :
  promises w !! p = Some cell ->
  core (complete p mode w)
  = core (with_promises <[p := {| state := Complete mode; waiters := [] |}]> w).
Proof.
  intros Hp. unfold complete. rewrite Hp. apply core_waiters.
Qed.

Lemma settled_app w w' l p mode :
  promises w' = promises w ++ l ->
  settled w p = Some mode -> settled w' p = Some mode.
Proof.
  unfold settled. intros -> H.
  destruct (promises w !! p) as [cell|] eqn:E; [|discriminate].
  by rewrite (lookup_app_l_Some _ _ _ _ E).
Qed.

(** *** [_getOrCreateMode] *)

Lemma _getOrCreateMode_instantiated modeId mode w :
  _instantiatedModes w !! modeId = Some mode ->
  _getOrCreateMode modeId w = (w, TPromise_as mode).
Proof. intros H. unfold _getOrCreateMode. by rewrite H. Qed.

Lemma _getOrCreateMode_pending modeId p w :
  _instantiatedModes w !! modeId = None ->
  _activationPromises w !! modeId = Some p ->
  _getOrCreateMode modeId w = (w, TPromise_new p).
Proof. intros H1 H2. unfold _getOrCreateMode. by rewrite H1, H2. Qed.

Lemma _getOrCreateMode_compat modeId data w :
  _instantiatedModes w !! modeId = None ->
  _activationPromises w !! modeId = None ->
  getCompatMode (languageExtensions w) modeId = Some data ->
  _getOrCreateMode modeId w
  = (with_activationEvents (fun l => l ++ ["onLanguage:" +:+ modeId])
       (with_activationPromises <[modeId := length (promises w)]>
          (with_promises (fun ps => ps ++ [{| state := Pending; waiters := [] |}]) w)),
     TPromise_new (length (promises w))).
Proof.
  intros H1 H2 H3. unfold _getOrCreateMode, _createMode. rewrite H1, H2. simpl.
  rewrite H3. reflexivity.
Qed.

Lemma _getOrCreateMode_frankenstein modeId w :
  _instantiatedModes w !! modeId = None ->
  _activationPromises w !! modeId = None ->
  _frankensteinModes w !! modeId = None ->
  getCompatMode (languageExtensions w) modeId = None ->
  _getOrCreateMode modeId w
  = ({| languageExtensions := languageExtensions w;
        _activationPromises := _activationPromises w;
        _instantiatedModes := <[modeId := length (modes w)]> (_instantiatedModes w);
        _frankensteinModes := <[modeId := length (modes w)]> (_frankensteinModes w);
        _config := _config w;
        modes := modes w ++ [new_FrankensteinMode modeId];
        promises := promises w ++ [{| state := Complete (length (modes w)); waiters := [] |}];
        pluginsReady := pluginsReady w; deferred := deferred w;
        activationEvents := activationEvents w ++ ["onLanguage:" +:+ modeId];
        warnings := warnings w |},
     TPromise_new (length (promises w))).
Proof.
  intros H1 H2 H3 H4.
  unfold _getOrCreateMode, _createMode, _getOrCreateFrankensteinMode.
  rewrite H1, H2. simpl. rewrite H4, H3. simpl.
  unfold complete, _getOrCreateMode_then. simpl.
  rewrite lookup_app_r by lia. rewrite Nat.sub_diag. simpl.
  unfold with_promises. simpl. f_equal. f_equal.
  - rewrite delete_insert_eq. by apply delete_id.
  - rewrite insert_app_r_alt by lia. rewrite Nat.sub_diag. reflexivity.
Qed.

Lemma _getOrCreateMode_compat_ok modeId data w :
  Inv w ->
  _instantiatedModes w !! modeId = None ->
  _activationPromises w !! modeId = None ->
  getCompatMode (languageExtensions w) modeId = Some data ->
  let w' := (_getOrCreateMode modeId w).1 in
  Inv w' /\ extends w w' /\ created_only (eq modeId) w w'.
Proof.
  intros HI Hinst Hact Hcompat.
  rewrite (_getOrCreateMode_compat modeId data w Hinst Hact Hcompat). simpl.
  destruct HI as [H1 H2 H3 H4 H5 H6 H7 H8 H9 H10].
  assert (Hfresh : forall id p, _activationPromises w !! id = Some p ->
                                (p < length (promises w))%nat).
  { intros id p Hp. destruct (H8 id p Hp) as (cell & Hc & _).
    by apply lookup_lt_Some in Hc. }
  split; [|split].
  - split; simpl; eauto.
    + intros id p. rewrite lookup_insert. case_decide; [congruence | eauto].
    + intros id p. rewrite lookup_insert. case_decide; [congruence | eauto].
    + intros id p. rewrite lookup_insert. case_decide.
      * intros [= <-]. eexists. split.
        { rewrite lookup_app_r by lia. rewrite Nat.sub_diag. reflexivity. }
        simpl. congruence.
      * intros Hp. destruct (H8 id p Hp) as (cell & Hc & Hst).
        exists cell. split; [|exact Hst]. rewrite lookup_app_l; [exact Hc|].
        by apply lookup_lt_Some in Hc.
    + intros id id' p. rewrite !lookup_insert. repeat case_decide; try congruence.
      * intros [= <-] Hp. apply Hfresh in Hp. lia.
      * intros Hp [= <-]. apply Hfresh in Hp. lia.
      * eauto.
  - split; simpl; eauto.
    + intros id p Hp. left. rewrite lookup_insert_ne; [exact Hp | congruence].
    + intros p mode. by apply settled_app with (l := [{| state := Pending; waiters := [] |}]).
    + intros i m' Hm' Hlen. apply lookup_lt_Some in Hm'. lia.
  - intros i m' Hm' Hlen. simpl in *. apply lookup_lt_Some in Hm'. lia.
Qed.

Lemma _getOrCreateMode_frankenstein_ok modeId w :
  Inv w ->
  _instantiatedModes w !! modeId = None ->
  _activationPromises w !! modeId = None ->
  getCompatMode (languageExtensions w) modeId = None ->
  let w' := (_getOrCreateMode modeId w).1 in
  Inv w' /\ extends w w' /\ created_only (eq modeId) w w'.
Proof.
  intros HI Hinst Hact Hcompat.
  assert (Hfrank : _frankensteinModes w !! modeId = None).
  { destruct (_frankensteinModes w !! modeId) as [i|] eqn:E; [|reflexivity].
    apply (inv_frank_inst w HI) in E. congruence. }
  rewrite (_getOrCreateMode_frankenstein modeId w Hinst Hact Hfrank Hcompat). simpl.
  destruct HI as [H1 H2 H3 H4 H5 H6 H7 H8 H9 H10].


  split; [|split].
  - split; simpl; eauto.
    + intros i m Hm. apply lookup_app_Some in Hm as [Hm|[Hlen Hm]].
      * specialize (H1 i m Hm). rewrite lookup_insert_ne; [exact H1 | congruence].
      * destruct (i - length (modes w))%nat as [|k] eqn:Ek; [|by destruct k].
        simpl in Hm. injection Hm as <-. simpl.
        rewrite lookup_insert_eq. f_equal. lia.
    + intros id i. rewrite lookup_insert. case_decide.
      * intros [= <-]. subst id. exists (new_FrankensteinMode modeId).
        split; [|reflexivity]. rewrite lookup_app_r by lia. by rewrite Nat.sub_diag.
      * intros Hi. destruct (H2 id i Hi) as (m & Hm & Hid). exists m.
        split; [|exact Hid]. rewrite lookup_app_l; [exact Hm|].
        by apply lookup_lt_Some in Hm.
    + intros id i. rewrite !lookup_insert. case_decide; eauto.
    + intros id i. rewrite lookup_insert. case_decide.
      * intros [= <-]. exists (new_FrankensteinMode modeId).
        split; [|split; reflexivity]. rewrite lookup_app_r by lia. by rewrite Nat.sub_diag.
      * intros Hi. destruct (H4 id i Hi) as (m & Hm & Hc). exists m.
        split; [|exact Hc]. rewrite lookup_app_l; [exact Hm|].
        by apply lookup_lt_Some in Hm.
    + intros id i Hc. rewrite !lookup_insert. case_decide; eauto.
    + intros id p Hp. rewrite lookup_insert_ne; [eauto | congruence].
    + intros id p Hp. destruct (H8 id p Hp) as (cell & Hc & Hst).
      exists cell. split; [|exact Hst]. rewrite lookup_app_l; [exact Hc|].
      by apply lookup_lt_Some in Hc.
  - split; simpl; eauto.
    + intros id i Hi. rewrite lookup_insert_ne; [exact Hi | congruence].
    + intros id i Hi. rewrite lookup_insert_ne; [exact Hi | congruence].
    + intros p mode.
      by apply settled_app
        with (l := [{| state := Complete (length (modes w)); waiters := [] |}]).
    + intros i m Hm. exists m. split; [|reflexivity].
      rewrite lookup_app_l; [exact Hm|]. by apply lookup_lt_Some in Hm.
    + intros i m' Hm' Hlen. apply lookup_app_Some in Hm' as [Hm'|[_ Hm']].
      * apply lookup_lt_Some in Hm'. lia.
      * destruct (i - length (modes w))%nat as [|k]; [|by destruct k].
        simpl in Hm'. injection Hm' as <-. exact Hinst.
  - intros i m' Hm' Hlen. simpl in *. apply lookup_app_Some in Hm' as [Hm'|[_ Hm']].
    + apply lookup_lt_Some in Hm'. lia.
    + destruct (i - length (modes w))%nat as [|k]; [|by destruct k].
      simpl in Hm'. injection Hm' as <-. reflexivity.
Qed.

Lemma _getOrCreateMode_ok modeId w :
  Inv w ->
  let w' := (_getOrCreateMode modeId w).1 in
  Inv w' /\ extends w w' /\ created_only (eq modeId) w w'.
Proof.
  intros HI.
  destruct (_instantiatedModes w !! modeId) as [mode|] eqn:Hinst.
  { rewrite (_getOrCreateMode_instantiated _ _ _ Hinst). simpl.
    split; [exact HI|]. split; [apply extends_refl|].
    intros i m' Hm' Hlen. apply lookup_lt_Some in Hm'. lia. }
  destruct (_activationPromises w !! modeId) as [p|] eqn:Hact.
  { rewrite (_getOrCreateMode_pending _ _ _ Hinst Hact). simpl.
    split; [exact HI|]. split; [apply extends_refl|].
    intros i m' Hm' Hlen. apply lookup_lt_Some in Hm'. lia. }
  destruct (getCompatMode (languageExtensions w) modeId) as [data|] eqn:Hcompat.
  - by eapply _getOrCreateMode_compat_ok.
  - by eapply _getOrCreateMode_frankenstein_ok.
Qed.

Lemma created_only_refl (ids : string -> Prop) w w' :
  length (modes w') = length (modes w) -> created_only ids w w'.
Proof. intros Hlen i m' Hm' Hi. apply lookup_lt_Some in Hm'. lia. Qed.

Lemma core_length w w' : core w = core w' -> length (modes w') = length (modes w).
Proof.
  unfold core. intros [= _ _ _ _ _ _ _ Hs].
  rewrite <- (length_map static (modes w')), <- Hs, length_map. reflexivity.
Qed.

(** A step that keeps the core keeps everything the invariant speaks of. *)
Lemma core_ok (ids : string -> Prop) w w' :
  core w = core w' -> Inv w -> Inv w' /\ extends w w' /\ created_only ids w w'.
Proof.
  intros Hc HI. split; [by eapply Inv_core|]. split; [by apply extends_core|].
  apply created_only_refl. by apply core_length.
Qed.

(** Steps compose. *)
Lemma ok_trans (ids : string -> Prop) w1 w2 w3 :
  Inv w2 /\ extends w1 w2 /\ created_only ids w1 w2 ->
  (Inv w2 -> Inv w3 /\ extends w2 w3 /\ created_only ids w2 w3) ->
  Inv w3 /\ extends w1 w3 /\ created_only ids w1 w3.
Proof.
  intros (HI2 & He12 & Hc12) H. destruct (H HI2) as (HI3 & He23 & Hc23).
  split; [exact HI3|]. split; [by eapply extends_trans|].
  intros i m3 Hm3 Hlen.
  destruct (decide (length (modes w2) <= i)%nat) as [Hge|Hlt]; [by eapply Hc23|].
  destruct (lookup_lt_is_Some_2 (modes w2) i ltac:(lia)) as [m2 Hm2].
  destruct (ext_modes _ _ He23 i m2 Hm2) as (m3' & Hm3' & Hs).
  assert (m3' = m3) by congruence. subst m3'.
  rewrite (static_getId _ _ Hs). by eapply Hc12.
Qed.

(** *** The public entry points *)

Lemma run_request_ok request w :
  Inv w ->
  let w' := run_request request w in
  Inv w' /\ extends w w' /\ created_only (eq (target request w)) w w'.
Proof.
  intros HI.
  destruct request as [s|n|f l]; simpl;
    unfold getOrCreateMode, getOrCreateModeByLanguageName,
      getOrCreateModeByFilenameOrFirstLine, onReady_then, target;
    (destruct (pluginsReady w) eqn:Hready;
     [ by apply _getOrCreateMode_ok | ]); simpl.
  all: destruct HI as [H1 H2 H3 H4 H5 H6 H7 H8 H9 H10].
  all: split; [ split; simpl; eauto; congruence | ].
  all: split; [ split; simpl; eauto | ].
  all: try (intros i m' Hm' Hlen; apply lookup_lt_Some in Hm'; simpl in *; lia).
Qed.

Lemma getOrCreateMode_ok s w :
  Inv w ->
  let w' := (getOrCreateMode s w).1 in
  Inv w' /\ extends w w' /\ created_only (eq (target (ByMimetypesOrIds s) w)) w w'.
Proof. exact (run_request_ok (ByMimetypesOrIds s) w). Qed.

Lemma getMode_ok s w :
  Inv w ->
  let w' := (getMode s w).1 in
  Inv w' /\ extends w w' /\ created_only (eq (target (ByMimetypesOrIds s) w)) w w'.
Proof.
  intros HI. unfold getMode.
  destruct (getMode_loop _ _ _) as [mode|[|]]; simpl.
  - by apply core_ok.
  - pose proof (getOrCreateMode_ok s w HI) as H. simpl in H.
    by destruct (getOrCreateMode s w) as [w' promise].
  - by apply core_ok.
Qed.

Lemma core_with_config f w : core (with_config f w) = core w.
Proof. reflexivity. Qed.

Lemma target_core request w w' : core w = core w' -> target request w' = target request w.
Proof.
  unfold core. intros [= Hr _ _ _ _ _ _ _].
  unfold target, getModeId, getModeIdByLanguageName, getModeIdByFilenameOrFirstLine.
  by rewrite Hr.
Qed.

Lemma configureModeById_ok modeId options w :
  Inv w ->
  let w' := configureModeById modeId options w in
  Inv w' /\ extends w w'
  /\ created_only (eq (target (ByMimetypesOrIds modeId) w)) w w'.
Proof.
  intros HI. unfold configureModeById.
  destruct (equals _ _); [by apply core_ok|].
  set (w1 := with_config _ w).
  assert (Hc1 : core w = core w1) by reflexivity.
  eapply ok_trans; [by apply core_ok|]. intros HI1.
  rewrite <- (target_core (ByMimetypesOrIds modeId) w w1 Hc1).
  pose proof (getMode_ok modeId w1 HI1) as H. simpl in H.
  destruct (getMode modeId w1) as [w2 [m|]]; simpl in H; [|exact H].
  eapply ok_trans; [exact H|]. intros HI2.
  destruct (modes w2 !! m) as [o|]; [|by apply core_ok].
  destruct (has_configSupport o); [|by apply core_ok].
  apply core_ok; [|exact HI2]. symmetry. apply core_configure.
Qed.

Lemma configureMode_ok mimetype options w :
  Inv w ->
  let w' := configureMode mimetype options w in
  Inv w' /\ extends w w'
  /\ created_only (fun id' => exists id, getModeId mimetype w = Some id
                                  /\ target (ByMimetypesOrIds id) w = id') w w'.
Proof.
  intros HI. unfold configureMode.
  destruct (getModeId mimetype w) as [id|] eqn:E; [|by apply core_ok].
  destruct (JSString.truthy id); [|by apply core_ok].
  destruct (configureModeById_ok id options w HI) as (HI' & He & Hc).
  split; [exact HI'|]. split; [exact He|].
  intros i m' Hm' Hlen. exists id. split; [reflexivity|]. by eapply Hc.
Qed.

(** Changing the store of promises without completing or forgetting any
    promise keeps the invariant. *)
Lemma promises_ok (ids : string -> Prop) f w :
  Inv w ->
  (forall p cell, promises w !! p = Some cell ->
     exists cell', f (promises w) !! p = Some cell'
                   /\ (state cell' = state cell
                       \/ (exists id, _activationPromises w !! id = Some p)
                          /\ forall mode, state cell' <> Complete mode)) ->
  let w' := with_promises f w in
  Inv w' /\ extends w w' /\ created_only ids w w'.
Proof.
  intros HI Hf. simpl. destruct HI as [H1 H2 H3 H4 H5 H6 H7 H8 H9 H10].
  split; [|split].
  - split; simpl; eauto.
    intros id p Hp. destruct (H8 id p Hp) as (cell & Hc & Hst).
    destruct (Hf p cell Hc) as (cell' & Hc' & [Heq|[_ Hn]]); exists cell'.
    + split; [exact Hc'|]. by rewrite Heq.
    + by split.
  - split; simpl; eauto.
    + unfold settled. simpl. intros p mode Hs.
      destruct (promises w !! p) as [cell|] eqn:E; [|discriminate]. simpl in Hs.
      destruct (Hf p cell E) as (cell' & Hc' & [Heq|[[id Hid] Hn]]).
      * rewrite Hc'. simpl. by rewrite Heq.
      * destruct (H8 id p Hid) as (cell0 & Hc0 & Hst0).
        assert (cell0 = cell) by congruence. subst cell0.
        destruct (state cell) eqn:Es; try discriminate. by destruct (Hst0 mode0).
    + intros i m' Hm' Hlen. apply lookup_lt_Some in Hm'. lia.
  - by apply created_only_refl.
Qed.

Lemma registerModeSupport_ok modeId support callback w :
  Inv w ->
  let w' := (registerModeSupport modeId support callback w).1 in
  Inv w' /\ extends w w' /\ created_only (eq modeId) w w'.
Proof.
  intros HI. unfold registerModeSupport.
  pose proof (_getOrCreateMode_ok modeId w HI) as H. simpl in H.
  destruct (_getOrCreateMode modeId w) as [w1 promise]. simpl in H.
  assert (Hthen : forall mode,
    let w' := (let '(w, d) := registerModeSupport_then modeId support callback mode w1
               in (w, Registered d)).1 in
    Inv w' /\ extends w w' /\ created_only (eq modeId) w w').
  { intros mode. eapply ok_trans; [exact H|]. intros HI1.
    pose proof (core_registerModeSupport_then modeId support callback mode w1) as Hc.
    destruct (registerModeSupport_then modeId support callback mode w1) as [w2 d].
    simpl in *. by apply core_ok. }
  destruct promise as [mode|p|n]; [apply Hthen| |exact H].
  destruct (promises w1 !! p) as [[[|mode|err] ws]|] eqn:Ep; simpl;
    [|apply Hthen|exact H|exact H].
  eapply ok_trans; [exact H|]. intros HI1.
  apply (promises_ok (eq modeId)
           <[p := {| state := Pending; waiters := ws ++ [(modeId, support, callback)] |}]>
           w1 HI1).
  intros q cell Hq. destruct (decide (p = q)) as [<-|Hne].
  - eexists. split; [apply list_lookup_insert_eq; by apply lookup_lt_Some in Hq|].
    left. simpl. assert (cell = {| state := Pending; waiters := ws |}) by congruence.
    by subst cell.
  - exists cell. split; [by rewrite list_lookup_insert_ne|]. by left.
Qed.

Lemma compatModeFailed_ok modeId err w :
  Inv w ->
  let w' := compatModeFailed modeId err w in
  Inv w' /\ extends w w' /\ created_only (fun _ => False) w w'.
Proof.
  intros HI. unfold compatModeFailed.
  destruct (_activationPromises w !! modeId) as [p|] eqn:Hact; [|by apply core_ok].
  destruct (promises w !! p) as [[[|mode|e] ws]|] eqn:Ep; simpl;
    try (by apply core_ok).
  unfold fail. apply promises_ok; [exact HI|].
  intros q cell Hq. destruct (decide (p = q)) as [<-|Hne].
  - eexists. split; [rewrite list_lookup_alter_eq, Hq; reflexivity|].
    right. split; [by exists modeId|]. simpl. congruence.
  - exists cell. split; [by rewrite list_lookup_alter_ne|]. by left.
Qed.

Lemma core_then_cong f modeId mode a b :
  core a = core b ->
  core (with_promises f (_getOrCreateMode_then modeId mode a))
  = core (with_promises f (_getOrCreateMode_then modeId mode b)).
Proof.
  unfold core. intros [= Hr Ha Hi Hf Hp Hy Hd Hs]. simpl. congruence.
Qed.

(** The world in which a pending compat mode has just been recorded. *)
Lemma compatModeCreated_recorded modeId p (o : IMode) w :
  Inv w ->
  _activationPromises w !! modeId = Some p ->
  getCompatMode (languageExtensions w) modeId <> None ->
  getId o = modeId ->
  let w' := with_promises <[p := {| state := Complete (length (modes w)); waiters := [] |}]>
              (_getOrCreateMode_then modeId (length (modes w))
                 (with_modes (fun ms => ms ++ [o]) w)) in
  Inv w' /\ extends w w' /\ created_only (eq modeId) w w'.
Proof.
  intros HI Hact Hcompat Hid. simpl.
  destruct HI as [H1 H2 H3 H4 H5 H6 H7 H8 H9 H10].
  pose proof (H6 _ _ Hact) as Hinst.
  destruct (H8 _ _ Hact) as (cell & Hcell & Hst).
  assert (Hp : (p < length (promises w))%nat) by (by apply lookup_lt_Some in Hcell).
  split; [|split].
  - split; simpl; eauto.
    + intros i m Hm. apply lookup_app_Some in Hm as [Hm|[Hlen Hm]].
      * specialize (H1 i m Hm). rewrite lookup_insert_ne; [exact H1 | congruence].
      * destruct (i - length (modes w))%nat as [|k] eqn:Ek; [|by destruct k].
        simpl in Hm. injection Hm as <-. rewrite Hid.
        rewrite lookup_insert_eq. f_equal. lia.
    + intros id i. rewrite lookup_insert. case_decide.
      * intros [= <-]. subst id. exists o.
        split; [|exact Hid]. rewrite lookup_app_r by lia. by rewrite Nat.sub_diag.
      * intros Hi. destruct (H2 id i Hi) as (m & Hm & Hidm). exists m.
        split; [|exact Hidm]. rewrite lookup_app_l; [exact Hm|].
        by apply lookup_lt_Some in Hm.
    + intros id i Hf. rewrite lookup_insert_ne; [eauto|].
      intros <-. apply H3 in Hf. congruence.
    + intros id i Hi. destruct (H4 id i Hi) as (m & Hm & Hc). exists m.
      split; [|exact Hc]. rewrite lookup_app_l; [exact Hm|].
      by apply lookup_lt_Some in Hm.
    + intros id i Hc. rewrite lookup_insert. case_decide; [congruence | eauto].
    + intros id q. rewrite lookup_delete. case_decide; [discriminate|].
      intros Hq. rewrite lookup_insert_ne by congruence. eauto.
    + intros id q. rewrite lookup_delete. case_decide; [discriminate | eauto].
    + intros id q. rewrite lookup_delete. case_decide; [discriminate|].
      intros Hq. destruct (H8 id q Hq) as (c & Hc & Hs). exists c.
      split; [|exact Hs]. rewrite list_lookup_insert_ne; [exact Hc|].
      intros <-. by pose proof (H9 _ _ _ Hact Hq).
    + intros id id' q. rewrite !lookup_delete. repeat case_decide; try discriminate.
      eauto.
  - split; simpl; eauto.
    + intros id i Hi. rewrite lookup_insert_ne; [exact Hi | congruence].
    + intros id q Hq. destruct (decide (modeId = id)) as [<-|Hne].
      * right. exists (length (modes w)). unfold settled. simpl.
        assert (q = p) by congruence. subst q.
        rewrite list_lookup_insert_eq by exact Hp. by rewrite lookup_insert_eq.
      * left. by rewrite lookup_delete_ne.
    + unfold settled. simpl. intros q mode Hq.
      rewrite list_lookup_insert_ne; [exact Hq|].
      intros <-. rewrite Hcell in Hq. simpl in Hq.
      destruct (state cell) eqn:Es; try discriminate. by destruct (Hst mode0).
    + intros i m Hm. exists m. split; [|reflexivity].
      rewrite lookup_app_l; [exact Hm|]. by apply lookup_lt_Some in Hm.
    + intros i m' Hm' Hlen. apply lookup_app_Some in Hm' as [Hm'|[_ Hm']].
      * apply lookup_lt_Some in Hm'. lia.
      * destruct (i - length (modes w))%nat as [|k]; [|by destruct k].
        simpl in Hm'. injection Hm' as <-. by rewrite Hid.
  - intros i m' Hm' Hlen. simpl in *. apply lookup_app_Some in Hm' as [Hm'|[_ Hm']].
    + apply lookup_lt_Some in Hm'. lia.
    + destruct (i - length (modes w))%nat as [|k]; [|by destruct k].
      simpl in Hm'. injection Hm' as <-. by rewrite Hid.
Qed.

Lemma compatModeCreated_ok modeId r c w :
  Inv w ->
  let w' := compatModeCreated modeId r c w in
  Inv w' /\ extends w w' /\ created_only (eq modeId) w w'.
Proof.
  intros HI. unfold compatModeCreated.
  destruct (_activationPromises w !! modeId) as [p|] eqn:Hact; [|by apply core_ok].
  destruct (getCompatMode (languageExtensions w) modeId) as [data|] eqn:Hcompat;
    [|by apply core_ok].
  destruct (promises w !! p) as [[[|mode|e] ws]|] eqn:Ep; simpl;
    try (by apply core_ok).
  set (o := {| getId := _createModeDescriptor modeId; class := CompatMode data;
               has_registerSupport := r; has_configSupport := c;
               supports := []; configured := [] |}).
  set (w1 := with_modes (fun ms => ms ++ [o]) w).
  set (w2 := if c then configure (length (modes w)) (getConfigurationForMode modeId w1) w1
             else w1).
  assert (Hc2 : core w2 = core w1) by (subst w2; destruct c; [apply core_configure | reflexivity]).
  set (w3 := _getOrCreateMode_then modeId (length (modes w)) w2).
  assert (Hp3 : promises w3 !! p = Some {| state := Pending; waiters := ws |}).
  { subst w3. simpl. unfold core in Hc2. injection Hc2 as _ _ _ _ Hp _ _ _.
    rewrite Hp. exact Ep. }
  eapply ok_trans.
  - apply (compatModeCreated_recorded modeId p o w HI Hact); [congruence | reflexivity].
  - intros HI'. apply core_ok; [|exact HI'].
    rewrite (core_complete _ _ _ _ Hp3). subst w3. symmetry. by apply core_then_cong.
Qed.

Lemma run_requests_ok (ids : string -> Prop) w queue : forall w0,
  (forall request, request ∈ queue -> ids (target request w)) ->
  languageExtensions w0 = languageExtensions w ->
  Inv w0 /\ extends w w0 /\ created_only ids w w0 ->
  let w' := fold_left (fun w request => run_request request w) queue w0 in
  Inv w' /\ extends w w' /\ created_only ids w w'.
Proof.
  induction queue as [|request queue IH]; intros w0 Hids Hr0 H0; simpl; [exact H0|].
  assert (Htarget : target request w0 = target request w).
  { unfold target, getModeId, getModeIdByLanguageName, getModeIdByFilenameOrFirstLine.
    by rewrite Hr0. }
  destruct H0 as (HI0 & He0 & Hc0).
  destruct (run_request_ok request w0 HI0) as (HI1 & He1 & Hc1).
  apply IH.
  - intros r Hr. apply Hids. by right.
  - rewrite (ext_registry _ _ He1). exact Hr0.
  - eapply (ok_trans _ w w0); [exact (conj HI0 (conj He0 Hc0))|]. intros _.
    split; [exact HI1|]. split; [exact He1|].
    intros i m' Hm' Hlen. rewrite <- (Hc1 i m' Hm' Hlen), Htarget.
    apply Hids. by left.
Qed.

Lemma pluginsBecomeReady_ok w :
  Inv w ->
  let w' := pluginsBecomeReady w in
  Inv w' /\ extends w w'
  /\ created_only (fun id => exists request, request ∈ deferred w /\ target request w = id)
       w w'.
Proof.
  intros HI. unfold pluginsBecomeReady.
  destruct (pluginsReady w) eqn:Hready; [by apply core_ok|].
  apply run_requests_ok.
  - intros request Hin. by exists request.
  - reflexivity.
  - destruct HI as [H1 H2 H3 H4 H5 H6 H7 H8 H9 H10].
    split; [split; simpl; eauto|]. split; [split; simpl; eauto|].
    + intros i m' Hm' Hlen. apply lookup_lt_Some in Hm'. simpl in *. lia.
    + by apply created_only_refl.
Qed.

(** Every step keeps the invariant, only adds to what is known, and creates
    modes only for the ids it concerns. *)
Lemma exec_ok c w :
  Inv w ->
  Inv (exec c w) /\ extends w (exec c w) /\ created_only (concerns c w) w (exec c w).
Proof.
  intros HI. destruct c; simpl.
  - by apply (run_request_ok (ByMimetypesOrIds s)).
  - by apply (run_request_ok (ByLanguageName languageName)).
  - by apply (run_request_ok (ByFilenameOrFirstLine filename firstLine)).
  - by apply getMode_ok.
  - by apply configureModeById_ok.
  - by apply configureMode_ok.
  - by apply registerModeSupport_ok.
  - by apply pluginsBecomeReady_ok.
  - by apply compatModeCreated_ok.
  - by apply compatModeFailed_ok.
Qed.

Lemma Inv_new registry ready : Inv (new_ModeServiceImpl registry ready).
Proof. split; simpl; intros; try done. Qed.

Lemma run_ok history : forall w,
  Inv w -> Inv (run history w) /\ extends w (run history w).
Proof.
  induction history as [|c history IH]; intros w HI; simpl.
  - split; [exact HI | apply extends_refl].
  - destruct (exec_ok c w HI) as (HI1 & He1 & _).
    destruct (IH _ HI1) as (HI2 & He2).
    split; [exact HI2 | by eapply extends_trans].
Qed.


(** *** Counting instances *)






Example service_example :
  map getId (modes example_world) = ["ini"]
  /\ _instantiatedModes example_world !! "ini" = Some 0%nat
  /\ _activationPromises example_world !! "html" = Some 1%nat
  /\ (_getOrCreateMode "html" example_world).2 = TPromise_new 1
  /\ map getId (modes (exec (compat_mode_created "html" false true) example_world))
     = ["ini"; "html"]
  /\ (getMode "html" (exec (compat_mode_created "html" false true) example_world)).2
     = Some 1%nat.
Proof. by repeat split. Qed.


(** *** Frankenstein modes and support fragments *)






(** *** Requests never fail for want of a mode id *)

Lemma orPlaintext_head_nil : orPlaintext (head []) = "plaintext".
Proof. reflexivity. Qed.


Lemma getOrCreate_ready request w :
  pluginsReady w = true ->
  getOrCreate request w = _getOrCreateMode (target request w) w.
Proof.
  intros Hready.
  destruct request; simpl;
    unfold getOrCreateMode, getOrCreateModeByLanguageName,
      getOrCreateModeByFilenameOrFirstLine, onReady_then; by rewrite Hready.
Qed.

Lemma getOrCreate_not_ready request w :
  pluginsReady w = false ->
  getOrCreate request w
  = (with_plugins false (deferred w ++ [request]) w, TPromise_onReady (length (deferred w))).
Proof.
  intros Hready.
  destruct request; simpl;
    unfold getOrCreateMode, getOrCreateModeByLanguageName,
      getOrCreateModeByFilenameOrFirstLine, onReady_then; by rewrite Hready.
Qed.






(** *** Configuration *)

Lemma config_registerModeSupport_then modeId support callback mode w :
  _config (registerModeSupport_then modeId support callback mode w).1 = _config w.
Proof.
  unfold registerModeSupport_then, registerSupport.
  destruct (modes w !! mode) as [m|]; [|reflexivity].
  by destruct (has_registerSupport m).
Qed.

Lemma config_waiters mode (ws : list (string * string * nat)) : forall w,
  _config (fold_left (fun w '(modeId, support, callback) =>
                        (registerModeSupport_then modeId support callback mode w).1) ws w)
  = _config w.
Proof.
  induction ws as [|[[modeId support] callback] ws IH]; intros w; simpl; [reflexivity|].
  rewrite IH. apply config_registerModeSupport_then.
Qed.

Lemma config_complete p mode w : _config (complete p mode w) = _config w.
Proof.
  unfold complete. destruct (promises w !! p) as [cell|]; [|reflexivity].
  by rewrite config_waiters.
Qed.

Lemma config__getOrCreateMode modeId w :
  _config (_getOrCreateMode modeId w).1 = _config w.
Proof.
  unfold _getOrCreateMode, _createMode, _getOrCreateFrankensteinMode.
  destruct (_instantiatedModes w !! modeId); [reflexivity|].
  destruct (_activationPromises w !! modeId); [reflexivity|]. simpl.
  destruct (getCompatMode (languageExtensions w) modeId); [reflexivity|].
  destruct (_frankensteinModes w !! modeId); simpl; by rewrite config_complete.
Qed.

Lemma config_getMode s w : _config (getMode s w).1 = _config w.
Proof.
  unfold getMode. destruct (getMode_loop _ _ _) as [mode|[|]]; [reflexivity| |reflexivity].
  unfold getOrCreateMode, onReady_then. destruct (pluginsReady w); [|reflexivity].
  pose proof (config__getOrCreateMode (orPlaintext (getModeId s w)) w) as H.
  by destruct (_getOrCreateMode (orPlaintext (getModeId s w)) w).
Qed.

Lemma configureModeById_noop modeId options w :
  equals (getConfigurationForMode modeId w)
         (mixin (clone (getConfigurationForMode modeId w)) options) = true ->
  configureModeById modeId options w = w.
Proof.
  intros H. unfold configureModeById.
  change (match _config w !! modeId with
          | Some o => or_else o (object [])
          | None => object []
          end) with (getConfigurationForMode modeId w).
  by rewrite H.
Qed.

Lemma configureModeById_changed modeId options w :
  equals (getConfigurationForMode modeId w)
         (mixin (clone (getConfigurationForMode modeId w)) options) = false ->
  _config (configureModeById modeId options w)
  = <[modeId := mixin (clone (getConfigurationForMode modeId w)) options]> (_config w).
Proof.
  intros H. unfold configureModeById.
  change (match _config w !! modeId with
          | Some o => or_else o (object [])
          | None => object []
          end) with (getConfigurationForMode modeId w).
  rewrite H.
  set (w1 := with_config _ w).
  pose proof (config_getMode modeId w1) as Hc.
  destruct (getMode modeId w1) as [w2 [m|]]; simpl in Hc; [|exact Hc].
  destruct (modes w2 !! m) as [o|]; [|exact Hc].
  destruct (has_configSupport o); exact Hc.
Qed.




End ModeServiceFacts.

(** ** The debug hover *)

Section DebugHoverFacts.
Import DebugHover.

Lemma lookup_remove_decorations (ids : list nat) : forall (ds : gmap nat Decoration) id,
  remove_decorations ids ds !! id = if decide (id ∈ ids) then None else ds !! id.
Proof.
  unfold remove_decorations.
  induction ids as [|x ids IH]; intros ds id.
  - destruct (decide (id ∈ [])) as [H|H]; [by apply elem_of_nil in H | reflexivity].
  - change (fold_left (fun ds id => delete id ds) (x :: ids) ds)
      with (fold_left (fun ds id => delete id ds) ids (delete x ds)).
    rewrite IH. destruct (decide (id ∈ ids)) as [Hin|Hnin].
    + rewrite decide_True by (by right). reflexivity.
    + destruct (decide (x = id)) as [->|Hne].
      * rewrite decide_True by (by left). apply lookup_delete_eq.
      * rewrite decide_False by (rewrite elem_of_cons; intros [?|?]; congruence).
        by apply lookup_delete_ne.
Qed.

Lemma hover_inv_doShow p e force w : hover_inv w -> hover_inv (doShow p e force w).
Proof.
  intros (H1 & H2 & H3). unfold doShow.
  destruct ((0 <? reference e) && negb force); simpl; by repeat split.
Qed.

Lemma hover_inv_layoutTree n w : hover_inv w -> hover_inv (layoutTree n w).
Proof.
  intros HI. unfold layoutTree. destruct (n =? 0).
  - destruct (tree_input w); [by apply hover_inv_doShow|].
    destruct HI as (H1 & H2 & H3). by repeat split.
  - destruct (treeContainer_height w =? _); [exact HI|].
    destruct HI as (H1 & H2 & H3). by repeat split.
Qed.

Lemma hover_inv_hide w : hover_inv w -> hover_inv (hide w).
Proof.
  intros HI. unfold hide. destruct (isVisible w); simpl; [|exact HI].
  repeat split; simpl; auto; try lia. intros id Hid. by apply elem_of_nil in Hid.
Qed.

Lemma deltaDecorations_one old d w :
  (deltaDecorations old [d] w).2 = [nextDecorationId w]
  /\ decorations (deltaDecorations old [d] w).1
     = <[nextDecorationId w := d]> (remove_decorations old (decorations w))
  /\ nextDecorationId (deltaDecorations old [d] w).1 = S (nextDecorationId w)
  /\ isVisible (deltaDecorations old [d] w).1 = isVisible w
  /\ showAtPosition (deltaDecorations old [d] w).1 = showAtPosition w.
Proof. by repeat split. Qed.

Lemma showAt_done_shown h e w :
  available e = true ->
  showAt_done h (Some e) w
  = doShow (Some (pos h)) e false
      (set_highlightDecorations [nextDecorationId w]
         (deltaDecorations (highlightDecorations w) [hoverHighlight h] w).1).
Proof. intros He. unfold showAt_done. by rewrite He. Qed.

Lemma doShow_decorations p e force w :
  highlightDecorations (doShow p e force w) = highlightDecorations w
  /\ decorations (doShow p e force w) = decorations w
  /\ nextDecorationId (doShow p e force w) = nextDecorationId w
  /\ isVisible (doShow p e force w) = true
  /\ showAtPosition (doShow p e force w) = p.
Proof. unfold doShow. by destruct ((0 <? reference e) && negb force). Qed.

Lemma hover_inv_showAt_done h expression w :
  hover_inv w -> hover_inv (showAt_done h expression w).
Proof.
  intros HI.
  destruct expression as [e|]; [|by apply hover_inv_hide].
  destruct (available e) eqn:He; [|unfold showAt_done; rewrite He; by apply hover_inv_hide].
  rewrite (showAt_done_shown h e w He).
  destruct (doShow_decorations (Some (pos h)) e false
              (set_highlightDecorations [nextDecorationId w]
                 (deltaDecorations (highlightDecorations w) [hoverHighlight h] w).1))
    as (Hh & _ & Hn & Hv & _).
  unfold hover_inv. rewrite Hh, Hn, Hv. simpl. split; [discriminate|]. split; [lia|].
  intros id Hid. apply list_elem_of_singleton in Hid. lia.
Qed.

Lemma hover_inv_exec e w : hover_inv w -> hover_inv (exec e w).
Proof.
  intros HI. destruct e; simpl.
  - unfold showAt. by destruct (_ || _).
  - by apply hover_inv_showAt_done.
  - by apply hover_inv_hide.
  - unfold tree_input_set. destruct (hover_inv_layoutTree visibleElementsCount w HI)
      as (H1 & H2 & H3). by repeat split.
  - by apply hover_inv_layoutTree.
  - destruct HI as (H1 & H2 & H3). by repeat split.
Qed.

Lemma hover_inv_reachable w : reachable w -> hover_inv w.
Proof.
  intros (m & frame & history & ->).
  assert (H0 : hover_inv (new_DebugHoverWidget m frame)).
  { repeat split; simpl; auto. intros id Hid. by apply elem_of_nil in Hid. }
  revert H0. generalize (new_DebugHoverWidget m frame).
  induction history as [|e history IH]; intros w HI; simpl; [exact HI|].
  by apply IH, hover_inv_exec.
Qed.

Example showAt_example :
  showAt example_range "foo"
    (new_DebugHoverWidget example_model (Some {| source_uri := "file:///app.js" |}))
  = (new_DebugHoverWidget example_model (Some {| source_uri := "file:///app.js" |}),
     Some example_hover)
  /\ range (hoverHighlight example_hover)
     = {| startLineNumber := 2; startColumn := 12; endLineNumber := 2; endColumn := 15 |}
  /\ highlightDecorations example_world = [0%nat]
  /\ decorations example_world !! 0%nat = Some (hoverHighlight example_hover).
Proof. by repeat split. Qed.

(** C4: [showAt] returns at its guard, leaving the widget and the editor as
    they are and without asking for an expression, when the hovered word
    is empty, no stack frame is focused, or the focused frame's source is
    not the model's resource (and goes on to ask for the expression
    otherwise); when the expression comes back missing or not available,
    the callback is [hide]: afterwards the widget is not visible and no
    decoration has been added. *)
Theorem showAt_guard_and_unavailable (w : World) (range : Range) (word : string) :
  ((word = ""
    \/ focusedStackFrame w = None
    \/ (exists frame, focusedStackFrame w = Some frame
                      /\ source_uri frame <> associatedResource (model w))) ->
   showAt range word w = (w, None))
  /\ (word <> "" ->
      (exists frame, focusedStackFrame w = Some frame
                     /\ source_uri frame = associatedResource (model w)) ->
      exists pending,
        showAt range word w = (w, Some pending)
        /\ pos pending = getStartPosition range /\ hoveringOver pending = word
        /\ lineContent pending = getLineContent (model w) (startLineNumber range))
  /\ (forall h expression,
        (expression = None \/ exists e, expression = Some e /\ available e = false) ->
        showAt_done h expression w = hide w
        /\ isVisible (showAt_done h expression w) = false
        /\ forall id d, decorations (showAt_done h expression w) !! id = Some d ->
                        decorations w !! id = Some d).
Proof.
  split; [|split].
  - intros Hguard. unfold showAt.
    destruct Hguard as [->|[Hnone|(frame & Hframe & Hne)]]; [reflexivity| |].
    + rewrite Hnone. by rewrite orb_true_r.
    + rewrite Hframe. apply String.eqb_neq in Hne. rewrite Hne. by rewrite orb_true_r.
  - intros Hword (frame & Hframe & Huri). unfold showAt.
    rewrite Hframe. apply String.eqb_eq in Huri. rewrite Huri.
    destruct word; [done|]. simpl. eexists. by repeat split.
  - intros h expression Hmissing.
    assert (Heq : showAt_done h expression w = hide w).
    { destruct Hmissing as [->|(e & -> & He)]; [reflexivity|].
      unfold showAt_done. by rewrite He. }
    rewrite Heq. split; [reflexivity|]. unfold hide.
    destruct (isVisible w) eqn:Hv; simpl; [|by split].
    split; [reflexivity|]. intros id d. rewrite lookup_remove_decorations.
    by case_decide.
Qed.

Lemma showAt_guard_and_unavailable_witness :
  showAt example_range "" example_world = (example_world, None).
Proof.
  apply (showAt_guard_and_unavailable example_world). by left.
Defined.

Lemma hide_showAtPosition w : showAtPosition (hide w) = showAtPosition w.
Proof. unfold hide. by destruct (isVisible w). Qed.

Lemma layoutTree_showAtPosition n w : showAtPosition (layoutTree n w) = showAtPosition w.
Proof.
  unfold layoutTree. destruct (n =? 0).
  - destruct (tree_input w); [apply doShow_decorations | reflexivity].
  - by destruct (treeContainer_height w =? _).
Qed.

Lemma showAtPosition_exec e w :
  showAtPosition (exec e w)
  = match e with
    | expression_resolved h (Some expr) =>
        if available expr then Some (pos h) else showAtPosition w
    | _ => showAtPosition w
    end.
Proof.
  destruct e as [range word|h [expr|]| |n|n|m frame]; unfold exec.
  - unfold showAt. by destruct (_ || _).
  - destruct (available expr) eqn:He.
    + rewrite (showAt_done_shown h expr w He). apply doShow_decorations.
    + unfold showAt_done. rewrite He. apply hide_showAtPosition.
  - apply hide_showAtPosition.
  - apply hide_showAtPosition.
  - unfold tree_input_set. simpl. apply layoutTree_showAtPosition.
  - apply layoutTree_showAtPosition.
  - reflexivity.
Qed.

Lemma showAtPosition_run history : forall w,
  showAtPosition (run history w)
  = fold_left (fun shown e =>
                 match e with
                 | expression_resolved h (Some expr) =>
                     if available expr then Some (pos h) else shown
                 | _ => shown
                 end) history (showAtPosition w).
Proof.
  induction history as [|e history IH]; intros w; simpl; [reflexivity|].
  rewrite IH, showAtPosition_exec. by destruct e as [| ? [?|] | | | |].
Qed.

(** C6: after any history of the widget, [getPosition] is [null] when the
    widget is not visible, and when it is visible it is the position of the
    last hover that was shown, with preference [ABOVE] then [BELOW]; right
    after a hover is shown this is the start position of the hovered
    range. *)
Theorem getPosition_last_shown (m : Model) (frame : option StackFrame)
  (history : list Event) :
  let w := run history (new_DebugHoverWidget m frame) in
  (isVisible w = true ->
   getPosition w = Some {| position := last_shown history; preference := [ABOVE; BELOW] |})
  /\ (isVisible w = false -> getPosition w = None)
  /\ (forall h e, available e = true ->
        getPosition (showAt_done h (Some e) w)
        = Some {| position := Some (pos h); preference := [ABOVE; BELOW] |}).
Proof.
  intros w. unfold getPosition. split; [|split].
  - intros ->. subst w. by rewrite showAtPosition_run.
  - by intros ->.
  - intros h e He. rewrite (showAt_done_shown h e w He).
    destruct (doShow_decorations (Some (pos h)) e false
                (set_highlightDecorations [nextDecorationId w]
                   (deltaDecorations (highlightDecorations w) [hoverHighlight h] w).1))
      as (_ & _ & _ & Hv & Hp).
    by rewrite Hv, Hp.
Qed.

Lemma getPosition_last_shown_witness :
  isVisible example_world = true
  /\ getPosition example_world
     = Some {| position := Some {| lineNumber := 2; column := 12 |};
               preference := [ABOVE; BELOW] |}.
Proof.
  split; [reflexivity|].
  apply (getPosition_last_shown example_model (Some {| source_uri := "file:///app.js" |})
           example_history).
  reflexivity.
Defined.

(** C7: in every state the widget can reach, showing a hover replaces the
    widget's highlight by exactly one decoration: the editor loses the
    decorations the widget held and gains one, of class ['hoverHighlight'],
    on the hovered line, from one past the first index of the word in the
    line to that plus the length of the word; [hide] removes the
    decorations the widget held and leaves its list empty; and [hide] on a
    widget that is not visible returns the same world (no decoration or
    layout call). *)
Theorem hover_highlight_decorations (w : World) :
  reachable w ->
  (forall h e, available e = true ->
     let w' := showAt_done h (Some e) w in
     exists id,
       highlightDecorations w' = [id]
       /\ decorations w'
          = <[id := hoverHighlight h]>
              (remove_decorations (highlightDecorations w) (decorations w))
       /\ (forall old, old ∈ highlightDecorations w -> decorations w' !! old = None)
       /\ className (hoverHighlight h) = "hoverHighlight"
       /\ startLineNumber (range (hoverHighlight h)) = lineNumber (pos h)
       /\ endLineNumber (range (hoverHighlight h)) = lineNumber (pos h)
       /\ (forall i, first_index (lineContent h) (hoveringOver h) i ->
             startColumn (range (hoverHighlight h)) = Z.of_nat i + 1
             /\ endColumn (range (hoverHighlight h))
                = startColumn (range (hoverHighlight h))
                  + Z.of_nat (String.length (hoveringOver h))))
  /\ (highlightDecorations (hide w) = []
      /\ decorations (hide w)
         = remove_decorations (highlightDecorations w) (decorations w)
      /\ forall old, old ∈ highlightDecorations w -> decorations (hide w) !! old = None)
  /\ (isVisible w = false -> hide w = w).
Proof.
  intros Hreach. destruct (hover_inv_reachable w Hreach) as (Hhidden & Hlen & Hids).
  split; [|split].
  - intros h e He w'. exists (nextDecorationId w). subst w'.
    rewrite (showAt_done_shown h e w He).
    destruct (doShow_decorations (Some (pos h)) e false
                (set_highlightDecorations [nextDecorationId w]
                   (deltaDecorations (highlightDecorations w) [hoverHighlight h] w).1))
      as (Hh & Hd & _ & _ & _).
    rewrite Hh, Hd. simpl. split; [reflexivity|]. split; [reflexivity|].
    split; [|split; [reflexivity|split; [reflexivity|split; [reflexivity|]]]].
    + intros old Hold. pose proof (Hids old Hold).
      rewrite lookup_insert_ne by lia. rewrite lookup_remove_decorations.
      by rewrite decide_True.
    + intros i [Hocc Hmin]. rewrite (indexOf_first _ _ i Hocc Hmin). by split.
  - unfold hide. destruct (isVisible w) eqn:Hv; simpl.
    + split; [reflexivity|]. split; [reflexivity|].
      intros old Hold. rewrite lookup_remove_decorations. by rewrite decide_True.
    + rewrite (Hhidden eq_refl). split; [reflexivity|]. split; [reflexivity|].
      intros old Hold. by apply elem_of_nil in Hold.
  - intros Hv. unfold hide. by rewrite Hv.
Qed.

Lemma hover_highlight_decorations_witness :
  reachable example_world /\ highlightDecorations (hide example_world) = [].
Proof.
  assert (H : reachable example_world).
  { exists example_model, (Some {| source_uri := "file:///app.js" |}), example_history.
    reflexivity. }
  split; [exact H|]. apply (hover_highlight_decorations example_world H).
Defined.

End DebugHoverFacts.

(** ** The command line installer *)

Section CLIFacts.
Import CLI.
Context {W : Type} (h : Handler W).

Lemma interp_then {A B : Type} (p : Promise A) (f : A -> Promise B)
  (g : Error -> Promise B) : forall w,
  interp h (then_ p f g) w
  = let '(r, w1, t1) := interp h p w in
    let '(r2, w2, t2) := match r with
                         | Ok value => interp h (f value) w1
                         | Err err => interp h (g err) w1
                         end in
    (r2, w2, t1 ++ t2).
Proof.
  induction p as [value|err|X c k IH]; intros w; simpl.
  - by destruct (interp h (f value) w) as [[r2 w2] t2].
  - by destruct (interp h (g err) w) as [[r2 w2] t2].
  - destruct (h X c w) as [o w0]. rewrite IH.
    destruct (interp h (k o) w0) as [[r w1] t1].
    by destruct (match r with
                 | Ok value => interp h (f value) w1
                 | Err err => interp h (g err) w1
                 end) as [[r2 w2] t2].
Qed.

Lemma interp_perform {X : Type} (c : Command X) w :
  interp h (perform c) w = ((h X c w).1, (h X c w).2, [event c (h X c w).1]).
Proof.
  unfold perform. simpl. destruct (h X c w) as [[value|err] w0]; reflexivity.
Qed.







(** *** [checkLegacy] *)

Lemma interp_bind {A B : Type} (p : Promise A) (f : A -> Promise B) w :
  interp h (bind p f) w
  = let '(r, w1, t1) := interp h p w in
    let '(r2, w2, t2) := match r with
                         | Ok value => interp h (f value) w1
                         | Err err => (Err err, w1, [])
                         end in
    (r2, w2, t1 ++ t2).
Proof. unfold bind. by rewrite interp_then. Qed.

Lemma interp_settle_read f w :
  interp h (settle (readOrEmpty f)) w
  = (Ok (readOrEmpty_outcome (h _ (pfs_readFile f "utf8") w).1),
     (h _ (pfs_readFile f "utf8") w).2,
     [event (pfs_readFile f "utf8") (h _ (pfs_readFile f "utf8") w).1]).
Proof.
  unfold settle, readOrEmpty, catch, perform, ignore, readOrEmpty_outcome. simpl.
  destruct (h string (pfs_readFile f "utf8") w) as [[contents|err] w1]; simpl;
    [reflexivity|]. by case_bool_decide.
Qed.

Lemma interp_checkLegacy env w :
  let f1 := path_join (homedir env) ".bash_profile" in
  let f2 := path_join (homedir env) ".bashrc" in
  let f3 := path_join (homedir env) ".zshrc" in
  let a1 := h _ (pfs_readFile f1 "utf8") w in
  let a2 := h _ (pfs_readFile f2 "utf8") a1.2 in
  let a3 := h _ (pfs_readFile f3 "utf8") a2.2 in
  let outcomes := [readOrEmpty_outcome a1.1; readOrEmpty_outcome a2.1;
                   readOrEmpty_outcome a3.1] in
  interp h (checkLegacy env) w
  = (match values outcomes with
     | Some result =>
         Ok (fold_left (checkLegacy_reduce env [f1; f2; f3]) result ([], 0%nat)).1
     | None => Err (JoinError (map error_of outcomes))
     end,
     a3.2,
     [event (pfs_readFile f1 "utf8") a1.1; event (pfs_readFile f2 "utf8") a2.1;
      event (pfs_readFile f3 "utf8") a3.1]).
Proof.
  intros f1 f2 f3 a1 a2 a3 outcomes.
  unfold checkLegacy, join, legacy_files. fold f1 f2 f3.
  repeat progress (rewrite ?interp_bind, ?interp_settle_read;
                   cbn [interp app map settle_all]; cbv beta iota zeta).
  fold a1 a2 a3. fold outcomes.
  destruct (values outcomes); cbn [interp app]; cbv beta iota zeta; reflexivity.
Qed.

(** C3: [checkLegacy] reads exactly the three shell profiles
    [~/.bash_profile], [~/.bashrc] and [~/.zshrc], in this order and whatever
    the environment answers; with a missing file ([ENOENT]) read as the
    empty string, it returns the paths, in that order, of the files whose
    contents contain the configured bundle identifier; and when this list
    is not empty [run] only shows the warning about its first file: its
    whole trace is the three reads and the message. *)
Theorem checkLegacy_three_profiles (env : Env) (w : W) :
  let f1 := path_join (homedir env) ".bash_profile" in
  let f2 := path_join (homedir env) ".bashrc" in
  let f3 := path_join (homedir env) ".zshrc" in
  let a1 := h _ (pfs_readFile f1 "utf8") w in
  let a2 := h _ (pfs_readFile f2 "utf8") a1.2 in
  let a3 := h _ (pfs_readFile f3 "utf8") a2.2 in
  let reads := [event (pfs_readFile f1 "utf8") a1.1; event (pfs_readFile f2 "utf8") a2.1;
                event (pfs_readFile f3 "utf8") a3.1] in
  let found := interp h (checkLegacy env) w in
  let mentions := fun contents : string =>
                    -1 <? JSString.indexOf contents (darwinBundleIdentifier env) in
  found.2 = reads
  /\ List.filter is_readFile found.2 = found.2
  /\ (forall c1 c2 c3,
        readOrEmpty_outcome a1.1 = Ok c1 ->
        readOrEmpty_outcome a2.1 = Ok c2 ->
        readOrEmpty_outcome a3.1 = Ok c3 ->
        found.1.1
        = Ok (map fst (List.filter (fun fc => mentions fc.2)
                         [(f1, c1); (f2, c2); (f3, c3)])))
  /\ readOrEmpty_outcome (Err (SystemError "ENOENT")) = Ok ""
  /\ (forall contents,
        mentions contents = true
        <-> JSString.contains contents (darwinBundleIdentifier env))
  /\ (forall file rest,
        found.1.1 = Ok (file :: rest) ->
        let warning := messageService_show Warning (legacy_warning file) in
        let shown := h _ warning a3.2 in
        interp h (run env) w = (shown.1, shown.2, reads ++ [event warning shown.1])
        /\ List.filter touches_system (interp h (run env) w).2 = reads
        /\ List.filter is_unlink (interp h (run env) w).2 = []
        /\ List.filter is_symlink (interp h (run env) w).2 = []).
Proof.
  intros f1 f2 f3 a1 a2 a3 reads found mentions.
  assert (Hfound : found = interp h (checkLegacy env) w) by reflexivity.
  rewrite interp_checkLegacy in Hfound. cbv zeta in Hfound. fold f1 f2 f3 in Hfound.
  fold a1 a2 a3 in Hfound. fold reads in Hfound.
  split; [by rewrite Hfound|]. split; [by rewrite Hfound|].
  split; [|split; [reflexivity|split]].
  - intros c1 c2 c3 H1 H2 H3. rewrite Hfound, H1, H2, H3.
    cbn [values option_map fst snd fold_left checkLegacy_reduce List.filter map].
    fold (mentions c1) (mentions c2) (mentions c3).
    by destruct (mentions c1), (mentions c2), (mentions c3).
  - intros contents. unfold mentions. rewrite Z.ltb_lt.
    rewrite <- indexOf_contains. lia.
  - intros file rest Hresult warning shown.
    assert (Hrun : interp h (run env) w
                   = (shown.1, shown.2, reads ++ [event warning shown.1])).
    { unfold run. rewrite interp_bind. fold found.
      destruct found as [[r w1] t1]. cbn [fst snd] in *.
      injection Hfound as -> -> ->. rewrite Hresult.
      change ((0 <? length (file :: rest))%nat) with true. cbv iota.
      change (default "" (head (file :: rest))) with file. fold warning.
      rewrite interp_bind, interp_perform. fold shown.
      cbn [interp]. destruct shown as [[[]|err] w2]; cbn [fst snd app];
        by rewrite ?app_nil_r. }
    rewrite Hrun. cbn [fst snd].
    rewrite !List.filter_app. by repeat split.
Qed.

End CLIFacts.

Example run_example :
  (CLI.interp CLI.example_handler (CLI.run CLI.example_env) CLI.example_fs).2
  = [ CLI.event (CLI.pfs_readFile "/Users/me/.bash_profile" "utf8")
        (CLI.Err (CLI.SystemError "ENOENT"));
      CLI.event (CLI.pfs_readFile "/Users/me/.bashrc" "utf8")
        (CLI.Ok "export PATH=$PATH:/opt/bin");
      CLI.event (CLI.pfs_readFile "/Users/me/.zshrc" "utf8")
        (CLI.Err (CLI.SystemError "ENOENT"));
      CLI.event (CLI.pfs_lstat "/usr/local/bin/code") (CLI.Err (CLI.SystemError "ENOENT"));
      CLI.event (CLI.pfs_unlink "/usr/local/bin/code") (CLI.Err (CLI.SystemError "ENOENT"));
      CLI.event (CLI.pfs_symlink "/Applications/Code.app/bin/code" "/usr/local/bin/code")
        (CLI.Err (CLI.SystemError "ENOENT"));
      CLI.event (CLI.cp_exec CLI.createBinFolder_command) (CLI.Ok tt);
      CLI.event (CLI.pfs_unlink "/usr/local/bin/code") (CLI.Err (CLI.SystemError "ENOENT"));
      CLI.event (CLI.pfs_symlink "/Applications/Code.app/bin/code" "/usr/local/bin/code")
        (CLI.Ok tt);
      CLI.event (CLI.messageService_show CLI.Info (CLI.success_message CLI.example_env))
        (CLI.Ok tt) ].
Proof. reflexivity. Qed.

Lemma checkLegacy_three_profiles_witness :
  (CLI.interp CLI.example_handler (CLI.checkLegacy CLI.example_env)
     CLI.example_legacy_fs).1.1 = CLI.Ok ["/Users/me/.zshrc"]
  /\ List.filter CLI.touches_system
       (CLI.interp CLI.example_handler (CLI.run CLI.example_env) CLI.example_legacy_fs).2
     = (CLI.interp CLI.example_handler (CLI.checkLegacy CLI.example_env)
          CLI.example_legacy_fs).2.
Proof.
  split; [reflexivity|].
  destruct (checkLegacy_three_profiles CLI.example_handler CLI.example_env
              CLI.example_legacy_fs) as (Hreads & _ & _ & _ & _ & Hrun).
  rewrite Hreads.
  by destruct (Hrun "/Users/me/.zshrc" [] eq_refl) as (_ & Htouch & _).
Defined.


(** ** The JavaScript mode *)

Section JSModeFacts.
Import JSMode.

(** C8: the rich edit support of [JSMode] is the fixed table: line comment
    [//], block comment [/*] .. [*/], the three bracket pairs, exactly five
    auto-closing pairs (the three brackets, the double quote except in
    strings, the single quote except in strings and comments), and four
    on-enter rules, each of which fires inside a JSDoc comment. *)
Theorem JSMode_richEditSupport_table :
  lineComment (comments richEditSupport) = "//"
  /\ blockComment (comments richEditSupport) = ("/*", "*/")
  /\ brackets richEditSupport = [ ("{", "}"); ("[", "]"); ("(", ")") ]
  /\ length (autoClosingPairs richEditSupport) = 5%nat
  /\ map (fun p => (open p, close p, notIn p)) (autoClosingPairs richEditSupport)
     = [ ("{", "}", []); ("[", "]", []); ("(", ")", []);
         (doubleQuote, doubleQuote, ["string"]);
         ("'", "'", ["string"; "comment"]) ]
  /\ map (fun p => (open p, close p)) (take 3 (autoClosingPairs richEditSupport))
     = brackets richEditSupport
  /\ length (onEnterRules richEditSupport) = 4%nat
  /\ forallb continues_doc_comment (onEnterRules richEditSupport) = true
  /\ map (fun r => (indentAction (action r), appendText (action r), removeText (action r)))
         (onEnterRules richEditSupport)
     = [ (IndentOutdent, Some " * ", None); (IndentAction_None, Some " * ", None);
         (IndentAction_None, Some "* ", None); (IndentAction_None, None, Some 1) ].
Proof. by repeat split. Qed.

End JSModeFacts.

(** ** The other command line actions *)

Section CLIActionsFacts.
Import CLI CLITraces.
Context {W : Type} (h : Handler W).

(** [isInstalled] asks [lstat] and, when that answers, [readlink]; what
    [lstat] says about the file is not looked at. *)
Lemma interp_isInstalled env w :
  interp h (isInstalled env) w
  = let l := h _ (pfs_lstat (target env)) w in
    match l.1 with
    | Ok _ =>
        let r := h _ (pfs_readlink (target env)) l.2 in
        (match r.1 with
         | Ok link => Ok (String.eqb link (source env))
         | Err err => if bool_decide (code_of err = Some "ENOENT") then Ok false else Err err
         end, r.2,
         [event (pfs_lstat (target env)) l.1; event (pfs_readlink (target env)) r.1])
    | Err err =>
        (if bool_decide (code_of err = Some "ENOENT") then Ok false else Err err, l.2,
         [event (pfs_lstat (target env)) l.1])
    end.
Proof.
  unfold isInstalled, catch, bind, ignore, perform. simpl.
  destruct (h Stats (pfs_lstat (target env)) w) as [[stat|err] w1]; simpl.
  - destruct (h string (pfs_readlink (target env)) w1) as [[link|err] w2]; simpl;
      [reflexivity|]. by case_bool_decide.
  - by case_bool_decide.
Qed.

Lemma interp_uninstall env w :
  interp h (UninstallAction.run env) w
  = let u := h _ (pfs_unlink (target env)) w in
    if unlinked u.1
    then let shown := h _ (messageService_show Info (UninstallAction.success_message env)) u.2 in
         (shown.1, shown.2,
          [event (pfs_unlink (target env)) u.1;
           event (messageService_show Info (UninstallAction.success_message env)) shown.1])
    else (u.1, u.2, [event (pfs_unlink (target env)) u.1]).
Proof.
  unfold UninstallAction.run, bind, catch, ignore, unlinked. simpl.
  destruct (h unit (pfs_unlink (target env)) w) as [[[]|err] w1]; simpl.
  - by destruct (h unit (messageService_show Info (UninstallAction.success_message env)) w1)
      as [[[]|e] w2].
  - case_bool_decide; simpl; [|reflexivity].
    by destruct (h unit (messageService_show Info (UninstallAction.success_message env)) w1)
      as [[[]|e] w2].
Qed.

Lemma legacy_reads_quiet env w :
  List.filter modifies (legacy_reads h env w) = []
  /\ List.filter is_show (legacy_reads h env w) = [].
Proof. by split. Qed.

Lemma interp_isInstalled_quiet env w :
  List.filter modifies (interp h (isInstalled env) w).2 = []
  /\ List.filter is_show (interp h (isInstalled env) w).2 = [].
Proof.
  rewrite interp_isInstalled. cbv zeta.
  by destruct (h Stats (pfs_lstat (target env)) w).1.
Qed.

Lemma interp_checkLegacy_reads env w :
  (interp h (checkLegacy env) w).2 = legacy_reads h env w.
Proof. by rewrite (interp_checkLegacy h). Qed.

(** X1: [isInstalled] only looks.  It never removes or makes a link and runs
    no command; it answers [true] exactly when the target could be read as a
    link to the bundled source; a target reported missing ([ENOENT]) by
    [lstat] is answered [false] without reading the link; and an [lstat]
    or [readlink] that fails in another way rejects it with that error. *)
Theorem isInstalled_only_looks (env : Env) (w : W) :
  let l := h _ (pfs_lstat (target env)) w in
  let r := h _ (pfs_readlink (target env)) l.2 in
  let answer := (interp h (isInstalled env) w).1.1 in
  List.filter modifies (interp h (isInstalled env) w).2 = []
  /\ (answer = Ok true <-> (exists stat, l.1 = Ok stat) /\ r.1 = Ok (source env))
  /\ (forall err, l.1 = Err err -> code_of err = Some "ENOENT" ->
      interp h (isInstalled env) w = (Ok false, l.2, [event (pfs_lstat (target env)) l.1]))
  /\ (forall err, l.1 = Err err \/ ((exists stat, l.1 = Ok stat) /\ r.1 = Err err) ->
      code_of err <> Some "ENOENT" -> answer = Err err).
Proof.
  intros l r answer. split; [apply interp_isInstalled_quiet|].
  subst answer. rewrite interp_isInstalled. cbv zeta. fold l. fold r.
  destruct l.1 as [stat|e] eqn:El; cbn [fst snd].
  - split; [|split].
    + destruct r.1 as [link|e].
      * split.
        -- intros [= Heq]. apply String.eqb_eq in Heq. split; [by exists stat|by subst].
        -- intros [_ [= ->]]. by rewrite String.eqb_refl.
      * case_bool_decide; (split; [done|by intros [_ ?]]).
    + intros err [=].
    + intros err [[=]|[_ Hr]] Hcode. rewrite Hr. by rewrite bool_decide_eq_false_2.
  - split; [|split].
    + case_bool_decide; (split; [done|]); by intros [[stat [=]] _].
    + intros err [= <-] Hcode. by rewrite bool_decide_eq_true_2.
    + intros err [[= <-]|[[stat [=]] _]] Hcode. by rewrite bool_decide_eq_false_2.
Qed.

(** X2: [UninstallAction.run] removes the target and nothing else: its one
    call to the file system is the [unlink] of [/usr/local/bin/<name>].
    When the target was removed, or was not there ([ENOENT]), it shows the
    success message; on any other error it is rejected with that error and
    shows nothing. *)
Theorem uninstall_removes_only_the_target (env : Env) (w : W) :
  let u := h _ (pfs_unlink (target env)) w in
  let trace := (interp h (UninstallAction.run env) w).2 in
  List.filter touches_system trace = [event (pfs_unlink (target env)) u.1]
  /\ (unlinked u.1 = true ->
      exists o, List.filter is_show trace
                = [event (messageService_show Info (UninstallAction.success_message env)) o]
                /\ (interp h (UninstallAction.run env) w).1.1 = o)
  /\ (forall err, u.1 = Err err -> code_of err <> Some "ENOENT" ->
      (interp h (UninstallAction.run env) w).1.1 = Err err
      /\ List.filter is_show trace = []).
Proof.
  intros u trace. subst trace. rewrite interp_uninstall. cbv zeta. fold u.
  destruct (unlinked u.1) eqn:Hu; cbn [fst snd].
  - split; [reflexivity|]. split; [by eexists|].
    intros err Herr Hcode. rewrite Herr in Hu. simpl in Hu.
    by apply bool_decide_eq_true in Hu.
  - split; [reflexivity|]. split; [done|]. by intros err -> _.
Qed.

(** X3: when no shell profile mentions the bundle identifier and the link is
    already installed, or there is no bundled source to link to, [run]
    changes nothing: it reads the three profiles, looks at the target and
    shows the success message. *)
Theorem run_skips_install (env : Env) (w : W) (installed : bool) :
  let w1 := (interp h (checkLegacy env) w).1.2 in
  let w2 := (interp h (isInstalled env) w1).1.2 in
  let shown := h _ (messageService_show Info (success_message env)) w2 in
  (interp h (checkLegacy env) w).1.1 = Ok [] ->
  (interp h (isInstalled env) w1).1.1 = Ok installed ->
  negb (isAvailable env) || installed = true ->
  interp h (run env) w
  = (shown.1, shown.2,
     legacy_reads h env w ++ (interp h (isInstalled env) w1).2
     ++ [event (messageService_show Info (success_message env)) shown.1])
  /\ List.filter modifies (interp h (run env) w).2 = [].
Proof.
  intros w1 w2 shown Hfiles Hinst Hskip.
  assert (Hrun : interp h (run env) w
                 = (shown.1, shown.2,
                    legacy_reads h env w ++ (interp h (isInstalled env) w1).2
                    ++ [event (messageService_show Info (success_message env)) shown.1])).
  { unfold run. rewrite (interp_bind h). rewrite <- interp_checkLegacy_reads.
    subst shown w2 w1.
    destruct (interp h (checkLegacy env) w) as [[r wa] ta]. cbn [fst snd] in *.
    subst r. change ((0 <? length (@nil string))%nat) with false. cbv iota.
    rewrite !(interp_bind h).
    destruct (interp h (isInstalled env) wa) as [[r wb] tb]. cbn [fst snd] in *.
    subst r. rewrite Hskip. cbn [interp]. rewrite app_nil_r.
    rewrite (interp_perform h).
    destruct (h unit (messageService_show Info (success_message env)) wb) as [o wc].
    reflexivity. }
  split; [exact Hrun|]. rewrite Hrun. cbn [fst snd].
  rewrite !List.filter_app.
  destruct (legacy_reads_quiet env w) as [-> _].
  destruct (interp_isInstalled_quiet env w1) as [-> _]. reflexivity.
Qed.

(** X4: a shell profile that cannot be read, for another reason than being
    missing, stops everything: [checkLegacy] is rejected with the collected
    errors, after all three reads, and [run] and the start-up helper are
    rejected with the same error, having made these three reads and nothing
    else: no message is shown and the link is not touched. *)
Theorem unreadable_profile_rejects (env : Env) (w : W) (err : Error) (i : nat) :
  legacy_answers h env w !! i = Some (Err err) ->
  code_of err <> Some "ENOENT" ->
  exists errors,
    errors !! i = Some (Some err)
    /\ (interp h (checkLegacy env) w).1.1 = Err (JoinError errors)
    /\ (interp h (run env) w).1.1 = Err (JoinError errors)
    /\ (interp h (run env) w).2 = legacy_reads h env w
    /\ (interp h (DarwinCLIHelper.constructor env) w).1.1 = Err (JoinError errors)
    /\ (interp h (DarwinCLIHelper.constructor env) w).2 = legacy_reads h env w.
Proof.
  intros Hi Hcode.
  assert (Hlegacy : exists errors,
             errors !! i = Some (Some err)
             /\ interp h (checkLegacy env) w
                = (Err (JoinError errors), (interp h (checkLegacy env) w).1.2,
                   legacy_reads h env w)).
  { rewrite (interp_checkLegacy h). cbv zeta. unfold legacy_answers, legacy_reads in *.
    set (a1 := h string (pfs_readFile (path_join (homedir env) ".bash_profile") "utf8") w) in *.
    set (a2 := h string (pfs_readFile (path_join (homedir env) ".bashrc") "utf8") a1.2) in *.
    set (a3 := h string (pfs_readFile (path_join (homedir env) ".zshrc") "utf8") a2.2) in *.
    assert (Herr : readOrEmpty_outcome (Err err) = Err err).
    { unfold readOrEmpty_outcome. by rewrite bool_decide_eq_false_2. }
    destruct i as [|[|[|i]]]; simpl in Hi; [| | |done];
      injection Hi as Hi; rewrite Hi, Herr.
    - eexists. split; [|reflexivity]. reflexivity.
    - destruct (readOrEmpty_outcome a1.1); (eexists; split; [|reflexivity]; reflexivity).
    - destruct (readOrEmpty_outcome a1.1), (readOrEmpty_outcome a2.1);
        (eexists; split; [|reflexivity]; reflexivity). }
  destruct Hlegacy as (errors & Herrors & Hlegacy). exists errors.
  split; [exact Herrors|].
  unfold run, DarwinCLIHelper.constructor. rewrite !(interp_bind h), Hlegacy.
  cbn [fst snd]. by rewrite app_nil_r.
Qed.

(** X5: the start-up helper reads the three profiles and offers the update
    exactly when one of them mentions the bundle identifier; and in a world
    where it offers the update, [run] (what the offered action calls) only
    shows the warning about the first such file: it changes nothing. *)
Theorem helper_offer_only_warns (env : Env) (w : W) (files : list string) :
  let trace := (interp h (DarwinCLIHelper.constructor env) w).2 in
  let offer := messageService_show Info DarwinCLIHelper.update_message in
  (interp h (checkLegacy env) w).1.1 = Ok files ->
  List.filter touches_system trace = legacy_reads h env w
  /\ (files = [] -> List.filter is_show trace = [])
  /\ (files <> [] ->
      (exists o, List.filter is_show trace = [event offer o])
      /\ List.filter modifies (interp h (run env) w).2 = []
      /\ exists o, List.filter is_show (interp h (run env) w).2
                   = [event (messageService_show Warning
                               (legacy_warning (default "" (head files)))) o]).
Proof.
  intros trace offer Hfiles. subst trace.
  unfold run, DarwinCLIHelper.constructor. rewrite !(interp_bind h).
  pose proof (interp_checkLegacy_reads env w) as Hreads.
  destruct (interp h (checkLegacy env) w) as [[r w1] t1]. cbn [fst snd] in *.
  subst r t1. destruct files as [|file rest].
  - change ((0 <? length (@nil string))%nat) with false. cbv iota. cbn [interp fst snd].
    rewrite app_nil_r. by repeat split.
  - change ((0 <? length (file :: rest))%nat) with true. cbv iota.
    change (default "" (head (file :: rest))) with file.
    rewrite (interp_bind h), !(interp_perform h). cbn [fst snd].
    fold offer.
    destruct (h unit offer w1) as [o1 w2].
    destruct (h unit (messageService_show Warning (legacy_warning file)) w1) as [o2 w3].
    cbn [fst snd]. split; [|split; [done|intros _; split; [|split]]].
    + by rewrite List.filter_app.
    + exists o1. by rewrite List.filter_app.
    + destruct o2; cbn [interp fst snd]; by rewrite !List.filter_app.
    + exists o2. destruct o2; cbn [interp fst snd]; by rewrite !List.filter_app.
Qed.

End CLIActionsFacts.

Lemma isInstalled_only_looks_witness :
  (CLI.interp CLI.example_handler (CLI.isInstalled CLI.example_env)
     CLITraces.installed_fs).1.1 = CLI.Ok true.
Proof.
  apply (isInstalled_only_looks CLI.example_handler CLI.example_env CLITraces.installed_fs).
  split; [by eexists|reflexivity].
Defined.

Lemma uninstall_removes_only_the_target_witness :
  exists o,
    List.filter CLITraces.is_show
      (CLI.interp CLI.example_handler (UninstallAction.run CLI.example_env) CLI.example_fs).2
    = [CLI.event (CLI.messageService_show CLI.Info
                    (UninstallAction.success_message CLI.example_env)) o]
    /\ (CLI.interp CLI.example_handler (UninstallAction.run CLI.example_env)
          CLI.example_fs).1.1 = o.
Proof.
  apply (uninstall_removes_only_the_target CLI.example_handler CLI.example_env CLI.example_fs).
  reflexivity.
Defined.

Lemma run_skips_install_witness :
  List.filter CLITraces.modifies
    (CLI.interp CLI.example_handler (CLI.run CLI.example_env) CLITraces.installed_fs).2 = [].
Proof.
  apply (run_skips_install CLI.example_handler CLI.example_env CLITraces.installed_fs true);
    reflexivity.
Defined.

Lemma unreadable_profile_rejects_witness :
  exists errors,
    errors !! 1%nat = Some (Some (CLI.SystemError "EACCES"))
    /\ (CLI.interp CLITraces.locked_handler (CLI.checkLegacy CLI.example_env)
          CLI.example_fs).1.1 = CLI.Err (CLI.JoinError errors)
    /\ (CLI.interp CLITraces.locked_handler (CLI.run CLI.example_env)
          CLI.example_fs).1.1 = CLI.Err (CLI.JoinError errors)
    /\ (CLI.interp CLITraces.locked_handler (CLI.run CLI.example_env) CLI.example_fs).2
       = CLITraces.legacy_reads CLITraces.locked_handler CLI.example_env CLI.example_fs
    /\ (CLI.interp CLITraces.locked_handler (DarwinCLIHelper.constructor CLI.example_env)
          CLI.example_fs).1.1 = CLI.Err (CLI.JoinError errors)
    /\ (CLI.interp CLITraces.locked_handler (DarwinCLIHelper.constructor CLI.example_env)
          CLI.example_fs).2
       = CLITraces.legacy_reads CLITraces.locked_handler CLI.example_env CLI.example_fs.
Proof.
  apply (unreadable_profile_rejects CLITraces.locked_handler CLI.example_env CLI.example_fs
           (CLI.SystemError "EACCES") 1); [reflexivity|discriminate].
Defined.

Lemma helper_offer_only_warns_witness :
  List.filter CLI.touches_system
    (CLI.interp CLI.example_handler (DarwinCLIHelper.constructor CLI.example_env)
       CLI.example_legacy_fs).2
  = CLITraces.legacy_reads CLI.example_handler CLI.example_env CLI.example_legacy_fs.
Proof.
  apply (helper_offer_only_warns CLI.example_handler CLI.example_env CLI.example_legacy_fs
           ["/Users/me/.zshrc"]).
  reflexivity.
Defined.

(** ** The hover widget and the editor's decorations *)

Section DebugHoverMoreFacts.
Import DebugHover DebugHoverTree.

Lemma layoutTree_decorations n w :
  decorations (layoutTree n w) = decorations w
  /\ highlightDecorations (layoutTree n w) = highlightDecorations w.
Proof.
  unfold layoutTree. destruct (n =? 0).
  - destruct (tree_input w); [|done].
    by destruct (doShow_decorations (showAtPosition w) e true w) as (-> & -> & _).
  - by destruct (treeContainer_height w =? _).
Qed.

Lemma owned_hide w : owned w -> owned (hide w).
Proof.
  intros Ho. unfold hide. destruct (isVisible w); [|exact Ho]. intros id. simpl.
  rewrite lookup_remove_decorations. destruct (decide (id ∈ highlightDecorations w)) as [Hin|Hnin].
  - rewrite elem_of_nil. split; [by intros [? ?]|done].
  - rewrite elem_of_nil. split; [|done]. intros Hsome. by apply Hnin, Ho.
Qed.

Lemma owned_exec e w : hover_inv w -> owned w -> owned (exec e w).
Proof.
  intros (_ & _ & Hids) Ho. destruct e; simpl.
  - unfold showAt. by destruct (_ || _).
  - destruct expression as [e|]; [|by apply owned_hide].
    destruct (available e) eqn:He; [|unfold showAt_done; rewrite He; by apply owned_hide].
    rewrite (showAt_done_shown h e w He). intros id.
    destruct (doShow_decorations (Some (pos h)) e false
                (set_highlightDecorations [nextDecorationId w]
                   (deltaDecorations (highlightDecorations w) [hoverHighlight h] w).1))
      as (-> & -> & _). simpl. rewrite list_elem_of_singleton.
    destruct (decide (id = nextDecorationId w)) as [->|Hne].
    + rewrite lookup_insert_eq. split; [done|by eexists].
    + rewrite lookup_insert_ne by done. rewrite lookup_remove_decorations.
      destruct (decide (id ∈ highlightDecorations w)) as [Hin|Hnin].
      * split; [by intros [? ?]|done].
      * split; [|done]. intros Hsome. by destruct Hnin; apply Ho.
  - by apply owned_hide.
  - unfold tree_input_set. intros id. simpl.
    destruct (layoutTree_decorations visibleElementsCount w) as [-> ->]. apply Ho.
  - intros id. destruct (layoutTree_decorations visibleElementsCount w) as [-> ->]. apply Ho.
  - exact Ho.
Qed.

Lemma owned_reachable w : reachable w -> owned w.
Proof.
  intros (m & frame & history & ->).
  assert (H0 : hover_inv (new_DebugHoverWidget m frame)
               /\ owned (new_DebugHoverWidget m frame)).
  { split; [apply hover_inv_reachable; by exists m, frame, []|].
    intros id. simpl. rewrite lookup_empty, elem_of_nil. split; [by intros [? ?]|done]. }
  revert H0. generalize (new_DebugHoverWidget m frame).
  induction history as [|e history IH]; intros w [HI Ho]; simpl; [exact Ho|].
  apply IH. split; [by apply hover_inv_exec|by apply owned_exec].
Qed.

(** X6: the widget leaks no decoration.  In every state it can reach, the
    decorations in the editor are exactly those whose ids the widget holds
    in [highlightDecorations]: at most one, and none while the widget is
    not visible. *)
Theorem editor_holds_only_the_highlight (w : World) :
  reachable w ->
  (forall id, is_Some (decorations w !! id) <-> id ∈ highlightDecorations w)
  /\ (size (decorations w) <= 1)%nat
  /\ (isVisible w = false -> decorations w = ∅).
Proof.
  intros Hreach. pose proof (owned_reachable w Hreach) as Ho.
  destruct (hover_inv_reachable w Hreach) as (Hhidden & Hlen & _).
  split; [exact Ho|].
  assert (Hempty : highlightDecorations w = [] -> decorations w = ∅).
  { intros Hnil. apply map_empty. intros id.
    destruct (decorations w !! id) eqn:E; [|done].
    assert (Hin : id ∈ highlightDecorations w) by (apply Ho; by eexists).
    rewrite Hnil in Hin. by apply elem_of_nil in Hin. }
  split; [|by intros Hv; apply Hempty, Hhidden].
  destruct (highlightDecorations w) as [|id [|id' rest]] eqn:Eh; simpl in Hlen; [| |lia].
  - rewrite Hempty by done. by rewrite map_size_empty.
  - destruct (proj2 (Ho id)) as [d Hd]; [rewrite Eh; by left|].
    assert (Heq : decorations w = {[id := d]}).
    { apply map_eq. intros j. destruct (decide (j = id)) as [->|Hne].
      - by rewrite lookup_singleton_eq.
      - rewrite lookup_singleton_ne by done.
        destruct (decorations w !! j) eqn:E; [|done].
        assert (Hin : j ∈ highlightDecorations w) by (apply Ho; by eexists).
        rewrite Eh in Hin. by apply list_elem_of_singleton in Hin. }
    rewrite Heq. by rewrite map_size_singleton.
Qed.

Lemma doShow_tree p e w :
  0 < reference e ->
  doShow p e false w
  = set_containers false true (valueContainer_rendered w) (Some e)
      (treeContainer_height w) (tree_layouts w) (set_shown true p w).
Proof.
  intros Href. unfold doShow.
  replace ((0 <? reference e) && negb false) with true; [reflexivity|].
  symmetry. rewrite andb_true_r. by apply Z.ltb_lt.
Qed.

(** X7: a hover on a structured value (an available expression with
    [reference > 0]) hands the expression to the tree and shows the tree
    container.  When the tree then turns out to have nothing to show, the
    widget falls back to the plain value of the same expression, at the
    same position; otherwise the tree container gets 18 pixels for each
    visible element, at most 18 of them, and laying the tree out again for
    the same number of elements changes nothing. *)
Theorem structured_hover_layout (w : World) (h : PendingHover) (e : Expression) (n : Z) :
  available e = true -> 0 < reference e -> 0 <= n ->
  let w1 := showAt_done h (Some e) w in
  let w2 := tree_input_set n w1 in
  (treeContainer_hidden w1 = false /\ valueContainer_hidden w1 = true
   /\ tree_input w1 = Some e
   /\ valueContainer_rendered w1 = valueContainer_rendered w)
  /\ getPosition w2 = Some {| position := Some (pos h); preference := [ABOVE; BELOW] |}
  /\ highlightDecorations w2 = highlightDecorations w1
  /\ (n = 0 ->
      treeContainer_hidden w2 = true /\ valueContainer_hidden w2 = false
      /\ valueContainer_rendered w2 = Some e)
  /\ (0 < n ->
      treeContainer_hidden w2 = false /\ valueContainer_hidden w2 = true
      /\ treeContainer_height w2 = 18 * Z.min n 18
      /\ 18 <= treeContainer_height w2 <= 324
      /\ layoutTree n w2 = w2).
Proof.
  intros He Href Hn w1 w2. subst w2 w1. rewrite (showAt_done_shown h e w He).
  rewrite (doShow_tree _ _ _ Href).
  set (w0 := set_highlightDecorations [nextDecorationId w]
               (deltaDecorations (highlightDecorations w) [hoverHighlight h] w).1).
  assert (Hw0 : valueContainer_rendered w0 = valueContainer_rendered w
                /\ treeContainer_height w0 = treeContainer_height w) by done.
  destruct Hw0 as [Hr0 Hh0]. clearbody w0. split; [by rewrite <- Hr0|].
  unfold tree_input_set, layoutTree. simpl.
  destruct (n =? 0) eqn:En; simpl.
  - apply Z.eqb_eq in En. subst n. unfold doShow. rewrite andb_false_r. simpl.
    split; [reflexivity|]. split; [reflexivity|]. split; [done|lia].
  - unfold MAX_ELEMENTS_SHOWN.
    assert (Hrange : 18 <= Z.min n 18 * 18 <= 324) by (apply Z.eqb_neq in En; lia).
    destruct (treeContainer_height w0 =? Z.min n 18 * 18) eqn:Eh; simpl.
    + split; [reflexivity|]. split; [reflexivity|].
      split; [intros ->; discriminate|]. intros _.
      rewrite Eh. apply Z.eqb_eq in Eh. rewrite Eh. repeat split; lia.
    + split; [reflexivity|]. split; [reflexivity|].
      split; [intros ->; discriminate|]. intros _.
      rewrite Z.eqb_refl. repeat split; lia.
Qed.

Lemma substring_0_0 s : String.substring 0 0 s = "".
Proof. by destruct s. Qed.

Lemma substring_0_length s : String.substring 0 (String.length s) s = s.
Proof. induction s as [|c s IH]; simpl; [reflexivity|by rewrite IH]. Qed.

Lemma lastIndexOf_from_none search : forall s i found,
  ~ JSString.contains s search ->
  JSString.lastIndexOf_from s search i found = found.
Proof.
  induction s as [|c s IH]; intros i found Hnone.
  - change (JSString.lastIndexOf_from "" search i found)
      with (if String.prefix search "" then i else found).
    destruct (String.prefix search "") eqn:Hp; [|reflexivity].
    destruct Hnone. exists 0%nat. by apply occurs_at_0.
  - change (JSString.lastIndexOf_from (String c s) search i found)
      with (JSString.lastIndexOf_from s search (i + 1)
              (if String.prefix search (String c s) then i else found)).
    destruct (String.prefix search (String c s)) eqn:Hp.
    + destruct Hnone. exists 0%nat. by apply occurs_at_0.
    + apply IH. intros [j Hj]. apply Hnone. exists (S j). by apply occurs_at_S.
Qed.

(** X8: the names [showAt] looks up.  When the hovered word is not preceded
    by a dot on its line, there are no parents and the only name looked up
    is the hovered word itself, cut after its last blank; for a word
    without a blank, this is the word. *)
Theorem namesToFind_without_parents (line word : string) :
  ~ JSString.contains line ("." +:+ word) ->
  namesToFind line word
  = [JSString.substring_from word (JSString.lastIndexOf word " " + 1)]
  /\ (~ JSString.contains word " " -> namesToFind line word = [word]).
Proof.
  intros Hnone.
  assert (Hindex : JSString.indexOf line ("." +:+ word) = -1).
  { unfold JSString.indexOf.
    destruct (indexOf_from_spec ("." +:+ word) line 0 ltac:(lia))
      as [[Hr _]|(k & _ & Hk & _)]; [exact Hr|]. destruct Hnone. by exists k. }
  assert (Hnames : namesToFind line word
                   = [JSString.substring_from word (JSString.lastIndexOf word " " + 1)]).
  { unfold namesToFind. rewrite Hindex. unfold JSString.substring at 1.
    change (Z.to_nat (Z.min (Z.max 0 0) (Z.max 0 (-1)))) with 0%nat.
    change (Z.to_nat (Z.max (Z.max 0 0) (Z.max 0 (-1)) - Z.min (Z.max 0 0) (Z.max 0 (-1))))
      with 0%nat.
    rewrite substring_0_0. reflexivity. }
  split; [exact Hnames|]. intros Hblank. rewrite Hnames.
  unfold JSString.lastIndexOf. rewrite lastIndexOf_from_none by exact Hblank.
  unfold JSString.substring_from, JSString.substring.
  replace (Z.to_nat (Z.min (Z.max 0 (-1 + 1)) (Z.max 0 (Z.of_nat (String.length word)))))
    with 0%nat by lia.
  replace (Z.to_nat (Z.max (Z.max 0 (-1 + 1)) (Z.max 0 (Z.of_nat (String.length word)))
                     - Z.min (Z.max 0 (-1 + 1)) (Z.max 0 (Z.of_nat (String.length word)))))
    with (String.length word) by lia.
  by rewrite substring_0_length.
Qed.

Lemma lookFor_short names : forall children, (length (lookFor names children) <= 1)%nat.
Proof.
  induction names as [|wanted rest IH]; intros children; simpl; [lia|].
  destruct (List.filter (matches wanted) children) as [|found [|]]; simpl; try lia.
  destruct rest as [|next rest]; [simpl; lia|].
  destruct (getChildren_of found) as [c|]; [apply IH|simpl; lia].
Qed.

Lemma lookFor_leads names : forall children v,
  lookFor names children = [v]
  <-> exists path, leads names children path /\ last path = Some v.
Proof.
  induction names as [|wanted rest IH]; intros children v.
  - split; [discriminate|]. by intros ([|] & [] & _).
  - cbn [lookFor]. split.
    + destruct (List.filter (matches wanted) children) as [|found [|]] eqn:Ef;
        [discriminate| |discriminate].
      destruct rest as [|next rest].
      * intros [= ->]. exists [v]. cbn [leads]. by rewrite Ef.
      * destruct (getChildren_of found) as [c|] eqn:Ec; [|discriminate].
        intros Hl. apply IH in Hl as (path & Hpath & Hlast).
        exists (found :: path). split.
        -- cbn [leads]. rewrite Ef. split; [reflexivity|]. by exists c.
        -- destruct path as [|u path]; [by destruct next|]. exact Hlast.
    + intros ([|u path] & Hleads & Hlast); [by destruct Hleads|].
      cbn [leads] in Hleads. destruct Hleads as [Hf Hrest]. rewrite Hf.
      destruct rest as [|next rest].
      * subst path. simpl in Hlast. congruence.
      * destruct Hrest as (c & -> & Hbelow). apply IH. exists path. split; [exact Hbelow|].
        destruct path as [|u' path]; [by destruct Hbelow|]. exact Hlast.
Qed.

Lemma leads_matches names : forall children path,
  leads names children path ->
  Forall2 (fun wanted v => matches wanted v = true) names path
  /\ match path with v :: _ => v ∈ children | [] => False end.
Proof.
  induction names as [|wanted rest IH]; intros children [|v below] Hleads;
    try by destruct Hleads.
  cbn [leads] in Hleads. destruct Hleads as [Hf Hrest].
  assert (Hv : v ∈ List.filter (matches wanted) children) by (rewrite Hf; by left).
  apply list_elem_of_In, List.filter_In in Hv as [Hin Hm].
  split; [|by apply list_elem_of_In]. constructor; [exact Hm|].
  destruct rest as [|next rest]; [subst below; constructor|].
  destruct Hrest as (c & _ & Hbelow). by apply IH in Hbelow as [? _].
Qed.

Lemma flatten_spec scopes :
  flatten scopes
  = concat (map (fun item => match item with one scope => [scope] | several l => l end)
              scopes).
Proof.
  unfold flatten.
  assert (H : forall acc,
             fold_left (fun accum item =>
                          accum ++ match item with one scope => [scope] | several l => l end)
               scopes acc
             = acc ++ concat (map (fun item => match item with
                                               | one scope => [scope]
                                               | several l => l
                                               end) scopes)).
  { induction scopes as [|item scopes IH]; intros acc; simpl; [by rewrite app_nil_r|].
    by rewrite IH, <- app_assoc. }
  apply (H []).
Qed.

Lemma concat_singleton {A : Type} (ls : list (list A)) (x : A) :
  concat ls = [x] ->
  exists i, ls !! i = Some [x] /\ forall j l, j <> i -> ls !! j = Some l -> l = [].
Proof.
  induction ls as [|l ls IH]; [discriminate|]. simpl. intros Hc.
  destruct l as [|y l].
  - destruct (IH Hc) as (i & Hi & Hothers). exists (S i). split; [exact Hi|].
    intros [|j] l' Hne Hl'; [by injection Hl' as <-|].
    apply (Hothers j); [lia|exact Hl'].
  - injection Hc as -> Hc. apply app_eq_nil in Hc as [-> Hc]. exists 0%nat.
    split; [reflexivity|]. intros [|j] l' Hne Hl'; [done|]. simpl in Hl'.
    assert (Hall : Forall (fun l => l = []) ls).
    { clear -Hc. induction ls as [|l ls IH]; [constructor|].
      simpl in Hc. apply app_eq_nil in Hc as [-> Hc]. constructor; [done|by apply IH]. }
    rewrite Forall_lookup in Hall. by apply (Hall j).
Qed.

(** X9: what [getExpression] finds in the scopes.  When the session does not
    evaluate for hovers and an expression is returned, it is the expression
    of a variable reached from the variables of one scope that is not
    expensive, along a path with one variable for each name to find: each
    variable of the path bears its name (or has it as its last word), is the
    only one to do so among the variables at hand at its level, and is
    among the children of the one before.  No other scope that is not
    expensive has found a variable. *)
Theorem getExpression_found_along_a_path (evaluateExpression : string -> Expression)
  (scopes : list ScopeItem) (names : list string) (e : Expression) :
  getExpression false evaluateExpression scopes names = Some e ->
  let eligible := List.filter (fun scope => negb (expensive scope)) (flatten scopes) in
  exists (i : nat) (scope : Scope) (children path : list IExpression) (v : IExpression),
    eligible !! i = Some scope
    /\ scope ∈ flatten scopes /\ expensive scope = false
    /\ scope_getChildren scope = Some children
    /\ leads names children path
    /\ Forall2 (fun wanted u => matches wanted u = true) names path
    /\ last path = Some v /\ expression_of v = e
    /\ forall j other c, j <> i -> eligible !! j = Some other ->
         scope_getChildren other = Some c -> lookFor names c = [].
Proof.
  intros Hget eligible. unfold getExpression, variables in Hget. fold eligible in Hget.
  destruct (concat _) as [|v [|]] eqn:Hc; [discriminate| |discriminate].
  injection Hget as <-.
  apply concat_singleton in Hc as (i & Hi & Hothers).
  rewrite list_lookup_fmap in Hi.
  destruct (eligible !! i) as [scope|] eqn:Hscope; [|discriminate].
  simpl in Hi. injection Hi as Hi.
  destruct (scope_getChildren scope) as [children|] eqn:Hchildren; [|discriminate].
  apply lookFor_leads in Hi as (path & Hleads & Hlast).
  exists i, scope, children, path, v.
  assert (Hin : scope ∈ eligible) by (by apply list_elem_of_lookup_2 in Hscope).
  apply list_elem_of_In, List.filter_In in Hin as [Hin Hexp].
  split; [exact Hscope|]. split; [by apply list_elem_of_In|].
  split; [by apply negb_true_iff|]. split; [exact Hchildren|]. split; [exact Hleads|].
  split; [by apply leads_matches in Hleads as [? _]|]. split; [exact Hlast|].
  split; [reflexivity|]. intros j other c Hne Hother Hc.
  apply (Hothers j); [exact Hne|]. rewrite list_lookup_fmap, Hother. simpl. by rewrite Hc.
Qed.





End DebugHoverMoreFacts.

Lemma editor_holds_only_the_highlight_witness :
  (size (DebugHover.decorations DebugHover.example_world) <= 1)%nat.
Proof.
  apply (editor_holds_only_the_highlight DebugHover.example_world).
  exists DebugHover.example_model, (Some {| DebugHover.source_uri := "file:///app.js" |}),
    DebugHover.example_history.
  reflexivity.
Defined.

Lemma structured_hover_layout_witness :
  DebugHover.treeContainer_height
    (DebugHover.tree_input_set 3
       (DebugHover.showAt_done DebugHover.example_hover
          (Some {| DebugHover.name := "b"; DebugHover.available := true;
                   DebugHover.reference := 7 |})
          DebugHover.example_world))
  = 18 * Z.min 3 18.
Proof.
  apply (structured_hover_layout DebugHover.example_world DebugHover.example_hover
           {| DebugHover.name := "b"; DebugHover.available := true;
              DebugHover.reference := 7 |} 3); [reflexivity|simpl; lia|lia|lia].
Defined.

Lemma namesToFind_without_parents_witness :
  DebugHover.namesToFind "return foo;" "foo" = ["foo"].
Proof.
  apply (namesToFind_without_parents "return foo;" "foo").
  - intros H. apply indexOf_contains in H. vm_compute in H. discriminate.
  - intros H. apply indexOf_contains in H. vm_compute in H. discriminate.
Defined.

Lemma getExpression_found_along_a_path_witness :
  exists (i : nat) (scope : DebugHoverTree.Scope)
         (children path : list DebugHoverTree.IExpression) (v : DebugHoverTree.IExpression),
    List.filter (fun scope => negb (DebugHoverTree.expensive scope))
      (DebugHoverTree.flatten DebugHoverTree.example_scopes) !! i = Some scope
    /\ scope ∈ DebugHoverTree.flatten DebugHoverTree.example_scopes
    /\ DebugHoverTree.expensive scope = false
    /\ DebugHoverTree.scope_getChildren scope = Some children
    /\ DebugHoverTree.leads ["a"; "b"; "foo"] children path
    /\ Forall2 (fun wanted u => DebugHoverTree.matches wanted u = true) ["a"; "b"; "foo"] path
    /\ last path = Some v
    /\ DebugHoverTree.expression_of v
       = {| DebugHover.name := "foo"; DebugHover.available := true;
            DebugHover.reference := 0 |}
    /\ forall j other c, j <> i ->
         List.filter (fun scope => negb (DebugHoverTree.expensive scope))
           (DebugHoverTree.flatten DebugHoverTree.example_scopes) !! j = Some other ->
         DebugHoverTree.scope_getChildren other = Some c ->
         DebugHoverTree.lookFor ["a"; "b"; "foo"] c = [].
Proof.
  apply (getExpression_found_along_a_path (fun name =>
           {| DebugHover.name := name; DebugHover.available := false;
              DebugHover.reference := 0 |})
           DebugHoverTree.example_scopes ["a"; "b"; "foo"]).
  reflexivity.
Defined.


(** ** The remaining operations of the mode service *)

Section ModeServiceOpsFacts.
Import Objects ModeService ModeServiceOps.



















(** *** Settled promises *)

















(** *** Modes and the options stored for them *)

Lemma quiet_same w w' :
  _config w' = _config w -> length (modes w') = length (modes w) ->
  (forall i m, modes w !! i = Some m ->
     exists m', modes w' !! i = Some m' /\ configured m' = configured m
                /\ static m' = static m) ->
  quiet w w'.
Proof.
  intros Hc Hlen Hm. split; [exact Hc|exact Hm|].
  intros i m' Hm' Hi. apply lookup_lt_Some in Hm'. lia.
Qed.

Lemma quiet_eq w w' : _config w' = _config w -> modes w' = modes w -> quiet w w'.
Proof.
  intros Hc Hm. apply quiet_same; [exact Hc|by rewrite Hm|].
  intros i m Hi. exists m. by rewrite Hm.
Qed.

Lemma quiet_length w w' : quiet w w' -> (length (modes w) <= length (modes w'))%nat.
Proof.
  intros [_ Hm _].
  destruct (decide (length (modes w) <= length (modes w'))%nat) as [Hle|Hgt]; [exact Hle|].
  destruct (lookup_lt_is_Some_2 (modes w) (length (modes w')) ltac:(lia)) as [m Hi].
  destruct (Hm _ m Hi) as (m' & Hm' & _). apply lookup_lt_Some in Hm'. lia.
Qed.

Lemma quiet_trans w1 w2 w3 : quiet w1 w2 -> quiet w2 w3 -> quiet w1 w3.
Proof.
  intros H12 H23. pose proof (quiet_length _ _ H12) as Hlen.
  destruct H12 as [Hc12 Hm12 Hn12]. destruct H23 as [Hc23 Hm23 Hn23]. split.
  - congruence.
  - intros i m Hi. destruct (Hm12 i m Hi) as (m2 & Hi2 & Hcf2 & Hst2).
    destruct (Hm23 i m2 Hi2) as (m3 & Hi3 & Hcf3 & Hst3).
    exists m3. split; [exact Hi3|]. split; congruence.
  - intros i m3 Hi3 Hi Hcs.
    destruct (decide (i < length (modes w2))%nat) as [Hlt|Hge].
    + destruct (lookup_lt_is_Some_2 (modes w2) i Hlt) as [m2 Hi2].
      destruct (Hm23 i m2 Hi2) as (m3' & Hi3' & Hcf3 & Hst3).
      assert (m3' = m3) by congruence. subst m3'.
      unfold static in Hst3. injection Hst3 as Hid _ _ Hcs3.
      rewrite Hcf3, Hid. rewrite (Hn12 i m2 Hi2 Hi) by congruence.
      unfold getConfigurationForMode. by rewrite Hc23.
    + apply (Hn23 i m3 Hi3); [lia|exact Hcs].
Qed.



Lemma registerModeSupport_then_quiet modeId support callback mode w :
  quiet w (registerModeSupport_then modeId support callback mode w).1.
Proof.
  unfold registerModeSupport_then, registerSupport.
  destruct (modes w !! mode) as [m|]; [|by apply quiet_eq].
  destruct (has_registerSupport m); simpl; [|by apply quiet_eq].
  apply quiet_same; simpl; [reflexivity|by rewrite length_alter|].
  intros i o Hi. destruct (decide (mode = i)) as [->|Hne].
  - exists (attach support callback o). by rewrite list_lookup_alter_eq, Hi.
  - exists o. by rewrite list_lookup_alter_ne.
Qed.

Lemma waiters_quiet mode (ws : list (string * string * nat)) : forall w,
  quiet w (fold_left (fun w '(modeId, support, callback) =>
                        (registerModeSupport_then modeId support callback mode w).1) ws w).
Proof.
  induction ws as [|[[id support] callback] ws IH]; intros w; simpl; [by apply quiet_eq|].
  eapply quiet_trans; [apply registerModeSupport_then_quiet|apply IH].
Qed.

Lemma complete_quiet p mode w : quiet w (complete p mode w).
Proof.
  unfold complete. destruct (promises w !! p) as [cell|]; [|by apply quiet_eq].
  eapply quiet_trans; [|apply waiters_quiet]. by apply quiet_eq.
Qed.

Lemma _getOrCreateMode_quiet modeId w : Inv w -> quiet w (_getOrCreateMode modeId w).1.
Proof.
  intros HI.
  destruct (_instantiatedModes w !! modeId) as [mode|] eqn:Hinst.
  { rewrite (_getOrCreateMode_instantiated _ _ _ Hinst). by apply quiet_eq. }
  destruct (_activationPromises w !! modeId) as [p|] eqn:Hact.
  { rewrite (_getOrCreateMode_pending _ _ _ Hinst Hact). by apply quiet_eq. }
  destruct (getCompatMode (languageExtensions w) modeId) as [data|] eqn:Hcompat.
  { rewrite (_getOrCreateMode_compat _ _ _ Hinst Hact Hcompat). by apply quiet_eq. }
  assert (Hfrank : _frankensteinModes w !! modeId = None).
  { destruct (_frankensteinModes w !! modeId) as [i|] eqn:E; [|reflexivity].
    apply (inv_frank_inst w HI) in E. congruence. }
  rewrite (_getOrCreateMode_frankenstein modeId w Hinst Hact Hfrank Hcompat).
  split; simpl; [reflexivity| |].
  - intros i m Hi. exists m. split; [by apply lookup_app_l_Some|done].
  - intros i m' Hi' Hge Hcs. rewrite lookup_app_r in Hi' by exact Hge.
    destruct (i - length (modes w))%nat; [|discriminate]. by injection Hi' as <-.
Qed.

Lemma run_request_quiet request w : Inv w -> quiet w (run_request request w).
Proof.
  intros HI.
  assert (H : run_request request w = (getOrCreate request w).1) by (by destruct request).
  rewrite H. destruct (pluginsReady w) eqn:Hready.
  - rewrite (getOrCreate_ready _ _ Hready). by apply _getOrCreateMode_quiet.
  - rewrite (getOrCreate_not_ready _ _ Hready). by apply quiet_eq.
Qed.


Lemma registerModeSupport_quiet modeId support callback w :
  Inv w -> quiet w (registerModeSupport modeId support callback w).1.
Proof.
  intros HI. unfold registerModeSupport.
  pose proof (_getOrCreateMode_quiet modeId w HI) as H.
  destruct (_getOrCreateMode modeId w) as [w1 promise]. simpl in H.
  assert (Hthen : forall mode,
             quiet w (let '(w, d) := registerModeSupport_then modeId support callback mode w1
                      in (w, Registered d)).1).
  { intros mode. eapply quiet_trans; [exact H|].
    pose proof (registerModeSupport_then_quiet modeId support callback mode w1) as Hq.
    by destruct (registerModeSupport_then modeId support callback mode w1) as [w2 d]. }
  destruct promise as [mode|p|n]; [apply Hthen| |exact H].
  destruct (promises w1 !! p) as [[[|mode|err] ws]|] eqn:Ep; simpl;
    [|apply Hthen|exact H|exact H].
  eapply quiet_trans; [exact H|]. by apply quiet_eq.
Qed.

Lemma compatModeCreated_quiet modeId r c w : quiet w (compatModeCreated modeId r c w).
Proof.
  unfold compatModeCreated.
  destruct (_activationPromises w !! modeId) as [p|]; [|by apply quiet_eq].
  destruct (getCompatMode (languageExtensions w) modeId) as [data|]; [|by apply quiet_eq].
  destruct (promises w !! p) as [[[|mode|e] ws]|] eqn:Ep; simpl;
    try (by apply quiet_eq).
  eapply quiet_trans; [|apply complete_quiet].
  destruct c; simpl.
  - split; simpl; [reflexivity| |].
    + intros i m Hi. exists m. rewrite alter_app_r_alt by lia.
      split; [by apply lookup_app_l_Some|done].
    + intros i m' Hi' Hge Hcs. rewrite alter_app_r_alt, Nat.sub_diag in Hi' by lia.
      rewrite lookup_app_r in Hi' by exact Hge.
      destruct (i - length (modes w))%nat; [|discriminate]. by injection Hi' as <-.
  - split; simpl; [reflexivity| |].
    + intros i m Hi. exists m. split; [by apply lookup_app_l_Some|done].
    + intros i m' Hi' Hge Hcs. rewrite lookup_app_r in Hi' by exact Hge.
      destruct (i - length (modes w))%nat; [|discriminate]. by injection Hi' as <-.
Qed.

Lemma run_requests_quiet queue : forall w,
  Inv w -> quiet w (fold_left (fun w request => run_request request w) queue w).
Proof.
  induction queue as [|request queue IH]; intros w HI; simpl; [by apply quiet_eq|].
  eapply quiet_trans; [by apply run_request_quiet|].
  apply IH. by destruct (run_request_ok request w HI) as [? _].
Qed.






End ModeServiceOpsFacts.

(** ** The mode service of the main thread *)

Section MainThreadFacts.
Import Objects ModeService MainThreadModeService.

Lemma base_helper mw : base (_getModeServiceWorkerHelper mw) = base mw.
Proof. unfold _getModeServiceWorkerHelper. by destruct (_hasInitialized mw). Qed.

Lemma sim__createMode modeId mw :
  (base (_createMode modeId mw).1, (_createMode modeId mw).2)
  = ModeService._createMode modeId (base mw).
Proof.
  unfold _createMode. simpl. rewrite base_helper.
  by destruct (ModeService._createMode modeId (base mw)).
Qed.

Lemma sim__getOrCreateMode modeId mw :
  (base (_getOrCreateMode modeId mw).1, (_getOrCreateMode modeId mw).2)
  = ModeService._getOrCreateMode modeId (base mw).
Proof.
  unfold _getOrCreateMode, ModeService._getOrCreateMode.
  destruct (_instantiatedModes (base mw) !! modeId); [reflexivity|].
  destruct (_activationPromises (base mw) !! modeId); [reflexivity|].
  cbv zeta.
  set (mw1 := on_base (with_activationPromises _) (on_base (with_promises _) mw)).
  pose proof (sim__createMode modeId mw1) as H.
  change (base mw1)
    with (with_activationPromises <[modeId := length (promises (base mw))]>
            (with_promises (fun ps => ps ++ [{| state := Pending; waiters := [] |}])
               (base mw))) in H.
  rewrite <- H. destruct (_createMode modeId mw1) as [mw2 [mode|]]; reflexivity.
Qed.

Lemma sim_getOrCreate request mw :
  (base (getOrCreate request mw).1, (getOrCreate request mw).2)
  = ModeService.getOrCreate request (base mw).
Proof.
  unfold getOrCreate. destruct (pluginsReady (base mw)) eqn:Hready.
  - rewrite (getOrCreate_ready _ _ Hready). apply sim__getOrCreateMode.
  - by rewrite (getOrCreate_not_ready _ _ Hready).
Qed.

Lemma sim_getMode s mw :
  (base (getMode s mw).1, (getMode s mw).2) = ModeService.getMode s (base mw).
Proof.
  unfold getMode, ModeService.getMode.
  destruct (getMode_loop _ _ _) as [mode|[|]]; [reflexivity| |reflexivity].
  pose proof (sim_getOrCreate (ByMimetypesOrIds s) mw) as H. simpl in H.
  rewrite <- H. by destruct (getOrCreate (ByMimetypesOrIds s) mw).
Qed.

Lemma sim_configureModeById modeId options mw :
  base (configureModeById modeId options mw)
  = ModeService.configureModeById modeId options (base mw).
Proof.
  unfold configureModeById, ModeService.configureModeById. cbv zeta.
  set (mw0 := send _ (_getModeServiceWorkerHelper mw)).
  assert (H0 : base mw0 = base mw) by (subst mw0; simpl; apply base_helper).
  rewrite H0. clearbody mw0.
  change (match _config (base mw) !! modeId with
          | Some o => or_else o (object [])
          | None => object []
          end) with (getConfigurationForMode modeId (base mw)).
  destruct (equals _ _); [exact H0|].
  set (mw1 := on_base _ mw0).
  pose proof (sim_getMode modeId mw1) as H.
  assert (H1 : base mw1
               = with_config <[modeId := mixin (clone (getConfigurationForMode modeId (base mw)))
                                           options]> (base mw))
    by (subst mw1; simpl; by rewrite H0).
  rewrite H1 in H. rewrite <- H.
  destruct (getMode modeId mw1) as [mw2 [m|]]; [|reflexivity]. simpl.
  destruct (modes (base mw2) !! m) as [o|]; [|reflexivity].
  by destruct (has_configSupport o).
Qed.

Lemma sim_configureMode mimetype options mw :
  base (configureMode mimetype options mw)
  = ModeService.configureMode mimetype options (base mw).
Proof.
  unfold configureMode, ModeService.configureMode.
  destruct (getModeId mimetype (base mw)) as [id|]; [|reflexivity].
  destruct (JSString.truthy id); [|reflexivity]. apply sim_configureModeById.
Qed.

Lemma sim_registerModeSupport modeId support callback mw :
  (base (registerModeSupport modeId support callback mw).1,
   (registerModeSupport modeId support callback mw).2)
  = ModeService.registerModeSupport modeId support callback (base mw).
Proof.
  unfold registerModeSupport, ModeService.registerModeSupport. cbv zeta.
  set (mw0 := send _ (_getModeServiceWorkerHelper mw)).
  assert (H0 : base mw0 = base mw) by (subst mw0; simpl; apply base_helper).
  rewrite <- H0. clearbody mw0.
  rewrite <- (sim__getOrCreateMode modeId mw0).
  destruct (_getOrCreateMode modeId mw0) as [mw1 [mode|p|n]]; simpl; [| |reflexivity].
  - by destruct (registerModeSupport_then modeId support callback mode (base mw1)).
  - destruct (promises (base mw1) !! p) as [[[|mode|err] ws]|]; simpl; try reflexivity.
    by destruct (registerModeSupport_then modeId support callback mode (base mw1)).
Qed.

Lemma sim_requests queue : forall mw,
  base (fold_left (fun mw request => (getOrCreate request mw).1) queue mw)
  = fold_left (fun w request => run_request request w) queue (base mw).
Proof.
  induction queue as [|request queue IH]; intros mw; simpl; [reflexivity|].
  rewrite IH. f_equal.
  pose proof (sim_getOrCreate request mw) as H.
  assert (Hr : run_request request (base mw) = (ModeService.getOrCreate request (base mw)).1)
    by (by destruct request).
  rewrite Hr, <- H. reflexivity.
Qed.

Lemma sim_exec c mw : base (exec c mw) = ModeService.run (inherited c) (base mw).
Proof.
  destruct c as [[s|n|f l|s|id options|mimetype options|id support callback| |id r c|id err]
                |id language lexer]; simpl.
  - pose proof (sim_getOrCreate (ByMimetypesOrIds s) mw) as H. simpl in H. by rewrite <- H.
  - pose proof (sim_getOrCreate (ByLanguageName n) mw) as H. simpl in H. by rewrite <- H.
  - pose proof (sim_getOrCreate (ByFilenameOrFirstLine f l) mw) as H. simpl in H.
    by rewrite <- H.
  - by rewrite <- (sim_getMode s mw).
  - apply sim_configureModeById.
  - apply sim_configureMode.
  - by rewrite <- (sim_registerModeSupport id support callback mw).
  - unfold pluginsBecomeReady, ModeService.pluginsBecomeReady.
    destruct (pluginsReady (base mw)); [reflexivity|]. by rewrite sim_requests.
  - reflexivity.
  - reflexivity.
  - unfold registerMonarchDefinition. cbv zeta.
    set (mw0 := send _ (_getModeServiceWorkerHelper mw)).
    assert (H0 : base mw0 = base mw) by (subst mw0; simpl; apply base_helper).
    rewrite <- H0. clearbody mw0.
    pose proof (sim_registerModeSupport id "tokenizationSupport"
                  (ModeServiceOps.createTokenizationSupport lexer) mw0) as H1.
    destruct (registerModeSupport id "tokenizationSupport" _ mw0) as [mw1 r1].
    pose proof (sim_registerModeSupport id "richEditSupport"
                  (ModeServiceOps.createRichEditSupport lexer) mw1) as H2.
    destruct (registerModeSupport id "richEditSupport" _ mw1) as [mw2 r2].
    pose proof (sim_registerModeSupport id "suggestSupport"
                  (ModeServiceOps.createSuggestSupport lexer) mw2) as H3.
    destruct (registerModeSupport id "suggestSupport" _ mw2) as [mw3 r3].
    simpl in *. rewrite <- H1. simpl. rewrite <- H2. simpl. by rewrite <- H3.
Qed.



(** *** What the worker is told *)

Lemma served_same id w w' :
  _instantiatedModes w' = _instantiatedModes w ->
  _activationPromises w' = _activationPromises w ->
  served id w' -> served id w.
Proof. unfold served. by intros -> ->. Qed.

Lemma served_core id w w' : core w = core w' -> served id w' -> served id w.
Proof. unfold core. intros [= _ Ha Hi _ _ _ _ _]. by apply served_same. Qed.

Lemma _getOrCreateMode_served modeId id w :
  Inv w -> served id (ModeService._getOrCreateMode modeId w).1 -> served id w \/ id = modeId.
Proof.
  intros HI.
  destruct (_instantiatedModes w !! modeId) as [mode|] eqn:Hinst.
  { rewrite (_getOrCreateMode_instantiated _ _ _ Hinst). by left. }
  destruct (_activationPromises w !! modeId) as [p|] eqn:Hact.
  { rewrite (_getOrCreateMode_pending _ _ _ Hinst Hact). by left. }
  destruct (decide (id = modeId)) as [->|Hne]; [by right|]. intros Hs. left. revert Hs.
  destruct (getCompatMode (languageExtensions w) modeId) as [data|] eqn:Hcompat.
  - rewrite (_getOrCreateMode_compat _ _ _ Hinst Hact Hcompat). unfold served. simpl.
    by rewrite lookup_insert_ne.
  - assert (Hfrank : _frankensteinModes w !! modeId = None).
    { destruct (_frankensteinModes w !! modeId) as [i|] eqn:E; [|reflexivity].
      apply (inv_frank_inst w HI) in E. congruence. }
    rewrite (_getOrCreateMode_frankenstein modeId w Hinst Hact Hfrank Hcompat).
    unfold served. simpl. by rewrite lookup_insert_ne.
Qed.

Lemma compatModeCreated_served modeId r c id w :
  served id (compatModeCreated modeId r c w) -> served id w.
Proof.
  unfold compatModeCreated.
  destruct (_activationPromises w !! modeId) as [p|] eqn:Hact; [|done].
  destruct (getCompatMode (languageExtensions w) modeId) as [data|]; [|done].
  destruct (promises w !! p) as [[[|mode|e] ws]|] eqn:Ep; simpl; try done.
  set (w3 := _getOrCreateMode_then modeId (length (modes w)) _).
  assert (H3 : _instantiatedModes w3 = <[modeId := length (modes w)]> (_instantiatedModes w)
               /\ _activationPromises w3 = delete modeId (_activationPromises w)
               /\ promises w3 = promises w) by (subst w3; by destruct c).
  destruct H3 as (Hi3 & Ha3 & Hp3). clearbody w3.
  assert (Hcell : promises w3 !! p = Some {| state := Pending; waiters := ws |})
    by (by rewrite Hp3).
  intros Hs. apply (served_core id _ _ (eq_sym (core_complete p _ w3 _ Hcell))) in Hs.
  destruct (decide (id = modeId)) as [->|Hne]; [right; by exists p|].
  revert Hs. unfold served. simpl. rewrite Hi3, Ha3.
  by rewrite lookup_insert_ne, lookup_delete_ne.
Qed.

Lemma compatModeFailed_served modeId err id w :
  served id (compatModeFailed modeId err w) -> served id w.
Proof.
  unfold compatModeFailed.
  destruct (_activationPromises w !! modeId) as [p|]; [|done].
  by destruct (state <$> promises w !! p) as [[| |]|].
Qed.

Lemma mirrored_change mw mw' :
  _hasInitialized mw' = _hasInitialized mw -> worker mw' = worker mw ->
  (forall id, served id (base mw') ->
              served id (base mw) \/ helper_instantiateMode id ∈ worker mw) ->
  mirrored mw -> mirrored mw'.
Proof.
  intros Hi Hw Hs [H1 H2 H3]. split; rewrite ?Hi, ?Hw; [exact H1|exact H2|].
  intros id Hid. destruct (Hs id Hid) as [H|H]; [by apply H3|exact H].
Qed.

Lemma mirrored_remote c mw :
  c <> helper_initialize -> mirrored mw ->
  mirrored (send c (_getModeServiceWorkerHelper mw))
  /\ c ∈ worker (send c (_getModeServiceWorkerHelper mw)).
Proof.
  intros Hc [H1 H2 H3]. unfold _getModeServiceWorkerHelper.
  destruct (_hasInitialized mw) eqn:Hinit; simpl.
  - split; [|apply elem_of_app; right; by left].
    destruct (H2 eq_refl) as (rest & Hw & Hrest). split; simpl.
    + by rewrite Hinit.
    + intros _. exists (rest ++ [c]). rewrite Hw. split; [reflexivity|].
      rewrite elem_of_app, list_elem_of_singleton. intros [?|?]; [done|congruence].
    + intros id Hid. apply elem_of_app. left. by apply H3.
  - split; [|apply elem_of_app; right; by left].
    rewrite (H1 eq_refl) in *. split; simpl.
    + discriminate.
    + intros _. exists [c]. split; [reflexivity|].
      rewrite list_elem_of_singleton. congruence.
    + intros id Hid. specialize (H3 id Hid). by apply elem_of_nil in H3.
Qed.

Lemma _getOrCreateMode_mirrored modeId mw :
  Inv (base mw) -> mirrored mw -> mirrored (_getOrCreateMode modeId mw).1.
Proof.
  intros HI Hm.
  pose proof (sim__getOrCreateMode modeId mw) as Hsim.
  pose proof (_getOrCreateMode_served modeId) as Hserved.
  unfold _getOrCreateMode in *.
  destruct (_instantiatedModes (base mw) !! modeId) eqn:Hinst; [exact Hm|].
  destruct (_activationPromises (base mw) !! modeId) eqn:Hact; [exact Hm|].
  cbv zeta in *.
  destruct (mirrored_remote (helper_instantiateMode modeId) mw ltac:(done) Hm) as [Hr Hin].
  set (mwr := send (helper_instantiateMode modeId) (_getModeServiceWorkerHelper mw)) in *.
  set (mw1 := on_base (with_activationPromises _) (on_base (with_promises _) mw)) in *.
  assert (Hfields : _hasInitialized (_createMode modeId mw1).1 = _hasInitialized mwr
                    /\ worker (_createMode modeId mw1).1 = worker mwr).
  { unfold _createMode. simpl.
    destruct (ModeService._createMode modeId _) as [w created]. simpl.
    subst mwr mw1. unfold _getModeServiceWorkerHelper. simpl.
    by destruct (_hasInitialized mw). }
  destruct (_createMode modeId mw1) as [mw2 created]. simpl in Hfields.
  destruct Hfields as [Hf1 Hf2].
  assert (Hfinal : forall mw3, base mw3 = (ModeService._getOrCreateMode modeId (base mw)).1 ->
                   _hasInitialized mw3 = _hasInitialized mwr -> worker mw3 = worker mwr ->
                   mirrored mw3).
  { intros mw3 Hb Hi3 Hw3. apply (mirrored_change mwr mw3 Hi3 Hw3); [|exact Hr].
    intros id Hid. rewrite Hb in Hid.
    destruct (Hserved id (base mw) HI Hid) as [Hs| ->]; [|by right].
    left. subst mwr. simpl. by rewrite base_helper. }
  destruct created as [mode|]; simpl in *.
  - apply Hfinal; [|exact Hf1|exact Hf2]. by rewrite <- Hsim.
  - apply Hfinal; [|exact Hf1|exact Hf2]. by rewrite <- Hsim.
Qed.

Lemma sim_Inv__getOrCreateMode modeId mw :
  Inv (base mw) -> Inv (base (_getOrCreateMode modeId mw).1).
Proof.
  intros HI. pose proof (sim__getOrCreateMode modeId mw) as Hsim.
  destruct (_getOrCreateMode_ok modeId (base mw) HI) as (HI' & _).
  rewrite <- Hsim in HI'. exact HI'.
Qed.

Lemma getOrCreate_mirrored request mw :
  Inv (base mw) -> mirrored mw ->
  Inv (base (getOrCreate request mw).1) /\ mirrored (getOrCreate request mw).1.
Proof.
  intros HI Hm. unfold getOrCreate. destruct (pluginsReady (base mw)) eqn:Hready.
  - split; [by apply sim_Inv__getOrCreateMode|by apply _getOrCreateMode_mirrored].
  - simpl. split.
    + destruct HI as [H1 H2 H3 H4 H5 H6 H7 H8 H9 H10]. split; simpl; eauto. congruence.
    + by apply (mirrored_change mw); [| |intros id Hid; left|].
Qed.

Lemma getMode_mirrored s mw :
  Inv (base mw) -> mirrored mw ->
  Inv (base (getMode s mw).1) /\ mirrored (getMode s mw).1.
Proof.
  intros HI Hm. unfold getMode.
  destruct (getMode_loop _ _ _) as [mode|[|]]; [done| |done].
  pose proof (getOrCreate_mirrored (ByMimetypesOrIds s) mw HI Hm) as H.
  by destruct (getOrCreate (ByMimetypesOrIds s) mw).
Qed.

Lemma configureModeById_mirrored modeId options mw :
  Inv (base mw) -> mirrored mw ->
  Inv (base (configureModeById modeId options mw))
  /\ mirrored (configureModeById modeId options mw).
Proof.
  intros HI Hm. split.
  { rewrite sim_configureModeById. by destruct (configureModeById_ok modeId options _ HI). }
  unfold configureModeById. cbv zeta.
  destruct (mirrored_remote (helper_configureModeById modeId options) mw ltac:(done) Hm)
    as [Hr _].
  set (mw0 := send _ (_getModeServiceWorkerHelper mw)) in *.
  assert (HI0 : Inv (base mw0)) by (subst mw0; simpl; by rewrite base_helper).
  clearbody mw0. destruct (equals _ _); [exact Hr|].
  set (mw1 := on_base _ mw0).
  assert (HI1 : Inv (base mw1)) by (by apply (Inv_core (base mw0))).
  assert (Hm1 : mirrored mw1) by (by apply (mirrored_change mw0); [| |intros id Hid; left|]).
  destruct (getMode_mirrored modeId mw1 HI1 Hm1) as [HI2 Hm2].
  destruct (getMode modeId mw1) as [mw2 [m|]]; [|exact Hm2]. simpl in *.
  destruct (modes (base mw2) !! m) as [o|]; [|exact Hm2].
  destruct (has_configSupport o); [|exact Hm2].
  apply (mirrored_change mw2); [done|done| |exact Hm2].
  intros id Hid. left. revert Hid. apply served_core. simpl. symmetry. apply core_configure.
Qed.

Lemma registerModeSupport_mirrored modeId support callback mw :
  Inv (base mw) -> mirrored mw ->
  Inv (base (registerModeSupport modeId support callback mw).1)
  /\ mirrored (registerModeSupport modeId support callback mw).1.
Proof.
  intros HI Hm. split.
  { pose proof (sim_registerModeSupport modeId support callback mw) as Hsim.
    destruct (registerModeSupport_ok modeId support callback _ HI) as (HI' & _).
    by rewrite <- Hsim in HI'. }
  unfold registerModeSupport. cbv zeta.
  destruct (mirrored_remote (helper_instantiateMode modeId) mw ltac:(done) Hm) as [Hr _].
  set (mw0 := send _ (_getModeServiceWorkerHelper mw)) in *.
  assert (HI0 : Inv (base mw0)) by (subst mw0; simpl; by rewrite base_helper).
  clearbody mw0.
  pose proof (_getOrCreateMode_mirrored modeId mw0 HI0 Hr) as Hm1.
  destruct (_getOrCreateMode modeId mw0) as [mw1 promise]. simpl in Hm1.
  assert (Hthen : forall mode,
             mirrored (let '(w, d) := registerModeSupport_then modeId support callback mode
                                        (base mw1)
                       in (on_base (fun _ => w) mw1, Registered d)).1).
  { intros mode.
    pose proof (core_registerModeSupport_then modeId support callback mode (base mw1)) as Hc.
    destruct (registerModeSupport_then modeId support callback mode (base mw1)) as [w2 d].
    simpl in *. apply (mirrored_change mw1); [done|done| |exact Hm1].
    intros id Hid. left. revert Hid. by apply served_core. }
  destruct promise as [mode|p|n]; [apply Hthen| |exact Hm1].
  destruct (promises (base mw1) !! p) as [[[|mode|err] ws]|]; simpl;
    [|apply Hthen|exact Hm1|exact Hm1].
  by apply (mirrored_change mw1); [| |intros id Hid; left|].
Qed.

Lemma requests_mirrored queue : forall mw,
  Inv (base mw) -> mirrored mw ->
  Inv (base (fold_left (fun mw request => (getOrCreate request mw).1) queue mw))
  /\ mirrored (fold_left (fun mw request => (getOrCreate request mw).1) queue mw).
Proof.
  induction queue as [|request queue IH]; intros mw HI Hm; simpl; [done|].
  destruct (getOrCreate_mirrored request mw HI Hm) as [HI1 Hm1]. by apply IH.
Qed.

Lemma exec_mirrored c mw :
  Inv (base mw) -> mirrored mw -> Inv (base (exec c mw)) /\ mirrored (exec c mw).
Proof.
  intros HI Hm.
  destruct c as [[s|n|f l|s|id options|mimetype options|id support callback| |id r c|id err]
                |id language lexer]; simpl.
  - by apply getOrCreate_mirrored.
  - by apply getOrCreate_mirrored.
  - by apply getOrCreate_mirrored.
  - by apply getMode_mirrored.
  - by apply configureModeById_mirrored.
  - unfold configureMode. destruct (getModeId mimetype (base mw)) as [id|]; [|done].
    destruct (JSString.truthy id); [|done]. by apply configureModeById_mirrored.
  - by apply registerModeSupport_mirrored.
  - unfold pluginsBecomeReady. destruct (pluginsReady (base mw)) eqn:Hready; [done|].
    apply requests_mirrored.
    + simpl. destruct HI as [H1 H2 H3 H4 H5 H6 H7 H8 H9 H10]. split; simpl; eauto.
    + by apply (mirrored_change mw); [| |intros id' Hid; left|].
  - split; [simpl; by destruct (compatModeCreated_ok id r c _ HI)|].
    apply (mirrored_change mw); [done|done| |exact Hm].
    intros id' Hid. left. revert Hid. apply compatModeCreated_served.
  - split; [simpl; by destruct (compatModeFailed_ok id err _ HI)|].
    apply (mirrored_change mw); [done|done| |exact Hm].
    intros id' Hid. left. revert Hid. apply compatModeFailed_served.
  - unfold registerMonarchDefinition. cbv zeta.
    destruct (mirrored_remote (helper_registerMonarchDefinition id language) mw
                ltac:(done) Hm) as [Hr _].
    set (mw0 := send _ (_getModeServiceWorkerHelper mw)) in *.
    assert (HI0 : Inv (base mw0)) by (subst mw0; simpl; by rewrite base_helper).
    clearbody mw0.
    destruct (registerModeSupport_mirrored id "tokenizationSupport"
                (ModeServiceOps.createTokenizationSupport lexer) mw0 HI0 Hr) as [HI1 Hm1].
    destruct (registerModeSupport id "tokenizationSupport" _ mw0) as [mw1 r1].
    destruct (registerModeSupport_mirrored id "richEditSupport"
                (ModeServiceOps.createRichEditSupport lexer) mw1 HI1 Hm1) as [HI2 Hm2].
    destruct (registerModeSupport id "richEditSupport" _ mw1) as [mw2 r2].
    destruct (registerModeSupport_mirrored id "suggestSupport"
                (ModeServiceOps.createSuggestSupport lexer) mw2 HI2 Hm2) as [HI3 Hm3].
    by destruct (registerModeSupport id "suggestSupport" _ mw2) as [mw3 r3].
Qed.

(** X17: the worker is told.  In every state the service of the main thread
    can reach, the first call it has made on the worker helper, if any, is
    [initialize], which it made only once; and for every mode id that is
    instantiated on the main thread, or whose creation is pending there, it
    has asked the worker to instantiate the mode too. *)
Theorem worker_is_told (mw : MainWorld) :
  reachable mw ->
  (forall c rest, worker mw = c :: rest ->
     c = helper_initialize /\ (helper_initialize ∉ rest) /\ _hasInitialized mw = true)
  /\ (_hasInitialized mw = false -> worker mw = [])
  /\ forall modeId,
       served modeId (base mw) -> helper_instantiateMode modeId ∈ worker mw.
Proof.
  intros (registry & ready & history & ->).
  assert (H0 : Inv (base (new_MainThreadModeServiceImpl registry ready))
               /\ mirrored (new_MainThreadModeServiceImpl registry ready)).
  { split; [apply Inv_new|]. split; simpl; [done|discriminate|].
    intros id [[mode Hm]|[p Hp]]; simpl in *;
      [by rewrite lookup_empty in Hm|by rewrite lookup_empty in Hp]. }
  assert (H : mirrored (run history (new_MainThreadModeServiceImpl registry ready))).
  { revert H0. generalize (new_MainThreadModeServiceImpl registry ready).
    induction history as [|c history IH]; intros mw [HI Hm]; simpl; [exact Hm|].
    apply IH. by apply exec_mirrored. }
  destruct H as [H1 H2 H3]. split; [|split; [exact H1|exact H3]].
  intros c rest Hw.
  destruct (_hasInitialized (run history _)) eqn:Hinit.
  - destruct (H2 eq_refl) as (rest' & Hw' & Hrest). rewrite Hw in Hw'.
    injection Hw' as -> ->. done.
  - rewrite (H1 eq_refl) in Hw. discriminate.
Qed.

End MainThreadFacts.






Example configuring_example :
  let w := ModeService.run ModeServiceOps.configuring_history
             (ModeService.new_ModeServiceImpl ModeService.example_registry true) in
  ModeService._instantiatedModes w !! "html" = Some 0%nat
  /\ (ModeService.configured <$> ModeService.modes w !! 0%nat)
     = Some [Objects.object [("tabSize", Objects.number 4)];
             Objects.object [("tabSize", Objects.number 2)]].
Proof. split; reflexivity. Qed.


Lemma worker_is_told_witness :
  MainThreadModeService.helper_instantiateMode "html"
  ∈ MainThreadModeService.worker
      (MainThreadModeService.run MainThreadModeService.example_main_history
         (MainThreadModeService.new_MainThreadModeServiceImpl
            ModeService.example_registry true)).
Proof.
  apply (worker_is_told
           (MainThreadModeService.run MainThreadModeService.example_main_history
              (MainThreadModeService.new_MainThreadModeServiceImpl
                 ModeService.example_registry true))).
  - exists ModeService.example_registry, true, MainThreadModeService.example_main_history.
    reflexivity.
  - right. exists 1%nat. reflexivity.
Defined.

Example main_thread_example :
  MainThreadModeService.worker
    (MainThreadModeService.run MainThreadModeService.example_main_history
       (MainThreadModeService.new_MainThreadModeServiceImpl
          ModeService.example_registry true))
  = [ MainThreadModeService.helper_initialize;
      MainThreadModeService.helper_configureModeById "ini"
        (Objects.object [("tabSize", Objects.number 4)]);
      MainThreadModeService.helper_registerMonarchDefinition "ini" 0;
      MainThreadModeService.helper_instantiateMode "ini";
      MainThreadModeService.helper_instantiateMode "ini";
      MainThreadModeService.helper_instantiateMode "ini";
      MainThreadModeService.helper_instantiateMode "ini";
      MainThreadModeService.helper_instantiateMode "html" ].
Proof. reflexivity. Qed.

(** ** What reaches the worker *)

Section WorkerHelperFacts.
Import Objects ModeService MainThreadModeService ModeServiceWorkerHelper.
Context (registry : LanguageExtensions).

Lemma config_configureModeById id options w :
  _config (ModeService.configureModeById id options w)
  = ModeServiceOps.config_step id options (_config w).
Proof.
  unfold ModeServiceOps.config_step. cbv zeta.
  change (match _config w !! id with
          | Some o => or_else o (object [])
          | None => object []
          end) with (getConfigurationForMode id w).
  destruct (equals _ _) eqn:E.
  - by rewrite (configureModeById_noop _ _ _ E).
  - by rewrite (configureModeById_changed _ _ _ E).
Qed.

Lemma config_run_request request w : Inv w -> _config (run_request request w) = _config w.
Proof. intros HI. by destruct (run_request_quiet request w HI). Qed.

Lemma config_registerModeSupport id support callback w :
  Inv w -> _config (ModeService.registerModeSupport id support callback w).1 = _config w.
Proof. intros HI. by destruct (registerModeSupport_quiet id support callback w HI). Qed.

(** What a call does to the stored options. *)
Lemma exec_config c w :
  Inv w ->
  _config (ModeService.exec c w)
  = match c with
    | call_configureModeById id options => ModeServiceOps.config_step id options (_config w)
    | call_configureMode mimetype options =>
        match getModeId mimetype w with
        | Some id => if JSString.truthy id
                     then ModeServiceOps.config_step id options (_config w)
                     else _config w
        | None => _config w
        end
    | _ => _config w
    end.
Proof.
  intros HI.
  destruct c as [s|n|f l|s|id options|mimetype options|id support callback| |id r c|id err];
    simpl.
  - by apply (config_run_request (ByMimetypesOrIds s)).
  - by apply (config_run_request (ByLanguageName n)).
  - by apply (config_run_request (ByFilenameOrFirstLine f l)).
  - apply config_getMode.
  - apply config_configureModeById.
  - unfold ModeService.configureMode. destruct (getModeId mimetype w) as [id|]; [|reflexivity].
    destruct (JSString.truthy id); [|reflexivity]. apply config_configureModeById.
  - by apply config_registerModeSupport.
  - unfold ModeService.pluginsBecomeReady.
    destruct (pluginsReady w) eqn:Hready; [reflexivity|].
    assert (HI0 : Inv (with_plugins true [] w)).
    { destruct HI as [H1 H2 H3 H4 H5 H6 H7 H8 H9 H10]. split; simpl; eauto. }
    by destruct (run_requests_quiet (deferred w) _ HI0).
  - by destruct (compatModeCreated_quiet id r c w).
  - unfold compatModeFailed. destruct (_activationPromises w !! id) as [p|]; [|reflexivity].
    by destruct (state <$> promises w !! p) as [[| |]|].
Qed.

Lemma deliver_config compile c w :
  Inv w -> languageExtensions w = registry ->
  Forall (fun sent => resolvable registry sent.1) (options_sent [c]) ->
  Inv (deliver compile c w)
  /\ languageExtensions (deliver compile c w) = registry
  /\ _config (deliver compile c w)
     = fold_left (fun config sent => ModeServiceOps.config_step sent.1 sent.2 config)
         (options_sent [c]) (_config w).
Proof.
  intros HI Hreg Hres. destruct c as [|id|id options|id language]; simpl.
  - done.
  - unfold instantiateMode.
    destruct (exec_ok (call_getOrCreateMode id) w HI) as (HI' & He & _). simpl in *.
    split; [exact HI'|]. split; [by rewrite (ext_registry _ _ He)|].
    by apply (config_run_request (ByMimetypesOrIds id)).
  - unfold ModeServiceWorkerHelper.configureModeById.
    destruct (exec_ok (call_configureMode id options) w HI) as (HI' & He & _). simpl in *.
    split; [exact HI'|]. split; [by rewrite (ext_registry _ _ He)|].
    apply Forall_cons in Hres as [[Htruthy Hid] _]. simpl in *.
    unfold ModeService.configureMode, getModeId. rewrite Hreg, Hid. simpl.
    rewrite Htruthy. apply config_configureModeById.
  - unfold ModeServiceWorkerHelper.registerMonarchDefinition,
      ModeServiceOps.registerMonarchDefinition, ModeServiceOps.doRegisterMonarchDefinition,
      registerTokenizationSupport, registerRichEditSupport.
    set (lexer := compile language).
    destruct (exec_ok (call_registerModeSupport id "tokenizationSupport"
                         (ModeServiceOps.createTokenizationSupport lexer)) w HI)
      as (HI1 & He1 & _).
    pose proof (config_registerModeSupport id "tokenizationSupport"
                  (ModeServiceOps.createTokenizationSupport lexer) w HI) as Hc1.
    simpl in HI1, He1.
    destruct (ModeService.registerModeSupport id "tokenizationSupport" _ w) as [w1 r1].
    simpl in *.
    destruct (exec_ok (call_registerModeSupport id "richEditSupport"
                         (ModeServiceOps.createRichEditSupport lexer)) w1 HI1)
      as (HI2 & He2 & _).
    pose proof (config_registerModeSupport id "richEditSupport"
                  (ModeServiceOps.createRichEditSupport lexer) w1 HI1) as Hc2.
    simpl in HI2, He2.
    destruct (ModeService.registerModeSupport id "richEditSupport" _ w1) as [w2 r2].
    simpl in *. split; [exact HI2|].
    split; [by rewrite (ext_registry _ _ He2), (ext_registry _ _ He1)|congruence].
Qed.

Lemma deliver_all_config compile calls : forall w,
  Inv w -> languageExtensions w = registry ->
  Forall (fun sent => resolvable registry sent.1) (options_sent calls) ->
  _config (deliver_all compile calls w)
  = fold_left (fun config sent => ModeServiceOps.config_step sent.1 sent.2 config)
      (options_sent calls) (_config w).
Proof.
  induction calls as [|c calls IH]; intros w HI Hreg Hres; [reflexivity|].
  change (c :: calls) with ([c] ++ calls) in *. unfold options_sent in *.
  rewrite omap_app in *. apply Forall_app in Hres as [Hc Hres].
  rewrite fold_left_app.
  destruct (deliver_config compile c w HI Hreg Hc) as (HI1 & Hreg1 & Hc1).
  unfold options_sent in Hc1. rewrite <- Hc1.
  change (deliver_all compile ([c] ++ calls) w)
    with (deliver_all compile calls (deliver compile c w)).
  by apply IH.
Qed.

(** *** The options sent by the main thread *)

Lemma sent_remote c mw :
  options_sent (worker (send c (_getModeServiceWorkerHelper mw)))
  = options_sent (worker mw) ++ options_sent [c].
Proof.
  unfold _getModeServiceWorkerHelper, options_sent.
  destruct (_hasInitialized mw); simpl; rewrite !omap_app; simpl; [done|].
  by rewrite app_nil_r.
Qed.

Lemma _getOrCreateMode_sent modeId mw :
  options_sent (worker (_getOrCreateMode modeId mw).1) = options_sent (worker mw).
Proof.
  unfold _getOrCreateMode.
  destruct (_instantiatedModes (base mw) !! modeId); [reflexivity|].
  destruct (_activationPromises (base mw) !! modeId); [reflexivity|].
  cbv zeta.
  set (mw1 := on_base (with_activationPromises _) (on_base (with_promises _) mw)).
  assert (Hw : worker (_createMode modeId mw1).1
               = worker (send (helper_instantiateMode modeId)
                           (_getModeServiceWorkerHelper mw))).
  { unfold _createMode. simpl.
    destruct (ModeService._createMode modeId _) as [w created]. simpl.
    subst mw1. unfold _getModeServiceWorkerHelper. simpl.
    by destruct (_hasInitialized mw). }
  destruct (_createMode modeId mw1) as [mw2 [mode|]]; cbn [fst] in *;
    unfold on_base; cbn [worker]; rewrite Hw, sent_remote; simpl; by rewrite app_nil_r.
Qed.

Lemma getOrCreate_sent request mw :
  options_sent (worker (getOrCreate request mw).1) = options_sent (worker mw).
Proof.
  unfold getOrCreate. destruct (pluginsReady (base mw)); [|reflexivity].
  apply _getOrCreateMode_sent.
Qed.

Lemma getMode_sent s mw :
  options_sent (worker (getMode s mw).1) = options_sent (worker mw).
Proof.
  unfold getMode. destruct (getMode_loop _ _ _) as [mode|[|]]; [reflexivity| |reflexivity].
  pose proof (getOrCreate_sent (ByMimetypesOrIds s) mw) as H.
  by destruct (getOrCreate (ByMimetypesOrIds s) mw).
Qed.

Lemma configureModeById_sent id options mw :
  options_sent (worker (MainThreadModeService.configureModeById id options mw))
  = options_sent (worker mw) ++ [(id, options)].
Proof.
  unfold MainThreadModeService.configureModeById. cbv zeta.
  change [(id, options)] with (options_sent [helper_configureModeById id options]).
  rewrite <- (sent_remote (helper_configureModeById id options) mw).
  set (mw0 := send _ (_getModeServiceWorkerHelper mw)). clearbody mw0.
  destruct (equals _ _); [reflexivity|].
  set (mw1 := on_base _ mw0).
  pose proof (getMode_sent id mw1) as H.
  destruct (getMode id mw1) as [mw2 [m|]]; simpl in *; [|exact H].
  destruct (modes (base mw2) !! m) as [o|]; [|exact H].
  by destruct (has_configSupport o).
Qed.

Lemma registerModeSupport_sent id support callback mw :
  options_sent (worker (registerModeSupport id support callback mw).1)
  = options_sent (worker mw).
Proof.
  unfold registerModeSupport. cbv zeta.
  assert (H0 : options_sent (worker (send (helper_instantiateMode id)
                                       (_getModeServiceWorkerHelper mw)))
               = options_sent (worker mw)).
  { rewrite sent_remote. simpl. by rewrite app_nil_r. }
  rewrite <- H0.
  set (mw0 := send _ (_getModeServiceWorkerHelper mw)). clearbody mw0.
  pose proof (_getOrCreateMode_sent id mw0) as H.
  destruct (_getOrCreateMode id mw0) as [mw1 [mode|p|n]]; simpl in *; [| |exact H].
  - by destruct (registerModeSupport_then id support callback mode (base mw1)).
  - destruct (promises (base mw1) !! p) as [[[|mode|err] ws]|]; simpl; try exact H.
    by destruct (registerModeSupport_then id support callback mode (base mw1)).
Qed.

Lemma requests_sent queue : forall mw,
  options_sent (worker (fold_left (fun mw request => (getOrCreate request mw).1) queue mw))
  = options_sent (worker mw).
Proof.
  induction queue as [|request queue IH]; intros mw; simpl; [reflexivity|].
  rewrite IH. apply getOrCreate_sent.
Qed.

(** The options a call sends to the worker. *)
Lemma exec_sent c mw :
  options_sent (worker (exec c mw))
  = options_sent (worker mw)
    ++ match c with
       | service_call (call_configureModeById id options) => [(id, options)]
       | service_call (call_configureMode mimetype options) =>
           match getModeId mimetype (base mw) with
           | Some id => if JSString.truthy id then [(id, options)] else []
           | None => []
           end
       | _ => []
       end.
Proof.
  destruct c as [[s|n|f l|s|id options|mimetype options|id support callback| |id r c|id err]
                |id language lexer]; simpl; rewrite ?app_nil_r.
  - apply getOrCreate_sent.
  - apply getOrCreate_sent.
  - apply getOrCreate_sent.
  - apply getMode_sent.
  - apply configureModeById_sent.
  - unfold configureMode. destruct (getModeId mimetype (base mw)) as [id|];
      [|by rewrite app_nil_r].
    destruct (JSString.truthy id); [|by rewrite app_nil_r]. apply configureModeById_sent.
  - apply registerModeSupport_sent.
  - unfold pluginsBecomeReady. destruct (pluginsReady (base mw)); [reflexivity|].
    by rewrite requests_sent.
  - reflexivity.
  - reflexivity.
  - unfold MainThreadModeService.registerMonarchDefinition. cbv zeta.
    assert (H0 : options_sent (worker (send (helper_registerMonarchDefinition id language)
                                         (_getModeServiceWorkerHelper mw)))
                 = options_sent (worker mw)).
    { rewrite sent_remote. simpl. by rewrite app_nil_r. }
    rewrite <- H0.
    set (mw0 := send _ (_getModeServiceWorkerHelper mw)). clearbody mw0.
    pose proof (registerModeSupport_sent id "tokenizationSupport"
                  (ModeServiceOps.createTokenizationSupport lexer) mw0) as H1.
    destruct (registerModeSupport id "tokenizationSupport" _ mw0) as [mw1 r1].
    pose proof (registerModeSupport_sent id "richEditSupport"
                  (ModeServiceOps.createRichEditSupport lexer) mw1) as H2.
    destruct (registerModeSupport id "richEditSupport" _ mw1) as [mw2 r2].
    pose proof (registerModeSupport_sent id "suggestSupport"
                  (ModeServiceOps.createSuggestSupport lexer) mw2) as H3.
    destruct (registerModeSupport id "suggestSupport" _ mw2) as [mw3 r3].
    simpl in *. congruence.
Qed.

Lemma in_step_exec c mw :
  configures_resolvable registry c -> in_step registry mw -> in_step registry (exec c mw).
Proof.
  intros Hc [HI Hreg Hcfg Hres].
  assert (Hbase : Inv (base (exec c mw))
                  /\ languageExtensions (base (exec c mw)) = registry).
  { rewrite sim_exec. destruct (run_ok (inherited c) (base mw) HI) as (HI' & He).
    split; [exact HI'|]. by rewrite (ext_registry _ _ He). }
  destruct Hbase as [HI' Hreg'].
  split; [exact HI'|exact Hreg'| |]; rewrite exec_sent.
  - rewrite fold_left_app, <- Hcfg. rewrite sim_exec.
    destruct c as [c|id language lexer].
    + simpl. rewrite (exec_config c (base mw) HI).
      destruct c as [s|n|f l|s|id options|mimetype options|id support callback| |id r c|id err];
        try reflexivity.
      destruct (getModeId mimetype (base mw)) as [id|]; [|reflexivity].
      by destruct (JSString.truthy id).
    + simpl.
      destruct (exec_ok (call_registerModeSupport id "tokenizationSupport"
                           (ModeServiceOps.createTokenizationSupport lexer)) (base mw) HI)
        as (HI1 & _).
      destruct (exec_ok (call_registerModeSupport id "richEditSupport"
                           (ModeServiceOps.createRichEditSupport lexer)) _ HI1)
        as (HI2 & _).
      simpl in HI1, HI2.
      rewrite (config_registerModeSupport _ _ _ _ HI2),
        (config_registerModeSupport _ _ _ _ HI1).
      by apply config_registerModeSupport.
  - apply Forall_app. split; [exact Hres|].
    destruct c as [[s|n|f l|s|id options|mimetype options|id support callback| |id r c|id err]
                  |id language lexer]; simpl in *; try constructor; try done.
    unfold getModeId. rewrite Hreg.
    destruct (head (extractModeIds registry mimetype)) as [id|] eqn:E; [|constructor].
    destruct (JSString.truthy id) eqn:Ht; [|constructor].
    constructor; [|constructor]. by apply Hc.
Qed.

End WorkerHelperFacts.

(** X18: the options reach the worker.  When the modes are configured under
    ids that the registry maps to themselves, a worker service that starts
    empty and receives the calls of the main thread, in the order in which
    they were made, stores for every mode id the same options as the
    service of the main thread. *)
Theorem options_reach_the_worker (registry : ModeService.LanguageExtensions)
  (ready ready' : bool) (compile : nat -> ModeServiceOps.MonarchSupports)
  (history : list MainThreadModeService.MainCall) :
  Forall (ModeServiceWorkerHelper.configures_resolvable registry) history ->
  let mw := MainThreadModeService.run history
              (MainThreadModeService.new_MainThreadModeServiceImpl registry ready) in
  let ww := ModeServiceWorkerHelper.deliver_all compile (MainThreadModeService.worker mw)
              (ModeService.new_ModeServiceImpl registry ready') in
  ModeService._config ww = ModeService._config (MainThreadModeService.base mw)
  /\ forall modeId,
       ModeService.getConfigurationForMode modeId ww
       = ModeService.getConfigurationForMode modeId (MainThreadModeService.base mw).
Proof.
  intros Hall mw ww.
  assert (H0 : ModeServiceWorkerHelper.in_step registry
                 (MainThreadModeService.new_MainThreadModeServiceImpl registry ready)).
  { split; simpl; [apply Inv_new|reflexivity|reflexivity|constructor]. }
  assert (H : ModeServiceWorkerHelper.in_step registry mw).
  { subst mw. revert H0 Hall.
    generalize (MainThreadModeService.new_MainThreadModeServiceImpl registry ready).
    induction history as [|c history IH]; intros mw0 H0 Hall; simpl; [exact H0|].
    apply Forall_cons in Hall as [Hc Hall]. apply IH; [|exact Hall].
    by apply in_step_exec. }
  destruct H as [_ _ Hcfg Hres].
  assert (Hconfig : ModeService._config ww
                    = ModeService._config (MainThreadModeService.base mw)).
  { subst ww. rewrite (deliver_all_config registry); [|apply Inv_new|reflexivity|exact Hres].
    by rewrite Hcfg. }
  split; [exact Hconfig|]. intros modeId.
  unfold ModeService.getConfigurationForMode. by rewrite Hconfig.
Qed.

Lemma options_reach_the_worker_witness :
  ModeService._config
    (ModeServiceWorkerHelper.deliver_all
       (fun _ => {| ModeServiceOps.createTokenizationSupport := 1%nat;
                    ModeServiceOps.createRichEditSupport := 2%nat;
                    ModeServiceOps.createSuggestSupport := 3%nat |})
       (MainThreadModeService.worker
          (MainThreadModeService.run MainThreadModeService.example_main_history
             (MainThreadModeService.new_MainThreadModeServiceImpl
                ModeService.example_registry true)))
       (ModeService.new_ModeServiceImpl ModeService.example_registry false))
  = ModeService._config
      (MainThreadModeService.base
         (MainThreadModeService.run MainThreadModeService.example_main_history
            (MainThreadModeService.new_MainThreadModeServiceImpl
               ModeService.example_registry true))).
Proof.
  apply (options_reach_the_worker ModeService.example_registry true false
           (fun _ => {| ModeServiceOps.createTokenizationSupport := 1%nat;
                        ModeServiceOps.createRichEditSupport := 2%nat;
                        ModeServiceOps.createSuggestSupport := 3%nat |})
           MainThreadModeService.example_main_history).
  repeat constructor.
Defined.
